(** * Batched SHA-256 host driver (sha256_host.c): embedding and properties

    The development follows [main] of
    [src/third_party/hashcat_opencl/sha256_host.c]: the line reader built on
    [getline], the batch accumulator, the stride computation, the packer,
    the dispatch to the OpenCL kernel and the hexadecimal emitter.

    Conventions.
    - [size_t] and [ssize_t] are 64 bits wide (LP64; the file needs glibc's
      [getline]), [uint32_t], [cl_uint] and [unsigned] are 32 bits wide.
      A C integer is a [Z]; every narrowing cast of the source is written
      as [to_uint32] or [to_size_t].
    - A [char] is an [ascii]; a buffer is a [list ascii].
    - [line_bufs] and [lens_host] are arrays of [MAX_BATCH_LINES] entries
      of which the loops only touch the indices below [num_msgs]; they are
      lists holding that written prefix.
    - The process is a function from its environment (what every fallible
      library call answers) to the exit code, the output file left on
      disk and the trace of the external calls whose outcome the program
      checks: the two [fopen] and the OpenCL calls that go through the
      macro [CHECK_CL], each as many times as it is made. The macro
      evaluates its first argument once more when the status is not
      [CL_SUCCESS], so a call written as that argument is made twice when
      it fails. What goes to [stderr] and the release of memory and of
      OpenCL objects are left out. Writing to the output stream, which
      the program never checks, is taken to succeed; what was written is
      in the file when the process ends, by [return] or by [exit].
    - The OpenCL kernel is not part of the sources; its effect is taken
      from the contract the specification gives for it, over an abstract
      digest function [sha256].

    Besides [main], the helpers of the file are embedded: [read_text_file],
    [print_platform_device_info] (as the text it writes) and the search
    for a device; so is the single-shot driver
    [src/third_party/hashcat_opencl/sha256-host.c] ([read_binary_file],
    the packing of the file in big-endian words, the hexadecimal string
    built with [sprintf] and its [main]), in the module [SingleShot].
    - Memory that a function allocates and fills is a [block]: a list of
      bytes of which each is written or not yet. An access outside a block
      or a read of an unwritten byte has no defined behaviour: the model
      answers [None]. *)

From Stdlib Require Import ZArith Ascii String Lia.
From stdpp Require Import base numbers list.

Local Open Scope Z_scope.

(** ** Machine integers *)

Definition to_uint32 (z : Z) : Z := z mod 2 ^ 32.
Definition to_size_t (z : Z) : Z := z mod 2 ^ 64.
Definition SSIZE_MAX : Z := 2 ^ 63 - 1.

Definition CL_SUCCESS : Z := 0.
Definition CL_DEVICE_NOT_FOUND : Z := -1.

(** [#define MAX_BATCH_LINES 50000000u] *)
Definition MAX_BATCH_LINES : Z := 50000000.

Definition newline : ascii := "010"%char.
Definition NUL : ascii := "000"%char.

(** ** The input stream and [getline] *)

(** An open input stream: the bytes that can still be read, and whether the
    stream ends in a read error ([true]) or at end of file ([false]) once
    those bytes are consumed. *)
Record FILE : Type := mkFILE { unread : list ascii; read_error : bool }.

(** [getdelim] up to and including the first ['\n'], or to the end. *)
Fixpoint getdelim (data : list ascii) : list ascii * list ascii :=
  match data with
  | [] => ([], [])
  | c :: rest =>
      if Ascii.eqb c newline then ([c], rest)
      else let '(l, r) := getdelim rest in (c :: l, r)
  end.

(** [getline (&line, &linecap, fin)]: the number of bytes read (the
    delimiter included), or -1 when nothing can be read, be it at end of
    file or on a read error; the line; the stream afterwards. *)
Definition getline (fin : FILE) : Z * list ascii * FILE :=
  match unread fin with
  | [] => (-1, [], fin)
  | _ :: _ =>
      let '(l, r) := getdelim (unread fin) in
      (Z.of_nat (length l), l, mkFILE r (read_error fin))
  end.

(** What [ferror (fin)] would answer; the driver never asks. *)
Definition ferror (fin : FILE) : bool :=
  match unread fin with [] => read_error fin | _ => false end.

(** ** The batch accumulator (sha256_host.c, lines 288-320) *)

Record batch : Type := mkBatch {
  fin_after : FILE;
  num_msgs : Z;
  max_len : Z;
  line_bufs : list (list ascii);
  lens_host : list Z
}.

(** Lines 298-304: the length of the record once one trailing ['\n'] is
    dropped. *)
Definition strip_len (line : list ascii) (linelen : Z) : Z :=
  let len := to_size_t linelen in
  if (0 <? len) && Ascii.eqb (default NUL (line !! Z.to_nat (len - 1))) newline
  then len - 1 else len.

(** Lines 306-312: [copy = malloc (len > 0 ? len : 1); memcpy (copy, line, len)]. *)
Definition copy_line (line : list ascii) (len : Z) : list ascii :=
  if 0 <? len then take (Z.to_nat len) line else [].

Inductive step (A : Type) : Type :=
  | Go (a : A)
  | Exit (code : Z).
Arguments Go {A} a.
Arguments Exit {A} code.

(** The inner [for (;;)] of lines 291-320. [copy_ok k] tells whether the
    [malloc] of the copy for slot [k] succeeds. *)
Fixpoint read_batch (fuel : nat) (copy_ok : Z -> bool) (max_batch_lines : Z)
    (b : batch) : step batch :=
  match fuel with
  | O => Go b
  | S fuel' =>
      if max_batch_lines <=? num_msgs b then Go b
      else
        let '(linelen, line, fin') := getline (fin_after b) in
        if linelen <? 0 then Go b
        else
          let len := strip_len line linelen in
          if negb (copy_ok (num_msgs b)) then Exit 1
          else
            let copy := copy_line line len in
            read_batch fuel' copy_ok max_batch_lines
              (mkBatch fin'
                 (to_uint32 (num_msgs b + 1))
                 (if max_len b <? len then len else max_len b)
                 (line_bufs b ++ [copy])
                 (lens_host b ++ [to_uint32 len]))
  end.

(** Lines 288-289 and the loop: a batch read from [fin]. One successful
    [getline] consumes at least one byte, so the bytes left bound the
    number of iterations. *)
Definition accumulate (copy_ok : Z -> bool) (max_batch_lines : Z) (fin : FILE)
    : step batch :=
  read_batch (S (length (unread fin))) copy_ok max_batch_lines
    (mkBatch fin 0 0 [] []).

(** ** Stride and packing (lines 330-367) *)

(** Lines 330-339. *)
Definition compute_stride (max_len : Z) : Z :=
  if max_len =? 0 then 64
  else to_size_t (to_size_t (to_size_t (max_len + 63) / 64) * 64).

(** [memcpy (dst + off, src, n)] on a buffer held as a list. *)
Definition memcpy (dst : list ascii) (off : Z) (src : list ascii) (n : Z)
    : list ascii :=
  take (Z.to_nat off) dst ++ take (Z.to_nat n) src
    ++ drop (Z.to_nat off + Z.to_nat n) dst.

(** Lines 358-367, with [todo] iterations left and [k] the loop index. *)
Fixpoint pack_loop (todo : nat) (k : Z) (stride_bytes : Z)
    (line_bufs : list (list ascii)) (lens_host : list Z)
    (msgs_bytes : list ascii) : list ascii :=
  match todo with
  | O => msgs_bytes
  | S todo' =>
      let len_k := default 0 (lens_host !! Z.to_nat k) in
      let msgs_bytes' :=
        if 0 <? len_k
        then memcpy msgs_bytes (to_size_t (k * stride_bytes))
               (default [] (line_bufs !! Z.to_nat k)) len_k
        else msgs_bytes in
      pack_loop todo' (to_uint32 (k + 1)) stride_bytes line_bufs lens_host
        msgs_bytes'
  end.

(** Lines 342-367: [malloc], [memset] to zero, then the copy loop. *)
Definition pack (b : batch) (stride_bytes : Z) : list ascii :=
  let total_bytes := to_size_t (num_msgs b * stride_bytes) in
  pack_loop (Z.to_nat (num_msgs b)) 0 stride_bytes (line_bufs b) (lens_host b)
    (replicate (Z.to_nat total_bytes) NUL).

(** ** The emitter (lines 102-112 and 459-478) *)

Definition hexdig : list ascii := list_ascii_of_string "0123456789abcdef".

(** [digest_to_hex]: the 64 characters written before the terminating NUL. *)
Definition digest_to_hex (digest : list Z) : list ascii :=
  i ← seq 0 32;
  let v := default 0 (digest !! i) in
  [ default NUL (hexdig !! Z.to_nat (Z.shiftr v 4));
    default NUL (hexdig !! Z.to_nat (Z.land v 15)) ].

(** Lines 463-474: the 32 bytes of the 8 words of slot [k]. *)
Definition digest_bytes (digests_host : list Z) (k : Z) : list Z :=
  j ← seq 0 8;
  let v := default 0 (digests_host !! (Z.to_nat k * 8 + j)%nat) in
  [ Z.land (Z.shiftr v 24) 255; Z.land (Z.shiftr v 16) 255;
    Z.land (Z.shiftr v 8) 255; Z.land v 255 ].

(** Lines 461-478: what the loop appends to the output file. *)
Fixpoint emit_loop (todo : nat) (k : Z) (digests_host : list Z)
    (out : list ascii) : list ascii :=
  match todo with
  | O => out
  | S todo' =>
      let hex := digest_to_hex (digest_bytes digests_host k) in
      emit_loop todo' (to_uint32 (k + 1)) digests_host (out ++ hex ++ [newline])
  end.

Definition emit (digests_host : list Z) (num_msgs : Z) (out : list ascii)
    : list ascii :=
  emit_loop (Z.to_nat num_msgs) 0 digests_host out.

(** ** The process: environment, state and control *)

(** The values [main] binds to the parameters of the kernel (lines
    398-405): [&buf_msgs], [&buf_lens], [&msg_stride] and [&buf_out]. *)
Inductive kernel_arg : Type :=
  | ArgMsgs | ArgLens | ArgMsgStride | ArgOut.

(** The OpenCL calls [main] makes and checks; [SetKernelArg arg value] is
    [clSetKernelArg (kernel, arg, size, value)]. *)
Inductive cl_call : Type :=
  | GetPlatformIDsCount | GetPlatformIDsList | GetDeviceIDsList
  | CreateContext | CreateCommandQueue | CreateProgramWithSource
  | BuildProgram | CreateKernel
  | CreateBufferMsgs | CreateBufferLens | CreateBufferOut
  | SetKernelArg (arg : Z) (value : kernel_arg)
  | EnqueueNDRangeKernel | WaitForEvents | Finish
  | GetEventProfilingInfoStart | GetEventProfilingInfoEnd
  | EnqueueReadBuffer.

(** The host allocations [main] checks. *)
Inductive alloc_site : Type :=
  | AllocBatchMetadata | AllocMsgsBytes | AllocDigestsHost.

(** What the three counting [clGetDeviceIDs] queries of lines 171-178
    answer for one platform (status and [num_devices] afterwards) and
    the status of the listing call of line 188. *)
Record platform : Type := mkPlatform {
  query_gpu : Z * Z;
  query_cpu : Z * Z;
  query_all : Z * Z;
  list_status : Z
}.

(** Everything outside the program. [input_file] is the stream that
    opening the input path gives, [None] when it cannot be opened;
    [output_before] is the content of the output path before the run,
    [None] when no such file exists. [cl_status c i] is the status the call
    [c] returns in batch [i] (0 before the batch loop), the same each time
    the call is made there; [alloc_ok] and [line_copy_ok] likewise for
    [malloc]. *)
Record environment : Type := mkEnv {
  argc : Z;
  input_file : option FILE;
  output_before : option (list ascii);
  output_creatable : bool;
  platforms : list platform;
  kernel_source_readable : bool;
  cl_status : cl_call -> Z -> Z;
  alloc_ok : alloc_site -> Z -> bool;
  line_copy_ok : Z -> Z -> bool
}.

(** What the trace records: the two [fopen], the OpenCL calls, and the
    kernel started by a [clEnqueueNDRangeKernel] that succeeded, with the
    number of lanes and the word stride bound to it. *)
Inductive event : Type :=
  | EvOpenInput
  | EvCreateOutput
  | EvCL (c : cl_call)
  | EvDispatch (global_work_size msg_stride : Z).

Definition accelerator_event (e : event) : bool :=
  match e with
  | EvCL _ | EvDispatch _ _ => true
  | _ => false
  end.

(** The state of a run: the content of the output path, [None] while no
    such file exists, and the external calls in the order made. *)
Record world : Type := mkWorld {
  out_file : option (list ascii);
  trace : list event
}.

Definition proc (A : Type) : Type := world -> step A * world.

Definition ret {A} (a : A) : proc A := fun w => (Go a, w).
Definition exit_with {A} (code : Z) : proc A := fun w => (Exit code, w).
Definition bind {A B} (m : proc A) (k : A -> proc B) : proc B :=
  fun w => match m w with
           | (Go a, w') => k a w'
           | (Exit c, w') => (Exit c, w')
           end.

Notation "x <- m ;; k" := (bind m (fun x => k))
  (at level 100, m at next level, right associativity).
Notation "m ;;; k" := (bind m (fun _ => k))
  (at level 100, right associativity).

Definition log (e : event) : proc unit :=
  fun w => (Go tt, mkWorld (out_file w) (trace w ++ [e])).

(** [fopen (output_path, "wb")]: creates the file or truncates it. *)
Definition create_output : proc unit :=
  fun w => (Go tt, mkWorld (Some []) (trace w ++ [EvCreateOutput])).

(** [fprintf (fout, ...)]: appends to the file. *)
Definition write_output (f : list ascii -> list ascii) : proc unit :=
  fun w => (Go tt, mkWorld (f <$> out_file w) (trace w)).

(** A guard that ends the process with status 1 ([return 1] from [main]
    and [exit (1)] both end it that way). *)
Definition guard (ok : bool) : proc unit :=
  if ok then ret tt else exit_with 1.

(** The call [c] made in batch [i]: it is recorded and answers its
    status. *)
Definition invoke (env : environment) (c : cl_call) (i : Z) : proc Z :=
  log (EvCL c) ;;; ret (cl_status env c i).

(** The macro [CHECK_CL (err, msg)] (lines 30-36):
    [if ((err) != CL_SUCCESS) { fprintf (stderr, ..., (msg), (err)); exit (1); }].
    Its argument [err] is an expression, evaluated for the test and, when
    the test fails, once more for the message. Where the program writes a
    call as the argument (lines 145, 157, 188, 398-427 and 453) a failing
    call is therefore made twice before the process ends; where the
    argument is the variable [err] (lines 216-261 and 376-392) the variable
    is only read twice. *)
Definition CHECK_CL (err : proc Z) : proc unit :=
  status <- err ;;
  if status =? CL_SUCCESS then ret tt
  else (err ;;; exit_with 1).

(** The expression [clSetKernelArg (kernel, arg++, size, value)] of lines
    398-405, from the value [arg] of the variable: the status and the
    variable afterwards. *)
Definition set_kernel_arg (env : environment) (i : Z) (value : kernel_arg)
    (arg : Z) : proc (Z * Z) :=
  status <- invoke env (SetKernelArg arg value) i ;;
  ret (status, arg + 1).

(** The same macro around an expression that changes the variable [arg]:
    the second evaluation starts from the variable as the first left it,
    so the call made again has the next index. *)
Definition CHECK_CL_arg (err : Z -> proc (Z * Z)) (arg : Z) : proc Z :=
  r <- err arg ;;
  if r.1 =? CL_SUCCESS then ret r.2
  else (err r.2 ;;; exit_with 1).

(** Lines 171-179: GPU first, then CPU, then any device; [err_local] and
    [num_devices] after the last query made. *)
Definition no_device (q : Z * Z) : bool :=
  (fst q =? CL_DEVICE_NOT_FOUND) || (snd q =? 0).

Definition count_devices (p : platform) : Z * Z :=
  let q1 := query_gpu p in
  let q2 := if no_device q1 then query_cpu p else q1 in
  if no_device q2 then query_all p else q2.

(** The listing call of line 188, on the platform [p]. *)
Definition list_devices (p : platform) : proc Z :=
  log (EvCL GetDeviceIDsList) ;;; ret (list_status p).

(** Lines 163-196: [true] when a device was chosen. *)
Fixpoint choose_device (ps : list platform) : proc bool :=
  match ps with
  | [] => ret false
  | p :: ps' =>
      let q := count_devices p in
      if negb (fst q =? CL_SUCCESS) || (snd q =? 0)
      then choose_device ps'
      else CHECK_CL (list_devices p) ;;;
           ret true
  end.

(** Lines 143-274, after the two files are open. *)
Definition bootstrap (env : environment) : proc unit :=
  CHECK_CL (invoke env GetPlatformIDsCount 0) ;;;
  guard (negb (Z.of_nat (length (platforms env)) =? 0)) ;;;
  CHECK_CL (invoke env GetPlatformIDsList 0) ;;;
  found <- choose_device (platforms env) ;;
  guard found ;;;
  err <- invoke env CreateContext 0 ;;
  CHECK_CL (ret err) ;;;
  err <- invoke env CreateCommandQueue 0 ;;
  CHECK_CL (ret err) ;;;
  guard (kernel_source_readable env) ;;;
  err <- invoke env CreateProgramWithSource 0 ;;
  CHECK_CL (ret err) ;;;
  err <- invoke env BuildProgram 0 ;;
  (if negb (err =? CL_SUCCESS) then CHECK_CL (ret err) else ret tt) ;;;
  err <- invoke env CreateKernel 0 ;;
  CHECK_CL (ret err) ;;;
  guard (alloc_ok env AllocBatchMetadata 0).

Section Engine.

(** The digest function of the engine: the words of the digest of a
    message. *)
Variable sha256 : list ascii -> list Z.

(** The digest as the 8 entries of a [uint32_t] array. *)
Definition digest_words (msg : list ascii) : list Z :=
  (fun j => to_uint32 (default 0 (sha256 msg !! j))) <$> seq 0 8.

(** Modelled from the spec: the kernel [sha256_wrapper] of
    [sha256_wrapper.cl], which is not among the sources. Section 6 of the
    specification gives its contract: one digest per lane, the digest of
    the bytes [0, len_i) of slot [i], where the slot of lane [i] starts
    [i * msg_stride] 32-bit words into the message buffer; the 8 words go
    to entries [8 i .. 8 i + 7] of the [uint32_t] output buffer. *)
Definition sha256_wrapper (msgs : list ascii) (msg_lens : list Z)
    (msg_stride : Z) (gid : nat) : list Z :=
  let len := default 0 (msg_lens !! gid) in
  let base := Z.of_nat gid * (msg_stride * 4) in
  digest_words (take (Z.to_nat len) (drop (Z.to_nat base) msgs)).

(** [clEnqueueNDRangeKernel] over [global_work_size] lanes followed by
    [clEnqueueReadBuffer]: the content of [digests_host]. *)
Definition run_kernel (msgs : list ascii) (msg_lens : list Z)
    (msg_stride : Z) (global_work_size : Z) : list Z :=
  gid ← seq 0 (Z.to_nat global_work_size);
  sha256_wrapper msgs msg_lens msg_stride gid.

(** Lines 327-509: one batch with at least one record. *)
Definition process_batch (env : environment) (batch_index : Z) (b : batch)
    : proc unit :=
  let stride_bytes := compute_stride (max_len b) in
  let msg_stride := to_uint32 (stride_bytes / 4) in
  guard (alloc_ok env AllocMsgsBytes batch_index) ;;;
  let msgs_bytes := pack b stride_bytes in
  err <- invoke env CreateBufferMsgs batch_index ;;
  CHECK_CL (ret err) ;;;
  err <- invoke env CreateBufferLens batch_index ;;
  CHECK_CL (ret err) ;;;
  err <- invoke env CreateBufferOut batch_index ;;
  CHECK_CL (ret err) ;;;
  let arg := 0 in
  arg <- CHECK_CL_arg (set_kernel_arg env batch_index ArgMsgs) arg ;;
  arg <- CHECK_CL_arg (set_kernel_arg env batch_index ArgLens) arg ;;
  arg <- CHECK_CL_arg (set_kernel_arg env batch_index ArgMsgStride) arg ;;
  arg <- CHECK_CL_arg (set_kernel_arg env batch_index ArgOut) arg ;;
  CHECK_CL (invoke env EnqueueNDRangeKernel batch_index) ;;;
  log (EvDispatch (num_msgs b) msg_stride) ;;;
  CHECK_CL (invoke env WaitForEvents batch_index) ;;;
  CHECK_CL (invoke env Finish batch_index) ;;;
  CHECK_CL (invoke env GetEventProfilingInfoStart batch_index) ;;;
  CHECK_CL (invoke env GetEventProfilingInfoEnd batch_index) ;;;
  guard (alloc_ok env AllocDigestsHost batch_index) ;;;
  CHECK_CL (invoke env EnqueueReadBuffer batch_index) ;;;
  let digests_host :=
    run_kernel msgs_bytes (take (Z.to_nat (num_msgs b)) (lens_host b))
      msg_stride (num_msgs b) in
  write_output (emit digests_host (num_msgs b)).

(** The outer [for (;;)] of lines 285-510. *)
Fixpoint batch_loop (fuel : nat) (env : environment) (max_batch_lines : Z)
    (fin : FILE) (batch_index : Z) : proc unit :=
  match fuel with
  | O => ret tt
  | S fuel' =>
      match accumulate (line_copy_ok env (to_uint32 (batch_index + 1)))
              max_batch_lines fin with
      | Exit c => exit_with c
      | Go b =>
          if num_msgs b =? 0 then ret tt
          else
            let batch_index := to_uint32 (batch_index + 1) in
            process_batch env batch_index b ;;;
            batch_loop fuel' env max_batch_lines (fin_after b) batch_index
      end
  end.

(** [main], with the batch bound as a parameter. Every batch but the last
    consumes at least one byte, so the bytes of the input bound the number
    of batches. *)
Definition main_with (max_batch_lines : Z) (env : environment) : proc Z :=
  guard (argc env =? 3) ;;;
  match input_file env with
  | None => exit_with 1
  | Some fin =>
      log EvOpenInput ;;;
      guard (output_creatable env) ;;;
      create_output ;;;
      bootstrap env ;;;
      batch_loop (S (length (unread fin))) env max_batch_lines fin 0 ;;;
      ret 0
  end.

(** What a run leaves: exit status, output file, trace. *)
Record run : Type := mkRun {
  exit_code : Z;
  output : option (list ascii);
  calls : list event
}.

Definition run_with (max_batch_lines : Z) (env : environment) : run :=
  match main_with max_batch_lines env (mkWorld (output_before env) []) with
  | (Go c, w) => mkRun c (out_file w) (trace w)
  | (Exit c, w) => mkRun c (out_file w) (trace w)
  end.

Definition main (env : environment) : run := run_with MAX_BATCH_LINES env.

End Engine.

(** ** Memory blocks *)

(** A block of memory that [malloc] returns, or an array without
    initialiser; [None] is a byte not written yet. *)
Abbreviation block := (list (option ascii)).

Definition malloc (size : Z) : block := replicate (Z.to_nat size) None.

(** [buf[i] = c]; no result when [i] is not an index of the block. *)
Definition store (buf : block) (i : Z) (c : ascii) : option block :=
  if (0 <=? i) && (i <? Z.of_nat (length buf))
  then Some (<[Z.to_nat i := Some c]> buf)
  else None.

(** The string at the start of a block, as [%s] prints it: the bytes
    before the first NUL; no result when a byte not written, or the end of
    the block, comes first. *)
Fixpoint c_string (buf : block) : option (list ascii) :=
  match buf with
  | Some c :: rest =>
      if Ascii.eqb c NUL then Some [] else cons c <$> c_string rest
  | _ => None
  end.

(** [fread (buf, 1, n, f)] on a stream that delivers [data] before it ends
    or fails: the bytes read, [n] at most, go to the start of the block and
    their number is returned. No result when they do not fit the block. *)
Definition fread (buf : block) (n : Z) (data : list ascii)
    : option (block * Z) :=
  let got := take (Z.to_nat n) data in
  if Z.of_nat (length got) <=? Z.of_nat (length buf)
  then Some ((Some <$> got) ++ drop (length got) buf, Z.of_nat (length got))
  else None.

(** ** Reading a file whole: [read_text_file] (lines 42-78) *)

(** What the C library answers while a file is read whole: whether [fopen]
    and [fseek] succeed, what [ftell] reports at the end of the file (a
    [long]), whether [malloc] succeeds, and the bytes the stream delivers
    from its start before it ends or fails. *)
Record whole_file : Type := mkWholeFile {
  opens : bool;
  seek_ok : bool;
  tell : Z;
  malloc_ok : bool;
  delivered : list ascii
}.

Definition LONG_MAX : Z := 2 ^ 63 - 1.

(** The block returned and the size stored through [out_size]; [Exit 1]
    where the function calls [exit (1)]; no result if an access falls
    outside the block. *)
Definition read_text_file (f : whole_file) : option (step (block * Z)) :=
  if negb (opens f) then Some (Exit 1)
  else if negb (seek_ok f) then Some (Exit 1)
  else
    let len := tell f in
    if len <? 0 then Some (Exit 1)
    else if negb (malloc_ok f) then Some (Exit 1)
    else
      let buf := malloc (to_size_t (to_size_t len + 1)) in
      '(buf, nread) ← fread buf (to_size_t len) (delivered f);
      buf ← store buf nread NUL;
      Some (Go (buf, nread)).

(** ** Reporting the device: [print_platform_device_info] (lines 81-99) *)

(** What [clGetPlatformInfo] or [clGetDeviceInfo] answers: the status, the
    value and the size stored through [param_value_size_ret]. *)
Record info_reply : Type := mkReply {
  reply_status : Z;
  reply_value : list ascii;
  reply_size : Z
}.

(** The call with [buf] and [&sz]: on success the value goes to the start
    of [buf], as far as [buf] reaches, and the size to [sz]; on failure
    nothing is known of the content of [buf]. *)
Definition get_info (r : info_reply) (buf : block) (sz : Z)
    : Z * block * Z :=
  if reply_status r =? CL_SUCCESS
  then
    let v := take (length buf) (reply_value r) in
    (reply_status r, (Some <$> v) ++ drop (length v) buf,
     to_size_t (reply_size r))
  else (reply_status r, malloc (Z.of_nat (length buf)), sz).

(** One of the two [if] statements: [st] is [buf], [sz] and what was
    written to [stderr] so far. *)
Definition print_info (label : list ascii) (r : info_reply)
    (st : block * Z * list ascii) : option (block * Z * list ascii) :=
  let '(buf, sz, err) := st in
  let '(status, buf, sz) := get_info r buf sz in
  if status =? CL_SUCCESS
  then
    let sz := if 256 <=? sz then 256 - 1 else sz in
    buf ← store buf sz NUL;
    name ← c_string buf;
    Some (buf, sz, err ++ label ++ name ++ [newline])
  else Some (buf, sz, err).

(** What the function writes to [stderr]; no result if it reads a byte not
    written or accesses [buf] outside its 256 bytes. *)
Definition print_platform_device_info (platform_reply device_reply : info_reply)
    : option (list ascii) :=
  st ← print_info (list_ascii_of_string "[OpenCL] Platform: ") platform_reply
         (malloc 256, 0, []);
  st ← print_info (list_ascii_of_string "[OpenCL] Device  : ") device_reply st;
  Some st.2.

(** ** The memory accesses of the packer (lines 358-367) *)

(** [memcpy (dst + off, src, n)] with its bounds: no result when it reads
    past the end of [src] or writes past the end of [dst]. *)
Definition memcpy_checked (dst : list ascii) (off : Z) (src : list ascii)
    (n : Z) : option (list ascii) :=
  if (n <=? Z.of_nat (length src)) && (off + n <=? Z.of_nat (length dst))
  then Some (memcpy dst off src n)
  else None.

(** The loop of lines 358-367 again, with every access checked: the reads
    of [lens_host[k]] and [line_bufs[k]] and the [memcpy]. *)
Fixpoint pack_loop_checked (todo : nat) (k : Z) (stride_bytes : Z)
    (line_bufs : list (list ascii)) (lens_host : list Z)
    (msgs_bytes : list ascii) : option (list ascii) :=
  match todo with
  | O => Some msgs_bytes
  | S todo' =>
      len_k ← lens_host !! Z.to_nat k;
      msgs_bytes' ←
        (if 0 <? len_k
         then src ← line_bufs !! Z.to_nat k;
              memcpy_checked msgs_bytes (to_size_t (k * stride_bytes)) src len_k
         else Some msgs_bytes);
      pack_loop_checked todo' (to_uint32 (k + 1)) stride_bytes line_bufs
        lens_host msgs_bytes'
  end.

Definition pack_checked (b : batch) (stride_bytes : Z) : option (list ascii) :=
  let total_bytes := to_size_t (num_msgs b * stride_bytes) in
  pack_loop_checked (Z.to_nat (num_msgs b)) 0 stride_bytes (line_bufs b)
    (lens_host b) (replicate (Z.to_nat total_bytes) NUL).

(** ** The single-shot driver (sha256-host.c) *)

(** [main] of [src/third_party/hashcat_opencl/sha256-host.c] hashes a whole
    file as one message. Its [read_text_file] (lines 22-58) is the one
    above. Allocations the program does not check are taken to succeed. *)
Module SingleShot.

(** [read_binary_file] (lines 61-96): the block and the size stored
    through [out_size]. *)
Definition read_binary_file (f : whole_file) : option (step (block * Z)) :=
  if negb (opens f) then Some (Exit 1)
  else if negb (seek_ok f) then Some (Exit 1)
  else
    let len := tell f in
    if len <? 0 then Some (Exit 1)
    else if negb (malloc_ok f) then Some (Exit 1)
    else
      let buf := malloc (to_size_t len) in
      '(buf, nread) ← fread buf (to_size_t len) (delivered f);
      Some (Go (buf, nread)).

(** The bytes of the block at the indices below [n], those written. *)
Definition block_bytes (buf : block) (n : Z) : list ascii :=
  omap id (take (Z.to_nat n) buf).

(** [(uint32_t) file_data[i]]. *)
Definition byte_at (file_data : list ascii) (i : Z) : Z :=
  Z.of_nat (nat_of_ascii (default NUL (file_data !! Z.to_nat i))).

(** Lines 211-219: the word [msgs_host[i]]. *)
Definition pack_word (file_data : list ascii) (file_size : Z) (i : Z) : Z :=
  let base := to_size_t (i * 4) in
  let v := 0 in
  let v := if to_size_t (base + 0) <? file_size
           then Z.lor v (to_uint32 (Z.shiftl (byte_at file_data (to_size_t (base + 0))) 24))
           else v in
  let v := if to_size_t (base + 1) <? file_size
           then Z.lor v (to_uint32 (Z.shiftl (byte_at file_data (to_size_t (base + 1))) 16))
           else v in
  let v := if to_size_t (base + 2) <? file_size
           then Z.lor v (to_uint32 (Z.shiftl (byte_at file_data (to_size_t (base + 2))) 8))
           else v in
  let v := if to_size_t (base + 3) <? file_size
           then Z.lor v (to_uint32 (Z.shiftl (byte_at file_data (to_size_t (base + 3))) 0))
           else v in
  v.

(** Lines 195 and 198. *)
Definition len_bytes_of (file_size : Z) : Z := to_uint32 file_size.

Definition msg_stride_of (len_bytes : Z) : Z := to_uint32 (len_bytes + 3) / 4.

(** Lines 200-220: the array [msgs_host] after the loop. *)
Definition pack_words (file_data : list ascii) (file_size msg_stride : Z)
    : list Z :=
  (fun i => pack_word file_data file_size (Z.of_nat i))
    <$> seq 0 (Z.to_nat msg_stride).

(** The digits [%x] prints for an [unsigned], the most significant first:
    no leading zero, one digit for 0. An [unsigned] has 8 digits at most. *)
Fixpoint hex_digits (fuel : nat) (v : Z) : list ascii :=
  match fuel with
  | O => []
  | S fuel' =>
      (if v / 16 =? 0 then [] else hex_digits fuel' (v / 16))
      ++ [default NUL (hexdig !! Z.to_nat (v mod 16))]
  end.

(** [%02x]: two characters at least, zeros added on the left. *)
Definition printf_02x (v : Z) : list ascii :=
  let ds := hex_digits 8 v in
  replicate (2 - length ds) "0"%char ++ ds.

(** [sprintf (buf + p, ...)] producing the characters [s]: they are
    written with a NUL after them. *)
Definition sprintf (buf : block) (p : Z) (s : list ascii) : option block :=
  if (0 <=? p) && (p + Z.of_nat (length s) + 1 <=? Z.of_nat (length buf))
  then Some (take (Z.to_nat p) buf ++ (Some <$> s ++ [NUL])
             ++ drop (Z.to_nat p + length s + 1) buf)
  else None.

(** Lines 279-289, with [todo] iterations left. *)
Fixpoint hex_loop (todo : nat) (i : Z) (digests_host : list Z) (hex : block)
    (p : Z) : option block :=
  match todo with
  | O => Some hex
  | S todo' =>
      let v := default 0 (digests_host !! Z.to_nat i) in
      hex ← sprintf hex p
              (printf_02x (Z.land (Z.shiftr v 24) 255)
               ++ printf_02x (Z.land (Z.shiftr v 16) 255)
               ++ printf_02x (Z.land (Z.shiftr v 8) 255)
               ++ printf_02x (Z.land v 255));
      hex_loop todo' (i + 1) digests_host hex (p + 8)
  end.

(** Lines 276-290 and the [%s] of lines 301 and 306: the string in [hex]. *)
Definition hex_string (digests_host : list Z) : option (list ascii) :=
  hex ← hex_loop 8 0 digests_host (malloc (64 + 1)) 0;
  hex ← store hex 64 NUL;
  c_string hex.

(** The OpenCL calls whose status [main] checks; [SetKernelArg arg value]
    is [clSetKernelArg (kernel, arg, size, value)], the value being
    [&msgs_buf], [&lens_buf], [&msg_stride] or [&digests_buf]. *)
Inductive call : Type :=
  | GetPlatformIDsCount | GetPlatformIDsList
  | GetDeviceIDsCount | GetDeviceIDsList
  | CreateContext | CreateCommandQueue | CreateProgramWithSource
  | BuildProgram | CreateKernel
  | CreateBufferMsgs | CreateBufferLens | CreateBufferDigests
  | SetKernelArg (arg : Z) (value : kernel_arg)
  | EnqueueNDRangeKernel | Finish | EnqueueReadBuffer.

(** Everything outside the program: the arguments, what reading the input
    path and the kernel source answers, the counts and the status of the
    OpenCL calls (the same each time a call is made), whether [calloc]
    succeeds, the words the device leaves in the digest buffer, and the
    output path. *)
Record environment : Type := mkEnv {
  argc : Z;
  input_path : list ascii;
  input : whole_file;
  num_platforms : Z;
  num_devices : Z;
  kernel_source : whole_file;
  cl_status : call -> Z;
  calloc_ok : bool;
  readback : list Z;
  output_before : option (list ascii);
  output_creatable : bool
}.

(** The state of a run: the content of the output path, what was written
    to [stdout], and the OpenCL calls in the order made. *)
Record state : Type := mkState {
  out_file : option (list ascii);
  stdout : list ascii;
  trace : list call
}.

(** A step of the process returns, ends the process, or has no defined
    behaviour ([None]). *)
Definition proc (A : Type) : Type := state -> option (step A * state).

Definition ret {A} (a : A) : proc A := fun s => Some (Go a, s).
Definition exit_with {A} (code : Z) : proc A := fun s => Some (Exit code, s).
Definition bind {A B} (m : proc A) (k : A -> proc B) : proc B :=
  fun s => match m s with
           | Some (Go a, s') => k a s'
           | Some (Exit c, s') => Some (Exit c, s')
           | None => None
           end.

Declare Scope single_shot_scope.
Notation "x <- m ;; k" := (bind m (fun x => k)) : single_shot_scope.
Notation "m ;;; k" := (bind m (fun _ => k)) : single_shot_scope.
Local Open Scope single_shot_scope.

(** A function of the program that touches neither the output nor the
    trace. *)
Definition call_fn {A} (r : option (step A)) : proc A :=
  fun s => match r with
           | Some x => Some (x, s)
           | None => None
           end.

Definition guard (ok : bool) : proc unit :=
  if ok then ret tt else exit_with 1.

Definition log (c : call) : proc unit :=
  fun s => Some (Go tt, mkState (out_file s) (stdout s) (trace s ++ [c])).

(** The call [c]: it is recorded and answers its status. *)
Definition invoke (env : environment) (c : call) : proc Z :=
  log c ;;; ret (cl_status env c).

(** The macro [CHECK_CL (err, msg)] (lines 13-19), the same as in the batch
    driver: the expression [err] is evaluated for the test and, when the
    test fails, once more for the message. A failing call written as the
    argument (lines 124-150 and 255-270) is made twice before the process
    ends; the variable [err] (lines 157-192 and 235-249) is only read
    twice. *)
Definition CHECK_CL (err : proc Z) : proc unit :=
  status <- err ;;
  if status =? CL_SUCCESS then ret tt
  else (err ;;; exit_with 1).

(** The expression [clSetKernelArg (kernel, arg++, size, value)] of lines
    255-258: the status and the variable [arg] afterwards. *)
Definition set_kernel_arg (env : environment) (value : kernel_arg) (arg : Z)
    : proc (Z * Z) :=
  status <- invoke env (SetKernelArg arg value) ;;
  ret (status, arg + 1).

(** The macro around an expression that changes [arg]: the call made
    again has the next index. *)
Definition CHECK_CL_arg (err : Z -> proc (Z * Z)) (arg : Z) : proc Z :=
  r <- err arg ;;
  if r.1 =? CL_SUCCESS then ret r.2
  else (err r.2 ;;; exit_with 1).

(** Lines 293-303: the output is written if the path can be opened; if not
    the program goes on. *)
Definition write_result (env : environment) (hex : list ascii) : proc unit :=
  fun s => Some (Go tt,
                 mkState (if output_creatable env then Some (hex ++ [newline])
                          else out_file s)
                         (stdout s) (trace s)).

(** Line 306. *)
Definition print_result (env : environment) (hex : list ascii) : proc unit :=
  fun s => Some (Go tt,
                 mkState (out_file s)
                         (stdout s ++ list_ascii_of_string "SHA256("
                          ++ input_path env ++ list_ascii_of_string ") = "
                          ++ hex ++ [newline])
                         (trace s)).

(** [main] (lines 98-318). *)
Definition main (env : environment) : proc Z :=
  guard (argc env =? 3) ;;;
  file <- call_fn (read_binary_file (input env)) ;;
  let file_size := file.2 in
  let file_data := block_bytes file.1 file_size in
  guard (negb (file_size =? 0)) ;;;
  CHECK_CL (invoke env GetPlatformIDsCount) ;;;
  guard (negb (num_platforms env =? 0)) ;;;
  CHECK_CL (invoke env GetPlatformIDsList) ;;;
  CHECK_CL (invoke env GetDeviceIDsCount) ;;;
  guard (negb (num_devices env =? 0)) ;;;
  CHECK_CL (invoke env GetDeviceIDsList) ;;;
  err <- invoke env CreateContext ;;
  CHECK_CL (ret err) ;;;
  err <- invoke env CreateCommandQueue ;;
  CHECK_CL (ret err) ;;;
  src <- call_fn (read_text_file (kernel_source env)) ;;
  err <- invoke env CreateProgramWithSource ;;
  CHECK_CL (ret err) ;;;
  err <- invoke env BuildProgram ;;
  (if negb (err =? CL_SUCCESS) then CHECK_CL (ret err) else ret tt) ;;;
  err <- invoke env CreateKernel ;;
  CHECK_CL (ret err) ;;;
  let len_bytes := len_bytes_of file_size in
  let msg_stride := msg_stride_of len_bytes in
  guard (calloc_ok env) ;;;
  let msgs_host := pack_words file_data file_size msg_stride in
  err <- invoke env CreateBufferMsgs ;;
  CHECK_CL (ret err) ;;;
  err <- invoke env CreateBufferLens ;;
  CHECK_CL (ret err) ;;;
  err <- invoke env CreateBufferDigests ;;
  CHECK_CL (ret err) ;;;
  let arg := 0 in
  arg <- CHECK_CL_arg (set_kernel_arg env ArgMsgs) arg ;;
  arg <- CHECK_CL_arg (set_kernel_arg env ArgLens) arg ;;
  arg <- CHECK_CL_arg (set_kernel_arg env ArgMsgStride) arg ;;
  arg <- CHECK_CL_arg (set_kernel_arg env ArgOut) arg ;;
  CHECK_CL (invoke env EnqueueNDRangeKernel) ;;;
  CHECK_CL (invoke env Finish) ;;;
  CHECK_CL (invoke env EnqueueReadBuffer) ;;;
  let digests_host :=
    (fun j => to_uint32 (default 0 (readback env !! j))) <$> seq 0 8 in
  hex <- call_fn (Go <$> hex_string digests_host) ;;
  write_result env hex ;;;
  print_result env hex ;;;
  ret 0.

(** What a run leaves: exit status, output file, [stdout], OpenCL calls;
    [None] if the behaviour of the run is not defined. *)
Record run : Type := mkRun {
  exit_code : Z;
  output : option (list ascii);
  printed : list ascii;
  calls : list call
}.

Definition run_main (env : environment) : option run :=
  match main env (mkState (output_before env) [] []) with
  | Some (Go c, s) => Some (mkRun c (out_file s) (stdout s) (trace s))
  | Some (Exit c, s) => Some (mkRun c (out_file s) (stdout s) (trace s))
  | None => None
  end.

End SingleShot.

(** ** Reference notions from the specification *)

(** The records of an input: the bytes between delimiters; a delimiter
    right before the end of the input does not open a further record. *)
Fixpoint records (data : list ascii) : list (list ascii) :=
  match data with
  | [] => []
  | c :: rest =>
      if Ascii.eqb c newline then [] :: records rest
      else match records rest with
           | [] => [[c]]
           | r :: rs => (c :: r) :: rs
           end
  end.

(** A line without its trailing delimiter, if it has one. *)
Definition chomp (line : list ascii) : list ascii :=
  match last line with
  | Some c => if Ascii.eqb c newline then take (length line - 1)%nat line else line
  | None => line
  end.

(** [align_up x a]: the least multiple of [a] that is at least [x]. *)
Definition align_up (x a : Z) : Z := (x + a - 1) / a * a.

(** One output line for a digest given as 32-bit words, written from the
    specification: each word as 8 lowercase hexadecimal digits, most
    significant first. *)
Definition hex_digit (d : Z) : ascii :=
  if d <? 10 then ascii_of_nat (48 + Z.to_nat d)
  else ascii_of_nat (87 + Z.to_nat d).

Definition hex_of_word (v : Z) : list ascii :=
  (fun i => hex_digit ((v / 16 ^ (7 - Z.of_nat i)) mod 16)) <$> seq 0 8.

Definition hex_line (words : list Z) : list ascii :=
  (j ← seq 0 8; hex_of_word (default 0 (words !! j))) ++ [newline].

(** ** Auxiliary notions for the statements *)

Definition record_len (r : list ascii) : Z := Z.of_nat (length r).

(** The length array of a batch of records. *)
Definition lens_of (recs : list (list ascii)) : list Z :=
  to_uint32 ∘ record_len <$> recs.

(** The bytes of a record that its length array entry covers. *)
Definition stored (r : list ascii) : list ascii :=
  take (Z.to_nat (to_uint32 (record_len r))) r.

(** One slot of the packed buffer: the stored bytes, then zeros. *)
Definition slot (stride_bytes : Z) (r : list ascii) : list ascii :=
  stored r ++ replicate (Z.to_nat stride_bytes - length (stored r)) NUL.

Definition byte_hex (v : Z) : list ascii :=
  [ default NUL (hexdig !! Z.to_nat (Z.shiftr v 4));
    default NUL (hexdig !! Z.to_nat (Z.land v 15)) ].

Definition word_bytes (v : Z) : list Z :=
  [ Z.land (Z.shiftr v 24) 255; Z.land (Z.shiftr v 16) 255;
    Z.land (Z.shiftr v 8) 255; Z.land v 255 ].

(** The 8 words of slot [k] of the digest buffer. *)
Definition slot_words (digests_host : list Z) (k : nat) : list Z :=
  (fun j => default 0 (digests_host !! (k * 8 + j)%nat)) <$> seq 0 8.

Definition lowercase_hex (c : ascii) : Prop :=
  c ∈ list_ascii_of_string "0123456789abcdef".

Definition usable (p : platform) : bool :=
  let q := count_devices p in (fst q =? CL_SUCCESS) && negb (snd q =? 0).

Fixpoint first_usable (ps : list platform) : option platform :=
  match ps with
  | [] => None
  | p :: ps' => if usable p then Some p else first_usable ps'
  end.

(** The environment of a run that meets no failure: two arguments, an
    output path that can be created, a platform with a device, a readable
    kernel source, and every OpenCL call and allocation succeeding. The
    input file is left open: the run may start from any stream. *)
Record faultless (env : environment) : Prop := mkFaultless {
  fl_argc : argc env = 3;
  fl_output : output_creatable env = true;
  fl_device : exists p, first_usable (platforms env) = Some p
                        /\ list_status p = CL_SUCCESS;
  fl_source : kernel_source_readable env = true;
  fl_cl : forall c i, cl_status env c i = CL_SUCCESS;
  fl_alloc : forall s i, alloc_ok env s i = true;
  fl_copy : forall i k, line_copy_ok env i k = true
}.

Definition bootstrap_events : list event :=
  [ EvCL GetPlatformIDsCount; EvCL GetPlatformIDsList; EvCL GetDeviceIDsList;
    EvCL CreateContext; EvCL CreateCommandQueue; EvCL CreateProgramWithSource;
    EvCL BuildProgram; EvCL CreateKernel ].

Definition batch_events (n msg_stride : Z) : list event :=
  [ EvCL CreateBufferMsgs; EvCL CreateBufferLens; EvCL CreateBufferOut;
    EvCL (SetKernelArg 0 ArgMsgs); EvCL (SetKernelArg 1 ArgLens);
    EvCL (SetKernelArg 2 ArgMsgStride); EvCL (SetKernelArg 3 ArgOut);
    EvCL EnqueueNDRangeKernel; EvDispatch n msg_stride;
    EvCL WaitForEvents; EvCL Finish; EvCL GetEventProfilingInfoStart;
    EvCL GetEventProfilingInfoEnd; EvCL EnqueueReadBuffer ].

(** The sizes of the dispatches of a trace, in order. *)
Definition dispatches (t : list event) : list Z :=
  omap (fun e => match e with EvDispatch n _ => Some n | _ => None end) t.

(** The dispatch sizes of an input of [n] records: full batches, then
    the remainder if there is one. *)
Definition expected_dispatches (max_batch_lines n : Z) : list Z :=
  replicate (Z.to_nat (n / max_batch_lines)) max_batch_lines
  ++ (if n mod max_batch_lines =? 0 then [] else [n mod max_batch_lines]).

(** The output line of a record: its digest over the bytes its length
    array entry covers. *)
Definition digest_line (sha256 : list ascii -> list Z) (r : list ascii)
    : list ascii :=
  hex_line (digest_words sha256 (stored r)).

(** No record is longer than [bound]. *)
Definition within (bound : Z) (recs : list (list ascii)) : Prop :=
  Forall (fun r => record_len r <= bound) recs.

(** The batch the accumulator builds from the records [recs]. *)
Definition batch_of (fin : FILE) (recs : list (list ascii)) : batch :=
  mkBatch fin (Z.of_nat (length recs))
    (Z.max 0 (Z.of_nat (max_list (length <$> recs)))) recs (lens_of recs).

(** What lines 327-478 append to the output for the batch [b] when no call
    fails. *)
Definition dispatch_lines (sha256 : list ascii -> list Z) (b : batch)
    (out : list ascii) : list ascii :=
  emit (run_kernel sha256 (pack b (compute_stride (max_len b)))
          (take (Z.to_nat (num_msgs b)) (lens_host b))
          (to_uint32 (compute_stride (max_len b) / 4)) (num_msgs b))
    (num_msgs b) out.

(** The output line the specification asks for a record: the digest of
    its bytes, in hexadecimal. *)
Definition record_line (sha256 : list ascii -> list Z) (r : list ascii)
    : list ascii :=
  hex_line (digest_words sha256 r).

(** The number of delimiters in a byte sequence. *)
Fixpoint count_newlines (l : list ascii) : nat :=
  match l with
  | [] => 0
  | c :: l' => (if Ascii.eqb c newline then 1 else 0) + count_newlines l'
  end.

(** The number of lines of an input: one per delimiter, and one more for
    a last line that no delimiter ends. *)
Definition line_count (data : list ascii) : nat :=
  count_newlines data +
  match last data with
  | Some c => if Ascii.eqb c newline then 0 else 1
  | None => 0
  end.

(** The value of a hexadecimal digit and of a string of them, most
    significant digit first. *)
Definition digit_value (c : ascii) : Z :=
  let n := Z.of_nat (nat_of_ascii c) in
  if n <? 58 then n - 48 else n - 87.

Definition word_of_hex (hex : list ascii) : Z :=
  fold_left (fun acc c => acc * 16 + digit_value c) hex 0.

(** ** Sample runs *)

(** A stand-in for the digest function: 8 words that depend on the
    message. *)
Definition toy_digest (msg : list ascii) : list Z :=
  let sum := fold_right (fun c acc => Z.of_nat (nat_of_ascii c) + acc) 0 msg in
  [ Z.of_nat (length msg); sum; 19088743; 2309737967; 0; 4294967295;
    sum * sum; 3735928559 ].

Definition gpu_platform : platform :=
  mkPlatform (CL_SUCCESS, 1) (CL_DEVICE_NOT_FOUND, 0) (CL_SUCCESS, 1)
    CL_SUCCESS.

(** An environment in which every call succeeds, reading [fin]. *)
Definition sample_env (fin : FILE) : environment :=
  mkEnv 3 (Some fin) None true [gpu_platform] true
    (fun _ _ => CL_SUCCESS) (fun _ _ => true) (fun _ _ => true).

(** The lines "abc", "" and "hello". *)
Definition sample_input : list ascii :=
  list_ascii_of_string "abc" ++ [newline; newline]
  ++ list_ascii_of_string "hello" ++ [newline].

Definition sample_file : FILE := mkFILE sample_input false.

(** A line of 2^32 bytes without delimiter, as the only content of a file. *)
Definition huge_line : list ascii := replicate (Z.to_nat (2 ^ 32)) "a"%char.

Definition huge_file : FILE := mkFILE huge_line false.

(** A line of 2^34 bytes followed by the line "abc": the stride of a batch
    that holds the first line no longer fits the 32-bit word count handed
    to the kernel. *)
Definition long_line : list ascii := replicate (Z.to_nat (2 ^ 34)) "a"%char.

Definition long_then_abc : FILE :=
  mkFILE (long_line ++ [newline] ++ list_ascii_of_string "abc" ++ [newline])
    false.

(** A stream on which the first read fails. *)
Definition unreadable_file : FILE := mkFILE [] true.

(** The same bytes, ending in a read error or at end of file. *)
Definition with_read_error (e : bool) (fin : FILE) : FILE :=
  mkFILE (unread fin) e.

(** The same environment with another answer to opening the input. *)
Definition with_input (env : environment) (o : option FILE) : environment :=
  mkEnv (argc env) o (output_before env) (output_creatable env)
    (platforms env) (kernel_source_readable env) (cl_status env)
    (alloc_ok env) (line_copy_ok env).

Definition batch_with_read_error (e : bool) (b : batch) : batch :=
  mkBatch (with_read_error e (fin_after b)) (num_msgs b) (max_len b)
    (line_bufs b) (lens_host b).

Definition step_map {A B} (f : A -> B) (s : step A) : step B :=
  match s with
  | Go a => Go (f a)
  | Exit c => Exit c
  end.

(** No dispatch over zero lanes. *)
Definition nonempty_dispatch (e : event) : Prop :=
  match e with
  | EvDispatch n _ => 0 < n
  | _ => True
  end.

(** A step of the process that leaves the output file alone, extends the
    trace, by no empty dispatch, and can only end the process with
    status 1. *)
Definition quiet {A} (m : proc A) : Prop :=
  forall w, exists s t,
    m w = (s, mkWorld (out_file w) (trace w ++ t))
    /\ Forall nonempty_dispatch t
    /\ (forall c, s = Exit c -> c = 1).

(** A step of the process that neither removes the output file nor
    shortens the trace, adds no empty dispatch and can only end the
    process with status 1. *)
Definition steady {A} (m : proc A) : Prop :=
  forall w, exists s f t,
    m w = (s, mkWorld (f <$> out_file w) (trace w ++ t))
    /\ Forall nonempty_dispatch t
    /\ (forall c, s = Exit c -> c = 1).

(** A record of 130 bytes and one of 3. *)
Definition stride_input : list ascii :=
  replicate 130 "a"%char ++ [newline] ++ list_ascii_of_string "abc"
  ++ [newline].

Definition stride_file : FILE := mkFILE stride_input false.

Definition stride_batch : batch :=
  batch_of (mkFILE [] false)
    [replicate 130 "a"%char; list_ascii_of_string "abc"].

(** Two slots of a digest buffer. *)
Definition sample_digests : list Z := toy_digest [] ++ toy_digest [newline].

(** The words of SHA-256 of "abc" (FIPS 180-4, appendix B.1). *)
Definition abc_digest : list Z :=
  [ 0xba7816bf; 0x8f01cfea; 0x414140de; 0x5dae2223;
    0xb00361a3; 0x96177a9c; 0xb410ff61; 0xf20015ad ].

(** ** Auxiliary notions for the further properties *)

(** Every check of [read_text_file], or of [read_binary_file], passes. *)
Definition readable (f : whole_file) : bool :=
  opens f && seek_ok f && negb (tell f <? 0) && malloc_ok f.

(** The bytes before the first NUL. *)
Fixpoint until_nul (l : list ascii) : list ascii :=
  match l with
  | [] => []
  | c :: rest => if Ascii.eqb c NUL then [] else c :: until_nul rest
  end.

(** A reply as the OpenCL specification describes it for a call that is
    given 256 bytes: on success the size reported is the size of the value,
    and the value fits. *)
Definition well_formed (r : info_reply) : Prop :=
  reply_status r = CL_SUCCESS ->
  reply_size r = Z.of_nat (length (reply_value r)) /\ reply_size r <= 256.

(** The line reported for a reply: the label and the name, cut at its
    first NUL and at 255 bytes; nothing for a call that failed. *)
Definition info_line (label : string) (r : info_reply) : list ascii :=
  if reply_status r =? CL_SUCCESS
  then list_ascii_of_string label ++ until_nul (take 255 (reply_value r))
       ++ [newline]
  else [].

(** What the macro [CHECK_CL] calls once more when the call of the event
    [e], written as its argument, has failed: the same call, with the next
    index where the argument increments [arg]; nothing where the status
    goes through the variable [err]. *)
Definition called_again (e : event) : list event :=
  match e with
  | EvCL (SetKernelArg arg value) => [EvCL (SetKernelArg (arg + 1) value)]
  | EvCL (GetPlatformIDsCount | GetPlatformIDsList | GetDeviceIDsList
         | EnqueueNDRangeKernel | WaitForEvents | Finish
         | GetEventProfilingInfoStart | GetEventProfilingInfoEnd
         | EnqueueReadBuffer) => [e]
  | _ => []
  end.


(** The trace [t] of a sequence of calls [all] that was cut short, or not:
    a beginning of [all], followed by the call made again when the last
    call of that beginning failed inside the macro. *)
Definition cut_short {E} (again : E -> list E) (all t : list E) : Prop :=
  t `prefix_of` all
  \/ exists before e,
       (before ++ [e]) `prefix_of` all /\ t = before ++ e :: again e.

(** The calls of one batch, for its lane count and word stride. *)
Definition batch_calls (d : Z * Z) : list event := batch_events d.1 d.2.

(** Records written back as lines: each followed by a delimiter. *)
Definition terminated (recs : list (list ascii)) : list ascii :=
  recs ≫= (fun r => r ++ [newline]).

Definition byte_value (c : ascii) : Z := Z.of_nat (nat_of_ascii c).

(** The eight characters [sprintf] produces for one word (lines 283-287
    of sha256-host.c). *)
Definition word_chunk (v : Z) : list ascii :=
  SingleShot.printf_02x (Z.land (Z.shiftr v 24) 255)
  ++ SingleShot.printf_02x (Z.land (Z.shiftr v 16) 255)
  ++ SingleShot.printf_02x (Z.land (Z.shiftr v 8) 255)
  ++ SingleShot.printf_02x (Z.land v 255).

(** The OpenCL calls of the single-shot driver, in the order of [main]. *)
Definition single_shot_calls : list SingleShot.call :=
  [ SingleShot.GetPlatformIDsCount; SingleShot.GetPlatformIDsList;
    SingleShot.GetDeviceIDsCount; SingleShot.GetDeviceIDsList;
    SingleShot.CreateContext; SingleShot.CreateCommandQueue;
    SingleShot.CreateProgramWithSource; SingleShot.BuildProgram;
    SingleShot.CreateKernel; SingleShot.CreateBufferMsgs;
    SingleShot.CreateBufferLens; SingleShot.CreateBufferDigests;
    SingleShot.SetKernelArg 0 ArgMsgs; SingleShot.SetKernelArg 1 ArgLens;
    SingleShot.SetKernelArg 2 ArgMsgStride; SingleShot.SetKernelArg 3 ArgOut;
    SingleShot.EnqueueNDRangeKernel; SingleShot.Finish;
    SingleShot.EnqueueReadBuffer ].


(** A kernel source of which [ftell] reports 8 bytes and [fread] delivers 6. *)
Definition sample_source : whole_file :=
  mkWholeFile true true 8 true (list_ascii_of_string "kernel").

(** A platform that reports its name and a device query that fails. *)
Definition sample_platform_reply : info_reply :=
  mkReply CL_SUCCESS (list_ascii_of_string "Portable CL" ++ [NUL]) 12.

Definition sample_device_reply : info_reply := mkReply (-30) [] 0.

(** An environment in which every OpenCL call of the second batch fails. *)
Definition second_batch_fails (fin : FILE) : environment :=
  mkEnv 3 (Some fin) None true [gpu_platform] true
    (fun _ i => if i =? 2 then -5 else CL_SUCCESS)
    (fun _ _ => true) (fun _ _ => true).

(** The first batch of [sample_file] for a bound of 2. *)
Definition sample_batch : batch :=
  mkBatch (mkFILE (list_ascii_of_string "hello" ++ [newline]) false)
    2 3 [list_ascii_of_string "abc"; []] [3; 0].

(** An environment of the single-shot driver in which every call succeeds,
    for an input that delivers [data]. *)
Definition single_shot_env (data : list ascii) : SingleShot.environment :=
  SingleShot.mkEnv 3 (list_ascii_of_string "in.txt")
    (mkWholeFile true true (Z.of_nat (length data)) true data)
    1 1 sample_source (fun _ => CL_SUCCESS) true abc_digest None true.

(** Environments in which one call fails: the read-back of every batch, the
    binding of the first kernel parameter, the listing of the devices. *)
Definition read_back_fails (fin : FILE) : environment :=
  mkEnv 3 (Some fin) None true [gpu_platform] true
    (fun c _ => match c with EnqueueReadBuffer => -5 | _ => CL_SUCCESS end)
    (fun _ _ => true) (fun _ _ => true).

Definition first_argument_fails (fin : FILE) : environment :=
  mkEnv 3 (Some fin) None true [gpu_platform] true
    (fun c _ => match c with
                | SetKernelArg arg _ => if arg =? 0 then -5 else CL_SUCCESS
                | _ => CL_SUCCESS
                end)
    (fun _ _ => true) (fun _ _ => true).

Definition listing_fails (fin : FILE) : environment :=
  mkEnv 3 (Some fin) None true
    [mkPlatform (CL_SUCCESS, 1) (CL_DEVICE_NOT_FOUND, 0) (CL_SUCCESS, 1) (-1)]
    true (fun _ _ => CL_SUCCESS) (fun _ _ => true) (fun _ _ => true).

(** The single-shot driver with a failing [clFinish]. *)
Definition finish_fails (data : list ascii) : SingleShot.environment :=
  SingleShot.mkEnv 3 (list_ascii_of_string "in.txt")
    (mkWholeFile true true (Z.of_nat (length data)) true data)
    1 1 sample_source
    (fun c => match c with SingleShot.Finish => -5 | _ => CL_SUCCESS end)
    true abc_digest None true.

(** ** Machine arithmetic *)

Lemma to_uint32_small z : 0 <= z < 2 ^ 32 -> to_uint32 z = z.
Proof. intros H. unfold to_uint32. apply Z.mod_small. exact H. Qed.

Lemma to_size_t_small z : 0 <= z < 2 ^ 64 -> to_size_t z = z.
Proof. intros H. unfold to_size_t. apply Z.mod_small. exact H. Qed.

Lemma to_uint32_range z : 0 <= to_uint32 z < 2 ^ 32.
Proof. unfold to_uint32. apply Z.mod_pos_bound. lia. Qed.

Lemma to_uint32_le z : 0 <= z -> to_uint32 z <= z.
Proof. intros H. unfold to_uint32. apply Z.mod_le; lia. Qed.

(** ** The reader *)

Lemma eqb_newline c : Ascii.eqb c newline = true <-> c = newline.
Proof. apply Ascii.eqb_eq. Qed.

Lemma getdelim_app data : (getdelim data).1 ++ (getdelim data).2 = data.
Proof.
  induction data as [|c rest IH]; [reflexivity|].
  simpl. destruct (Ascii.eqb c newline); [reflexivity|].
  destruct (getdelim rest) as [l r]. simpl in *. by rewrite IH.
Qed.

Lemma getdelim_nonempty c rest : (getdelim (c :: rest)).1 <> [].
Proof.
  simpl. destruct (Ascii.eqb c newline); [discriminate|].
  destruct (getdelim rest). discriminate.
Qed.

Lemma getdelim_shorter c rest :
  (length (getdelim (c :: rest)).2 < length (c :: rest))%nat.
Proof.
  pose proof (getdelim_app (c :: rest)) as H.
  pose proof (getdelim_nonempty c rest) as Hne.
  apply (f_equal length) in H. rewrite length_app in H.
  destruct (getdelim (c :: rest)).1; [done|]. simpl in *. lia.
Qed.

(** The line [getdelim] returns ends at the first delimiter. *)
Lemma getdelim_shape data :
  let l := (getdelim data).1 in
  (exists body, l = body ++ [newline] /\ newline ∉ body) \/
  ((newline ∉ l) /\ (getdelim data).2 = []).
Proof.
  induction data as [|c rest IH]; simpl.
  - right. split; [apply not_elem_of_nil | reflexivity].
  - destruct (Ascii.eqb c newline) eqn:E.
    + apply eqb_newline in E. subst c. left. exists []. split; [reflexivity|].
      apply not_elem_of_nil.
    + assert (c <> newline) as Hc.
      { intros ->. rewrite Ascii.eqb_refl in E. discriminate. }
      destruct (getdelim rest) as [l r]. simpl in *.
      destruct IH as [[body [-> Hb]] | [Hl ->]].
      * left. exists (c :: body). split; [reflexivity|].
        rewrite not_elem_of_cons. auto.
      * right. split; [|reflexivity]. rewrite not_elem_of_cons. auto.
Qed.

Lemma chomp_snoc body : chomp (body ++ [newline]) = body.
Proof.
  unfold chomp. rewrite last_snoc. simpl.
  rewrite length_app. simpl.
  replace (length body + 1 - 1)%nat with (length body) by lia.
  by rewrite take_app_length.
Qed.

Lemma chomp_no_delimiter l : last l <> Some newline -> chomp l = l.
Proof.
  unfold chomp. destruct (last l) as [c|]; [|reflexivity].
  intros H. destruct (Ascii.eqb c newline) eqn:E; [|reflexivity].
  apply eqb_newline in E. congruence.
Qed.

Lemma last_not_elem (l : list ascii) c : c ∉ l -> last l <> Some c.
Proof.
  intros H Hl. apply H. apply last_Some in Hl as [l' ->].
  apply elem_of_app. right. apply list_elem_of_singleton. reflexivity.
Qed.

(** The records of an input are the chomped first line followed by the
    records of what [getdelim] leaves. *)
Lemma records_getdelim c rest :
  records (c :: rest) =
    chomp (getdelim (c :: rest)).1 :: records (getdelim (c :: rest)).2.
Proof.
  revert c. induction rest as [|c' rest IH]; intros c.
  - simpl. destruct (Ascii.eqb c newline) eqn:E; simpl.
    + apply eqb_newline in E. subst. reflexivity.
    + unfold chomp. simpl. rewrite E. reflexivity.
  - change (records (c :: c' :: rest)) with
      (if Ascii.eqb c newline then [] :: records (c' :: rest)
       else match records (c' :: rest) with
            | [] => [[c]] | r :: rs => (c :: r) :: rs end).
    change (getdelim (c :: c' :: rest)) with
      (if Ascii.eqb c newline then ([c], c' :: rest)
       else let '(l, r) := getdelim (c' :: rest) in (c :: l, r)).
    destruct (Ascii.eqb c newline) eqn:E.
    + apply eqb_newline in E. subst. reflexivity.
    + rewrite IH.
      pose proof (getdelim_shape (c' :: rest)) as Hs.
      pose proof (getdelim_nonempty c' rest) as Hne.
      destruct (getdelim (c' :: rest)) as [l r]. simpl in *.
      f_equal.
      destruct Hs as [[body [-> Hb]] | [Hl ->]].
      * rewrite chomp_snoc. rewrite app_comm_cons. by rewrite chomp_snoc.
      * assert (c <> newline) as Hc.
        { intros ->. rewrite Ascii.eqb_refl in E. discriminate. }
        rewrite !chomp_no_delimiter; try done;
          apply last_not_elem; rewrite ?not_elem_of_cons; auto.
Qed.

Lemma records_length_le data : (length (records data) <= length data)%nat.
Proof.
  induction data as [|c rest IH]; simpl; [lia|].
  destruct (Ascii.eqb c newline); simpl; [lia|].
  destruct (records rest); simpl in *; lia.
Qed.

Lemma records_nil data : records data = [] <-> data = [].
Proof.
  split; [|intros ->; reflexivity].
  destruct data as [|c rest]; [done|].
  rewrite records_getdelim. discriminate.
Qed.

Lemma lookup_last_length (l : list ascii) :
  l !! (length l - 1)%nat = last l.
Proof.
  rewrite last_lookup. f_equal. lia.
Qed.

(** Lines 298-312 on a line that [getline] returned. *)
Lemma strip_len_chomp line :
  line <> [] -> Z.of_nat (length line) < 2 ^ 64 ->
  strip_len line (Z.of_nat (length line)) = Z.of_nat (length (chomp line)) /\
  copy_line line (strip_len line (Z.of_nat (length line))) = chomp line.
Proof.
  intros Hne Hlen.
  assert (0 < Z.of_nat (length line)) as Hpos.
  { destruct line; [done|]. simpl. lia. }
  unfold strip_len. rewrite to_size_t_small by lia.
  replace (Z.to_nat (Z.of_nat (length line) - 1)) with (length line - 1)%nat by lia.
  rewrite lookup_last_length. unfold chomp.
  destruct (0 <? Z.of_nat (length line)) eqn:E0; [|lia].
  destruct (last line) as [c|] eqn:El; simpl.
  - destruct (Ascii.eqb c newline) eqn:E.
    + rewrite length_take. split; [lia|].
      unfold copy_line.
      destruct (0 <? Z.of_nat (length line) - 1) eqn:E1.
      * f_equal. lia.
      * assert (length line = 1%nat) as -> by lia. simpl. by rewrite take_0.
    + split; [reflexivity|]. unfold copy_line. rewrite E0.
      rewrite Nat2Z.id. apply firstn_all.
  - apply last_None in El. done.
Qed.

Lemma chomp_length l : (length l <= length (chomp l) + 1)%nat.
Proof.
  unfold chomp. destruct (last l) as [c|]; [|lia].
  destruct (Ascii.eqb c newline); [|lia]. rewrite length_take. lia.
Qed.

(** The accumulator takes the next records of the input, as many as the
    bound allows, and leaves the stream right after them. *)
Lemma read_batch_spec (ok : Z -> bool) (maxb : Z) :
  (forall k, ok k = true) -> maxb < 2 ^ 32 ->
  forall fuel b,
    0 <= num_msgs b -> 0 <= max_len b ->
    (length (unread (fin_after b)) < fuel)%nat ->
    Forall (fun r => record_len r <= SSIZE_MAX) (records (unread (fin_after b))) ->
    let recs := records (unread (fin_after b)) in
    let m := Nat.min (Z.to_nat (maxb - num_msgs b)) (length recs) in
    exists fin',
      read_batch fuel ok maxb b =
        Go (mkBatch fin'
              (num_msgs b + Z.of_nat m)
              (Z.max (max_len b) (Z.of_nat (max_list (length <$> take m recs))))
              (line_bufs b ++ take m recs)
              (lens_host b ++ (to_uint32 ∘ record_len <$> take m recs)))
      /\ records (unread fin') = drop m recs
      /\ read_error fin' = read_error (fin_after b)
      /\ (length (unread fin') <= length (unread (fin_after b)))%nat.
Proof.
  intros Hok Hmax. induction fuel as [|fuel IH]; intros b Hn Hml Hfuel Hsz; [lia|].
  cbn zeta. cbn [read_batch].
  destruct (maxb <=? num_msgs b) eqn:Efull.
  { replace (Z.to_nat (maxb - num_msgs b)) with 0%nat by lia.
    exists (fin_after b). rewrite Nat.min_0_l, take_0, drop_0. simpl.
    rewrite !app_nil_r, Z.add_0_r, Z.max_l by lia.
    destruct b; auto. }
  unfold getline. destruct (unread (fin_after b)) as [|c rest] eqn:Edata.
  { simpl. exists (fin_after b). rewrite Edata. simpl.
    rewrite Nat.min_0_r, take_0. simpl.
    rewrite !app_nil_r, Z.add_0_r, Z.max_l by lia.
    destruct b; auto. }
  pose proof (records_getdelim c rest) as Hrec.
  pose proof (getdelim_shorter c rest) as Hshort.
  pose proof (getdelim_nonempty c rest) as Hne.
  pose proof (getdelim_app (c :: rest)) as Happ.
  destruct (getdelim (c :: rest)) as [l r]. cbn [fst snd] in *.
  rewrite Hrec in Hsz. apply Forall_cons in Hsz as [Hsz Hsz'].
  pose proof (chomp_length l) as Hll.
  unfold SSIZE_MAX, record_len in Hsz.
  destruct (strip_len_chomp l Hne) as [Hs Hc]; [lia|].
  destruct (Z.of_nat (length l) <? 0) eqn:Eneg; [lia|].
  rewrite Hok. cbn [negb]. rewrite Hc, Hs.
  set (b' := mkBatch _ _ _ _ _).
  destruct (IH b') as [fin' (Heq & Hr & He & Hl)]; subst b';
    cbn [num_msgs max_len fin_after unread];
    [ apply to_uint32_range
    | destruct (max_len b <? Z.of_nat (length (chomp l))); lia
    | lia
    | done
    | ].
  cbn [num_msgs max_len fin_after unread line_bufs lens_host read_error] in *.
  rewrite to_uint32_small in * by lia.
  exists fin'. rewrite Heq, Hr, He, Hrec.
  replace (Z.to_nat (maxb - num_msgs b)) with (S (Z.to_nat (maxb - (num_msgs b + 1)))) by lia.
  cbn [length]. rewrite <- Nat.succ_min_distr.
  cbn [take drop]. rewrite !fmap_cons. cbn [max_list].
  split; [|split; [reflexivity|split; [reflexivity|]]].
  2:{ simpl in Hshort. lia. }
  f_equal. f_equal.
  - lia.
  - unfold id. rewrite Nat2Z.inj_max.
    destruct (max_len b <? Z.of_nat (length (chomp l))) eqn:E; lia.
  - by rewrite <- app_assoc.
  - by rewrite <- app_assoc.
Qed.

(** The accumulator returns the next records of the stream, at most
    [max_batch_lines] of them. *)
Lemma accumulate_spec (ok : Z -> bool) max_batch_lines fin :
  (forall k, ok k = true) ->
  0 < max_batch_lines < 2 ^ 32 ->
  Forall (fun r => record_len r <= SSIZE_MAX) (records (unread fin)) ->
  let recs := records (unread fin) in
  let m := Nat.min (Z.to_nat max_batch_lines) (length recs) in
  exists fin',
    accumulate ok max_batch_lines fin = Go (batch_of fin' (take m recs))
    /\ records (unread fin') = drop m recs
    /\ read_error fin' = read_error fin.
Proof.
  intros Hok Hmax Hin recs m. unfold accumulate.
  destruct (read_batch_spec ok max_batch_lines Hok (proj2 Hmax)
              (S (length (unread fin))) (mkBatch fin 0 0 [] []))
    as [fin' (Heq & Hr & He & _)]; cbn [num_msgs max_len fin_after];
    try lia; try done.
  cbn [num_msgs max_len fin_after line_bufs lens_host] in *.
  rewrite Z.sub_0_r in *. fold recs in Heq, Hr. fold m in Heq, Hr.
  exists fin'. split; [|done].
  rewrite Heq. unfold batch_of, lens_of. simpl.
  rewrite length_take. do 2 f_equal. lia.
Qed.

(** ** Enough fuel *)

(** The accumulator either reads nothing or leaves fewer bytes unread. *)
Lemma read_batch_consumes ok maxb :
  forall fuel b b',
    read_batch fuel ok maxb b = Go b' ->
    b' = b
    \/ (length (unread (fin_after b')) < length (unread (fin_after b)))%nat.
Proof.
  induction fuel as [|fuel IH]; intros b b' H; [left; by injection H|].
  cbn [read_batch] in H.
  destruct (maxb <=? num_msgs b); [left; by injection H|].
  unfold getline in H.
  destruct (unread (fin_after b)) as [|c rest] eqn:Edata.
  { simpl in H. left. by injection H. }
  pose proof (getdelim_shorter c rest) as Hshort.
  destruct (getdelim (c :: rest)) as [l r]. cbn [snd] in Hshort.
  destruct (Z.of_nat (length l) <? 0); [left; by injection H|].
  destruct (negb _); [discriminate|].
  apply IH in H as [-> | H]; right; cbn [fin_after unread] in *; lia.
Qed.

(** The result of the inner loop does not depend on the fuel once the fuel
    exceeds the number of unread bytes. *)
Lemma read_batch_fuel ok maxb :
  forall fuel1 fuel2 b,
    (length (unread (fin_after b)) < fuel1)%nat ->
    (length (unread (fin_after b)) < fuel2)%nat ->
    read_batch fuel1 ok maxb b = read_batch fuel2 ok maxb b.
Proof.
  induction fuel1 as [|fuel1 IH]; intros fuel2 b H1 H2; [lia|].
  destruct fuel2 as [|fuel2]; [lia|]. cbn [read_batch].
  destruct (maxb <=? num_msgs b); [reflexivity|].
  unfold getline.
  destruct (unread (fin_after b)) as [|c rest] eqn:Edata; [reflexivity|].
  pose proof (getdelim_shorter c rest) as Hshort.
  destruct (getdelim (c :: rest)) as [l r]. cbn [snd] in Hshort.
  destruct (Z.of_nat (length l) <? 0); [reflexivity|].
  destruct (negb _); [reflexivity|].
  apply IH; cbn [fin_after unread]; simpl in *; lia.
Qed.

(** Neither does the result of the batch loop. *)
Lemma batch_loop_fuel sha256 env maxb :
  forall fuel1 fuel2 fin batch_index w,
    (length (unread fin) < fuel1)%nat ->
    (length (unread fin) < fuel2)%nat ->
    batch_loop sha256 fuel1 env maxb fin batch_index w
    = batch_loop sha256 fuel2 env maxb fin batch_index w.
Proof.
  induction fuel1 as [|fuel1 IH]; intros fuel2 fin batch_index w H1 H2; [lia|].
  destruct fuel2 as [|fuel2]; [lia|]. cbn [batch_loop].
  destruct (accumulate _ maxb fin) as [b|c] eqn:Hacc; [|reflexivity].
  destruct (num_msgs b =? 0) eqn:E; [reflexivity|].
  unfold accumulate in Hacc. apply read_batch_consumes in Hacc as [-> | Hlt].
  { cbn [num_msgs] in E. discriminate. }
  cbn [fin_after unread] in Hlt.
  unfold bind. destruct (process_batch _ _ _ _ w) as [[[]|c] w']; [|reflexivity].
  apply IH; lia.
Qed.

(** ** The packer *)

Lemma stored_length r : Z.of_nat (length (stored r)) = to_uint32 (record_len r).
Proof.
  unfold stored, record_len. rewrite length_take.
  pose proof (to_uint32_le (Z.of_nat (length r))).
  pose proof (to_uint32_range (Z.of_nat (length r))). lia.
Qed.

Lemma stored_small r : record_len r < 2 ^ 32 -> stored r = r.
Proof.
  intros H. unfold stored. rewrite to_uint32_small.
  - unfold record_len. rewrite Nat2Z.id. apply firstn_all.
  - unfold record_len in *. lia.
Qed.

Lemma slot_length stride_bytes r :
  Z.of_nat (length (stored r)) <= stride_bytes ->
  length (slot stride_bytes r) = Z.to_nat stride_bytes.
Proof. intros H. unfold slot. rewrite length_app, length_replicate. lia. Qed.

Lemma slots_length stride_bytes (recs : list (list ascii)) :
  Forall (fun r => Z.of_nat (length (stored r)) <= stride_bytes) recs ->
  length (recs ≫= slot stride_bytes) = (length recs * Z.to_nat stride_bytes)%nat.
Proof.
  induction 1 as [|r recs Hr _ IH]; [reflexivity|].
  rewrite bind_cons, length_app, IH, slot_length by done. simpl. lia.
Qed.

Lemma pack_loop_spec stride_bytes :
  0 <= stride_bytes ->
  forall rest done buf,
    Z.of_nat (length done + length rest) * stride_bytes < 2 ^ 64 ->
    Z.of_nat (length done + length rest) < 2 ^ 32 ->
    Forall (fun r => Z.of_nat (length (stored r)) <= stride_bytes) rest ->
    length buf = (length done * Z.to_nat stride_bytes)%nat ->
    pack_loop (length rest) (Z.of_nat (length done)) stride_bytes
      (done ++ rest) (lens_of (done ++ rest))
      (buf ++ replicate (length rest * Z.to_nat stride_bytes) NUL)
    = buf ++ (rest ≫= slot stride_bytes).
Proof.
  intros Hs. induction rest as [|r rest IH]; intros done buf Htot Hcnt Hfit Hbuf.
  { simpl. reflexivity. }
  apply Forall_cons in Hfit as [Hr Hfit].
  cbn [pack_loop length]. rewrite Nat2Z.id.
  unfold lens_of in *. rewrite list_lookup_fmap, !list_lookup_middle by done.
  cbn [fmap option_fmap option_map default compose].
  rewrite bind_cons.
  assert (Z.of_nat (length done) * stride_bytes < 2 ^ 64) as Hoff by (simpl in Htot; nia).
  assert (Z.to_nat (Z.of_nat (length done) * stride_bytes) = length buf) as Hlen by nia.
  pose proof (stored_length r) as Hst.
  pose proof (to_uint32_range (record_len r)) as Hrange.
  set (s := Z.to_nat stride_bytes) in *.
  assert (pack_step :
    (if 0 <? to_uint32 (record_len r)
     then memcpy (buf ++ replicate (S (length rest) * s) NUL)
            (to_size_t (Z.of_nat (length done) * stride_bytes)) r
            (to_uint32 (record_len r))
     else buf ++ replicate (S (length rest) * s) NUL)
    = (buf ++ slot stride_bytes r) ++ replicate (length rest * s) NUL).
  { unfold slot. fold s. rewrite <- !app_assoc. rewrite <- replicate_add.
    destruct (0 <? to_uint32 (record_len r)) eqn:E.
    - unfold memcpy. rewrite to_size_t_small by nia. rewrite Hlen.
      rewrite take_app_length. f_equal. fold (stored r). f_equal.
      rewrite drop_app_add, drop_replicate. f_equal. lia.
    - assert (length (stored r) = 0%nat) as Hz by lia.
      apply nil_length_inv in Hz as Hnil. rewrite Hnil. simpl. do 2 f_equal. lia. }
  unfold id. rewrite pack_step.
  replace (done ++ r :: rest) with ((done ++ [r]) ++ rest) by (by rewrite <- app_assoc).
  replace (Z.of_nat (length done) + 1) with (Z.of_nat (length (done ++ [r])))
    by (rewrite length_app; simpl; lia).
  rewrite to_uint32_small by (rewrite length_app; simpl in *; lia).
  rewrite IH.
  - by rewrite <- app_assoc.
  - rewrite length_app. simpl in *. replace (length done + 1 + length rest)%nat with (length done + S (length rest))%nat by lia. done.
  - rewrite length_app. simpl in *. lia.
  - done.
  - rewrite !length_app, slot_length by done. simpl. fold s. lia.
Qed.

(** The packed buffer of a batch is the concatenation of its slots. *)
Lemma pack_spec fin ml (recs : list (list ascii)) stride_bytes :
  0 <= stride_bytes ->
  Z.of_nat (length recs) * stride_bytes < 2 ^ 64 ->
  Z.of_nat (length recs) < 2 ^ 32 ->
  Forall (fun r => Z.of_nat (length (stored r)) <= stride_bytes) recs ->
  pack (mkBatch fin (Z.of_nat (length recs)) ml recs (lens_of recs)) stride_bytes
  = recs ≫= slot stride_bytes.
Proof.
  intros Hs Htot Hcnt Hfit. unfold pack. cbn [num_msgs line_bufs lens_host].
  rewrite to_size_t_small by nia. rewrite Nat2Z.id.
  replace (Z.to_nat (Z.of_nat (length recs) * stride_bytes))
    with (length recs * Z.to_nat stride_bytes)%nat by nia.
  apply (pack_loop_spec stride_bytes Hs recs [] []); simpl; done.
Qed.

(** ** The stride *)

Lemma compute_stride_align max_len :
  0 <= max_len <= SSIZE_MAX ->
  compute_stride max_len = align_up (Z.max max_len 1) 64.
Proof.
  unfold SSIZE_MAX, compute_stride, align_up. intros H.
  destruct (max_len =? 0) eqn:E.
  - assert (max_len = 0) as -> by lia. reflexivity.
  - assert (0 < max_len) by lia.
    assert (0 <= (max_len + 63) / 64 * 64 <= max_len + 63).
    { pose proof (Z.mul_div_le (max_len + 63) 64).
      pose proof (Z.div_pos (max_len + 63) 64). lia. }
    assert (0 <= (max_len + 63) / 64 <= max_len + 63).
    { pose proof (Z.div_pos (max_len + 63) 64).
      pose proof (Z.div_le_upper_bound (max_len + 63) 64 (max_len + 63)). lia. }
    rewrite (to_size_t_small (max_len + 63)) by lia.
    rewrite (to_size_t_small ((max_len + 63) / 64)) by lia.
    rewrite to_size_t_small by lia.
    rewrite Z.max_l by lia. f_equal. f_equal. lia.
Qed.

Lemma align_up_64 x :
  0 <= x ->
  (align_up x 64) mod 64 = 0 /\ x <= align_up x 64 < x + 64 /\
  (forall m, m mod 64 = 0 -> x <= m -> align_up x 64 <= m).
Proof.
  intros Hx. unfold align_up.
  pose proof (Z.div_mod (x + 64 - 1) 64) as Hdm.
  pose proof (Z.mod_pos_bound (x + 64 - 1) 64) as Hb.
  split; [apply Z.mod_mul; lia|]. split; [lia|].
  intros m Hm Hle.
  pose proof (Z.div_mod m 64) as Hdm'. rewrite Hm in Hdm'.
  assert ((x + 64 - 1) / 64 <= m / 64); [|lia].
  apply Z.div_le_lower_bound; lia.
Qed.

Lemma compute_stride_bound max_len bound :
  0 <= max_len <= bound -> bound mod 64 = 0 -> 64 <= bound <= SSIZE_MAX ->
  64 <= compute_stride max_len <= bound /\ max_len <= compute_stride max_len
  /\ compute_stride max_len mod 64 = 0.
Proof.
  intros H Hm Hb. rewrite compute_stride_align by lia.
  destruct (align_up_64 (Z.max max_len 1)) as (H1 & H2 & H3); [lia|].
  specialize (H3 bound Hm).
  assert (64 <= align_up (Z.max max_len 1) 64); [|lia].
  unfold align_up in *.
  pose proof (Z.div_mod (Z.max max_len 1 + 64 - 1) 64).
  assert (1 <= (Z.max max_len 1 + 64 - 1) / 64); [|lia].
  apply Z.div_le_lower_bound; lia.
Qed.

(** ** The kernel over a packed buffer *)

Lemma bind_seq_lookup {A B} (l : list A) (f : nat -> list B) (g : A -> list B) :
  (forall i x, l !! i = Some x -> f i = g x) ->
  seq 0 (length l) ≫= f = l ≫= g.
Proof.
  induction l as [|x l IH] using rev_ind; intros H; [reflexivity|].
  rewrite length_app, seq_app, !bind_app. simpl. rewrite !app_nil_r.
  rewrite IH, (H (length l) x); [done| |].
  - by rewrite list_lookup_middle.
  - intros i y Hi. apply H. by apply lookup_app_l_Some.
Qed.

Lemma drop_slots stride_bytes (recs : list (list ascii)) i :
  Forall (fun r => Z.of_nat (length (stored r)) <= stride_bytes) recs ->
  drop (i * Z.to_nat stride_bytes) (recs ≫= slot stride_bytes)
  = drop i recs ≫= slot stride_bytes.
Proof.
  intros Hfit. rewrite <- (take_drop i recs) at 1. rewrite bind_app.
  destruct (decide (i <= length recs)%nat) as [Hi|Hi].
  - apply drop_app_length'. rewrite slots_length.
    + rewrite length_take. f_equal. lia.
    + by apply Forall_take.
  - rewrite (drop_ge recs) by lia. simpl. rewrite app_nil_r.
    rewrite take_ge by lia. apply drop_ge.
    rewrite slots_length by done. nia.
Qed.

Section Dispatch.

Variable sha256 : list ascii -> list Z.

Lemma digest_words_length msg : length (digest_words sha256 msg) = 8%nat.
Proof. reflexivity. Qed.

Lemma run_kernel_spec (recs : list (list ascii)) stride_bytes msg_stride :
  0 <= stride_bytes -> msg_stride * 4 = stride_bytes ->
  Forall (fun r => Z.of_nat (length (stored r)) <= stride_bytes) recs ->
  run_kernel sha256 (recs ≫= slot stride_bytes)
    (take (length recs) (lens_of recs)) msg_stride (Z.of_nat (length recs))
  = recs ≫= (digest_words sha256 ∘ stored).
Proof.
  intros Hs Hms Hfit. unfold run_kernel. rewrite Nat2Z.id.
  apply bind_seq_lookup. intros i r Hi.
  unfold sha256_wrapper, compose. rewrite Hms.
  rewrite (take_ge (lens_of recs)) by (unfold lens_of; rewrite length_fmap; lia).
  unfold lens_of. rewrite list_lookup_fmap, Hi. simpl.
  replace (Z.to_nat (Z.of_nat i * stride_bytes))
    with (i * Z.to_nat stride_bytes)%nat by nia.
  rewrite drop_slots by done.
  rewrite (drop_S _ _ _ Hi), bind_cons. unfold slot at 1.
  rewrite <- !app_assoc. f_equal.
  apply take_app_length'. pose proof (stored_length r). lia.
Qed.

End Dispatch.

(** ** The emitter *)

Lemma nibble_high x : Z.shiftr (Z.land x 255) 4 = (x / 16) mod 16.
Proof.
  rewrite Z.shiftr_div_pow2 by lia. change 255 with (Z.ones 8).
  rewrite Z.land_ones by lia.
  change (2 ^ 8) with (16 * 16). change (2 ^ 4) with 16.
  rewrite Z.rem_mul_r by lia.
  pose proof (Z.mod_pos_bound x 16). pose proof (Z.mod_pos_bound (x / 16) 16).
  rewrite Z.mul_comm, Z.div_add by lia. rewrite Z.div_small by lia. lia.
Qed.

Lemma nibble_low x : Z.land (Z.land x 255) 15 = x mod 16.
Proof.
  change 255 with (Z.ones 8). change 15 with (Z.ones 4).
  rewrite !Z.land_ones by lia.
  change (2 ^ 8) with (16 * 16). change (2 ^ 4) with 16.
  rewrite Z.rem_mul_r by lia.
  rewrite Z.mul_comm, Z.mod_add by lia. apply Z.mod_mod. lia.
Qed.

Lemma hexdig_digit d :
  0 <= d < 16 -> default NUL (hexdig !! Z.to_nat d) = hex_digit d.
Proof.
  intros H.
  assert (Hcases : d = 0 \/ d = 1 \/ d = 2 \/ d = 3 \/ d = 4 \/ d = 5 \/ d = 6
    \/ d = 7 \/ d = 8 \/ d = 9 \/ d = 10 \/ d = 11 \/ d = 12 \/ d = 13
    \/ d = 14 \/ d = 15) by lia.
  repeat (destruct Hcases as [-> | Hcases]; [reflexivity|]).
  subst d. reflexivity.
Qed.

Lemma hex_digit_lowercase d : 0 <= d < 16 -> lowercase_hex (hex_digit d).
Proof.
  intros H. rewrite <- hexdig_digit by done.
  assert (Z.to_nat d < length hexdig)%nat as Hlt by (simpl; lia).
  apply lookup_lt_is_Some in Hlt as [c Hc]. rewrite Hc. simpl.
  unfold lowercase_hex. fold hexdig. by eapply list_elem_of_lookup_2.
Qed.

Lemma byte_hex_shift v s :
  0 <= s ->
  byte_hex (Z.land (Z.shiftr v s) 255) =
    [ hex_digit ((v / 2 ^ (s + 4)) mod 16); hex_digit ((v / 2 ^ s) mod 16) ].
Proof.
  intros Hs. unfold byte_hex. rewrite nibble_high, nibble_low.
  rewrite Z.shiftr_div_pow2 by lia.
  rewrite Z.pow_add_r by lia. change (2 ^ 4) with 16.
  rewrite Z.div_div by lia.
  rewrite !hexdig_digit by (apply Z.mod_pos_bound; lia). reflexivity.
Qed.

Lemma word_bytes_hex v : word_bytes v ≫= byte_hex = hex_of_word v.
Proof.
  unfold word_bytes. rewrite <- (Z.shiftr_0_r v) at 4.
  rewrite !bind_cons. rewrite !byte_hex_shift by lia. reflexivity.
Qed.

Lemma bind_bind {A B C} (f : A -> list B) (g : B -> list C) (l : list A) :
  (l ≫= f) ≫= g = l ≫= (fun x => f x ≫= g).
Proof.
  induction l as [|x l IH]; [reflexivity|].
  by rewrite !bind_cons, bind_app, IH.
Qed.

Lemma bind_seq_default {A B} (d : A) (l : list A) (g : A -> list B) :
  (i ← seq 0 (length l); g (default d (l !! i))) = l ≫= g.
Proof. apply bind_seq_lookup. intros i x Hx. by rewrite Hx. Qed.

Lemma hex_line_words ws :
  length ws = 8%nat -> hex_line ws = (ws ≫= hex_of_word) ++ [newline].
Proof.
  intros H. unfold hex_line. f_equal.
  rewrite <- (bind_seq_default 0 ws hex_of_word). by rewrite H.
Qed.

(** The line the loop body of lines 463-477 writes for slot [k]. *)
Lemma emit_line digests_host k :
  digest_to_hex (digest_bytes digests_host k) ++ [newline]
  = hex_line (slot_words digests_host (Z.to_nat k)).
Proof.
  rewrite hex_line_words by reflexivity. f_equal.
  assert (digest_bytes digests_host k
          = slot_words digests_host (Z.to_nat k) ≫= word_bytes) as ->.
  { unfold slot_words. by rewrite list_fmap_bind. }
  transitivity ((slot_words digests_host (Z.to_nat k) ≫= word_bytes) ≫= byte_hex).
  - exact (bind_seq_default 0
             (slot_words digests_host (Z.to_nat k) ≫= word_bytes) byte_hex).
  - rewrite bind_bind. apply list_bind_ext; [|done].
    intros v. apply word_bytes_hex.
Qed.

Lemma emit_loop_spec digests_host :
  forall todo k out,
    Z.of_nat (k + todo) < 2 ^ 32 ->
    emit_loop todo (Z.of_nat k) digests_host out
    = out ++ (i ← seq k todo; hex_line (slot_words digests_host i)).
Proof.
  induction todo as [|todo IH]; intros k out Hk.
  { simpl. by rewrite app_nil_r. }
  cbn [emit_loop seq]. rewrite bind_cons, emit_line, Nat2Z.id.
  rewrite to_uint32_small by lia.
  replace (Z.of_nat k + 1) with (Z.of_nat (S k)) by lia.
  rewrite IH by lia. by rewrite <- app_assoc.
Qed.

Lemma hex_of_word_lowercase v : Forall lowercase_hex (hex_of_word v).
Proof.
  unfold hex_of_word. apply Forall_fmap, Forall_forall. intros i _. simpl.
  apply hex_digit_lowercase, Z.mod_pos_bound. lia.
Qed.

Lemma hex_line_shape ws :
  exists hex, hex_line ws = hex ++ [newline] /\ length hex = 64%nat
              /\ Forall lowercase_hex hex.
Proof.
  eexists. split; [reflexivity|]. split; [reflexivity|].
  apply Forall_bind, Forall_forall. intros j _. apply hex_of_word_lowercase.
Qed.

Lemma lookup_bind_slot {A B} (g : A -> list B) (n : nat) (l : list A) :
  (forall x, length (g x) = n) ->
  forall i j x, l !! i = Some x -> (j < n)%nat ->
    (l ≫= g) !! (i * n + j)%nat = g x !! j.
Proof.
  intros Hg. induction l as [|y l IH]; intros i j x Hi Hj; [done|].
  rewrite bind_cons. destruct i as [|i]; simpl in Hi.
  - injection Hi as ->. simpl. apply lookup_app_l. rewrite Hg. lia.
  - rewrite lookup_app_r by (rewrite Hg; lia). rewrite Hg.
    replace (S i * n + j - n)%nat with (i * n + j)%nat by lia. by apply IH.
Qed.

Lemma fmap_seq_default {A} (d : A) (l : list A) :
  (fun j => default d (l !! j)) <$> seq 0 (length l) = l.
Proof.
  apply list_eq. intros j. rewrite list_lookup_fmap.
  destruct (decide (j < length l)%nat) as [Hj|Hj].
  - rewrite lookup_seq_lt by done. simpl.
    apply lookup_lt_is_Some in Hj as [x Hx]. by rewrite Hx.
  - rewrite lookup_seq_ge by lia. simpl. symmetry. apply lookup_ge_None. lia.
Qed.

Lemma slot_words_bind {A} (g : A -> list Z) (l : list A) i x :
  (forall y, length (g y) = 8%nat) -> l !! i = Some x ->
  slot_words (l ≫= g) i = g x.
Proof.
  intros Hg Hi. unfold slot_words.
  rewrite <- (fmap_seq_default 0 (g x)), Hg.
  apply list_fmap_ext. intros k j Hj. apply lookup_seq in Hj as [-> Hj].
  simpl. by rewrite (lookup_bind_slot g 8 l Hg i k x).
Qed.

(** ** The macro [CHECK_CL], step by step *)

Lemma bind_guard {B} (ok : bool) (k : unit -> proc B) (w : world) :
  bind (guard ok) k w = if ok then k tt w else (Exit 1, w).
Proof. by destruct ok. Qed.

Lemma bind_log {B} (e : event) (k : unit -> proc B) (w : world) :
  bind (log e) k w = k tt (mkWorld (out_file w) (trace w ++ [e])).
Proof. reflexivity. Qed.

Lemma bind_invoke {B} env c i (k : Z -> proc B) (w : world) :
  bind (invoke env c i) k w
  = k (cl_status env c i) (mkWorld (out_file w) (trace w ++ [EvCL c])).
Proof. reflexivity. Qed.

(** The status is in a variable: nothing is called. *)
Lemma bind_CHECK_CL_ret {B} (err : Z) (k : unit -> proc B) (w : world) :
  bind (CHECK_CL (ret err)) k w
  = if err =? CL_SUCCESS then k tt w else (Exit 1, w).
Proof. unfold CHECK_CL, bind, ret, exit_with. by destruct (err =? CL_SUCCESS). Qed.

(** The call is the argument of the macro: it is made again when it
    fails. *)
Lemma bind_CHECK_CL_invoke {B} env c i (k : unit -> proc B) (w : world) :
  bind (CHECK_CL (invoke env c i)) k w
  = if cl_status env c i =? CL_SUCCESS
    then k tt (mkWorld (out_file w) (trace w ++ [EvCL c]))
    else (Exit 1, mkWorld (out_file w) (trace w ++ [EvCL c; EvCL c])).
Proof.
  unfold CHECK_CL, invoke, bind, log, ret, exit_with.
  destruct (cl_status env c i =? CL_SUCCESS); cbn [out_file trace];
    [reflexivity|].
  by rewrite <- app_assoc.
Qed.

Lemma bind_CHECK_CL_list {B} p (k : unit -> proc B) (w : world) :
  bind (CHECK_CL (list_devices p)) k w
  = if list_status p =? CL_SUCCESS
    then k tt (mkWorld (out_file w) (trace w ++ [EvCL GetDeviceIDsList]))
    else (Exit 1,
          mkWorld (out_file w)
            (trace w ++ [EvCL GetDeviceIDsList; EvCL GetDeviceIDsList])).
Proof.
  unfold CHECK_CL, list_devices, bind, log, ret, exit_with.
  destruct (list_status p =? CL_SUCCESS); cbn [out_file trace];
    [reflexivity|].
  by rewrite <- app_assoc.
Qed.

Lemma bind_CHECK_CL_arg {B} env i value arg (k : Z -> proc B) (w : world) :
  bind (CHECK_CL_arg (set_kernel_arg env i value) arg) k w
  = if cl_status env (SetKernelArg arg value) i =? CL_SUCCESS
    then k (arg + 1)
           (mkWorld (out_file w) (trace w ++ [EvCL (SetKernelArg arg value)]))
    else (Exit 1,
          mkWorld (out_file w)
            (trace w ++ [EvCL (SetKernelArg arg value);
                         EvCL (SetKernelArg (arg + 1) value)])).
Proof.
  unfold CHECK_CL_arg, set_kernel_arg, invoke, bind, log, ret, exit_with.
  cbn [fst snd].
  destruct (cl_status env (SetKernelArg arg value) i =? CL_SUCCESS);
    cbn [out_file trace]; [reflexivity|].
  by rewrite <- app_assoc.
Qed.

(** ** A run in which nothing fails *)

Lemma choose_device_ok ps p w :
  first_usable ps = Some p -> list_status p = CL_SUCCESS ->
  choose_device ps w
  = (Go true, mkWorld (out_file w) (trace w ++ [EvCL GetDeviceIDsList])).
Proof.
  intros Hp Hl. induction ps as [|q ps IH]; [done|].
  simpl in Hp. cbn [choose_device]. unfold usable in Hp. cbn zeta in Hp.
  destruct (fst (count_devices q) =? CL_SUCCESS);
    destruct (snd (count_devices q) =? 0); simpl in *; auto.
  injection Hp as ->. rewrite bind_CHECK_CL_list, Hl. reflexivity.
Qed.

Lemma first_usable_nonempty ps p : first_usable ps = Some p -> ps <> [].
Proof. by destruct ps. Qed.

Lemma CHECK_CL_ok {B} env c i (k : unit -> proc B) w :
  faultless env ->
  bind (CHECK_CL (invoke env c i)) k w
  = k tt (mkWorld (out_file w) (trace w ++ [EvCL c])).
Proof. intros H. by rewrite bind_CHECK_CL_invoke, (fl_cl env H). Qed.

Lemma checked_ok {B} env c i (k : unit -> proc B) w :
  faultless env ->
  bind (invoke env c i) (fun err => bind (CHECK_CL (ret err)) k) w
  = k tt (mkWorld (out_file w) (trace w ++ [EvCL c])).
Proof.
  intros H. by rewrite bind_invoke, bind_CHECK_CL_ret, (fl_cl env H).
Qed.

Lemma CHECK_CL_arg_ok {B} env i value arg (k : Z -> proc B) w :
  faultless env ->
  bind (CHECK_CL_arg (set_kernel_arg env i value) arg) k w
  = k (arg + 1)
      (mkWorld (out_file w) (trace w ++ [EvCL (SetKernelArg arg value)])).
Proof. intros H. by rewrite bind_CHECK_CL_arg, (fl_cl env H). Qed.

Lemma bootstrap_ok env w :
  faultless env ->
  bootstrap env w
  = (Go tt, mkWorld (out_file w) (trace w ++ bootstrap_events)).
Proof.
  intros H. destruct (fl_device env H) as (p & Hp & Hl).
  pose proof (first_usable_nonempty _ _ Hp) as Hne.
  assert (Hsome : negb (Z.of_nat (length (platforms env)) =? 0) = true)
    by (destruct (platforms env); [done|reflexivity]).
  unfold bootstrap.
  rewrite CHECK_CL_ok, bind_guard, Hsome, CHECK_CL_ok by done.
  unfold bind at 1. rewrite (choose_device_ok _ p) by done.
  rewrite bind_guard, !checked_ok, bind_guard, (fl_source env H) by done.
  rewrite checked_ok, bind_invoke, (fl_cl env H) by done.
  change (negb (CL_SUCCESS =? CL_SUCCESS)) with false. cbn iota.
  unfold bind at 1, ret at 1.
  rewrite checked_ok, (fl_alloc env H) by done.
  unfold guard, ret. cbn [out_file trace].
  rewrite <- !app_assoc. reflexivity.
Qed.

Lemma expected_dispatches_step maxb n :
  0 < maxb -> 0 < n ->
  expected_dispatches maxb n
  = Z.min maxb n :: expected_dispatches maxb (n - Z.min maxb n).
Proof.
  intros Hm Hn. unfold expected_dispatches.
  destruct (Z.le_gt_cases maxb n) as [Hle|Hgt].
  - rewrite Z.min_l by lia.
    assert (n / maxb = (n - maxb) / maxb + 1) as ->.
    { rewrite <- Z.div_add by lia. f_equal. lia. }
    assert (n mod maxb = (n - maxb) mod maxb) as ->.
    { rewrite <- (Z.mod_add (n - maxb) 1) by lia. f_equal. lia. }
    pose proof (Z.div_pos (n - maxb) maxb).
    replace (Z.to_nat ((n - maxb) / maxb + 1))
      with (S (Z.to_nat ((n - maxb) / maxb))) by lia.
    reflexivity.
  - rewrite Z.min_r by lia. rewrite Z.sub_diag.
    rewrite Z.div_small, Z.mod_small by lia.
    rewrite Zdiv_0_l, Zmod_0_l. simpl.
    destruct (n =? 0) eqn:E; [lia|reflexivity].
Qed.

Lemma max_list_bound bound (recs : list (list ascii)) :
  within bound recs ->
  0 <= Z.max 0 (Z.of_nat (max_list (length <$> recs))) <= Z.max 0 bound
  /\ Forall (fun r => record_len r
                      <= Z.max 0 (Z.of_nat (max_list (length <$> recs)))) recs.
Proof.
  induction 1 as [|r recs Hr _ [IH1 IH2]]; [split; [simpl; lia|constructor]|].
  rewrite fmap_cons. cbn [max_list]. unfold id, record_len in *.
  split; [lia|]. constructor; [lia|].
  eapply Forall_impl; [exact IH2|]. simpl. intros. lia.
Qed.

Lemma within_ssize bound recs :
  bound <= SSIZE_MAX -> within bound recs ->
  Forall (fun r => record_len r <= SSIZE_MAX) recs.
Proof.
  intros Hb H. eapply Forall_impl; [exact H|].
  simpl. intros r Hr. lia.
Qed.

Section Pipeline.

Variable sha256 : list ascii -> list Z.

Variable env : environment.
Hypothesis Hfl : faultless env.

Lemma process_batch_ok batch_index b w :
  process_batch sha256 env batch_index b w
  = (Go tt,
     mkWorld
       (emit (run_kernel sha256 (pack b (compute_stride (max_len b)))
                (take (Z.to_nat (num_msgs b)) (lens_host b))
                (to_uint32 (compute_stride (max_len b) / 4)) (num_msgs b))
          (num_msgs b) <$> out_file w)
       (trace w ++ batch_events (num_msgs b)
                     (to_uint32 (compute_stride (max_len b) / 4)))).
Proof.
  unfold process_batch. cbn zeta.
  rewrite !(fl_alloc env Hfl).
  rewrite bind_guard, !checked_ok, !CHECK_CL_arg_ok, CHECK_CL_ok by done.
  rewrite bind_log, !CHECK_CL_ok, bind_guard, CHECK_CL_ok by done.
  unfold write_output. cbn [out_file trace].
  rewrite <- !app_assoc. reflexivity.
Qed.

Variable max_batch_lines : Z.
Hypothesis Hmax : 0 < max_batch_lines < 2 ^ 32.

(** [bound]: a multiple of 64 that no record of the input exceeds, small
    enough for the stride to fit the kernel's 32-bit word count and for
    the size of a packed buffer to fit [size_t]. *)
Variable bound : Z.
Hypothesis Hbound_align : bound mod 64 = 0.
Hypothesis Hbound : 64 <= bound < 2 ^ 34.
Hypothesis Hbuffer : max_batch_lines * bound < 2 ^ 64.

(** The lines a batch of records appends to the output. *)
Lemma batch_output fin (recs : list (list ascii)) out :
  within bound recs -> Z.of_nat (length recs) <= max_batch_lines ->
  let b := batch_of fin recs in
  emit (run_kernel sha256 (pack b (compute_stride (max_len b)))
          (take (Z.to_nat (num_msgs b)) (lens_host b))
          (to_uint32 (compute_stride (max_len b) / 4)) (num_msgs b))
    (num_msgs b) out
  = out ++ (recs ≫= digest_line sha256).
Proof using All.
  intros Hin Hcnt b. subst b. unfold batch_of.
  cbn [num_msgs max_len lens_host].
  destruct (max_list_bound bound recs Hin) as [Hml Hall].
  rewrite (Z.max_r 0 bound) in Hml by lia.
  set (ml := Z.max 0 (Z.of_nat (max_list (length <$> recs)))) in *.
  destruct (compute_stride_bound ml bound) as (Hs1 & Hs2 & Hs3);
    [lia | done | unfold SSIZE_MAX; lia |].
  set (stride := compute_stride ml) in *.
  assert (Hfit : Forall (fun r => Z.of_nat (length (stored r)) <= stride) recs).
  { eapply Forall_impl; [exact Hall|]. simpl. intros r Hr.
    rewrite stored_length. pose proof (to_uint32_le (record_len r)).
    unfold record_len in *. lia. }
  assert (Hquarter : to_uint32 (stride / 4) * 4 = stride).
  { pose proof (Z.div_mod stride 64) as Hdm. rewrite Hs3 in Hdm.
    assert (stride / 4 = 16 * (stride / 64)) as Hq.
    { symmetry. apply Z.div_unique_exact; lia. }
    rewrite to_uint32_small; lia. }
  rewrite pack_spec by (try done; nia).
  rewrite Nat2Z.id, run_kernel_spec by (try done; lia).
  unfold emit. rewrite Nat2Z.id.
  rewrite (emit_loop_spec _ (length recs) 0%nat) by (simpl; lia).
  f_equal. apply bind_seq_lookup. intros i r Hi.
  unfold digest_line. f_equal.
  by apply (slot_words_bind (digest_words sha256 ∘ stored)).
Qed.

Lemma fmap_app_nil (o : option (list ascii)) :
  (fun out => out ++ []) <$> o = o.
Proof. destruct o; simpl; [by rewrite app_nil_r|done]. Qed.

(** The batch loop appends the lines of the records left on the stream, in
    order, and dispatches them in batches of [max_batch_lines]. *)
Lemma bound_ssize : bound <= SSIZE_MAX.
Proof using Hbound. unfold SSIZE_MAX. lia. Qed.

Lemma batch_loop_spec :
  forall fuel fin batch_index w,
    (length (records (unread fin)) < fuel)%nat ->
    within bound (records (unread fin)) ->
    exists t,
      batch_loop sha256 fuel env max_batch_lines fin batch_index w
      = (Go tt,
         mkWorld ((fun out => out ++ (records (unread fin) ≫= digest_line sha256))
                    <$> out_file w)
                 (trace w ++ t))
      /\ dispatches t
         = expected_dispatches max_batch_lines
             (Z.of_nat (length (records (unread fin)))).
Proof using All.
  induction fuel as [|fuel IH]; intros fin batch_index [o t0] Hfuel Hin; [lia|].
  cbn [batch_loop].
  destruct (accumulate_spec
              (line_copy_ok env (to_uint32 (batch_index + 1)))
              max_batch_lines fin
              (fl_copy env Hfl _) Hmax (within_ssize bound _ bound_ssize Hin))
    as [fin' (Hacc & Hrest & _)].
  rewrite Hacc.
  set (recs := records (unread fin)) in *.
  set (m := Nat.min (Z.to_nat max_batch_lines) (length recs)) in *.
  assert (length (take m recs) = m) as Hm by (rewrite length_take; lia).
  cbn [batch_of num_msgs]. rewrite Hm.
  destruct (Z.of_nat m =? 0) eqn:E.
  - assert (recs = []) as Hnil by (apply nil_length_inv; lia).
    rewrite Hnil. exists []. cbn [out_file trace mbind list_bind length].
    rewrite fmap_app_nil, app_nil_r. split; reflexivity.
  - assert (0 < m)%nat as Hpos by lia.
    unfold bind. fold (batch_of fin' (take m recs)).
    rewrite process_batch_ok.
    change (fin_after (batch_of fin' (take m recs))) with fin'.
    match goal with
    | |- context [batch_loop _ _ _ _ ?f ?i ?w'] =>
        destruct (IH f i w') as [t (Hloop & Hdisp)]
    end.
    { rewrite Hrest, length_drop. lia. }
    { rewrite Hrest. by apply Forall_drop. }
    rewrite Hloop. cbn [out_file trace].
    eexists. split.
    + f_equal. f_equal.
      * destruct o as [out|]; [|reflexivity]. simpl. f_equal.
        rewrite batch_output; [|by apply Forall_take|rewrite Hm; lia].
        rewrite Hrest, <- app_assoc, <- bind_app, take_drop. reflexivity.
      * rewrite <- app_assoc. reflexivity.
    + unfold dispatches in *. rewrite omap_app, Hdisp. simpl.
      rewrite Hm, Hrest, length_drop.
      rewrite (expected_dispatches_step max_batch_lines (Z.of_nat (length recs)))
        by lia.
      replace (Z.min max_batch_lines (Z.of_nat (length recs))) with (Z.of_nat m) by lia.
      do 3 f_equal. lia.
Qed.

(** A run that meets no failure writes the line of every record of the
    input, in input order, and exits with status 0. *)
Lemma run_spec fin :
  input_file env = Some fin ->
  within bound (records (unread fin)) ->
  exists t,
    run_with sha256 max_batch_lines env
    = mkRun 0 (Some (records (unread fin) ≫= digest_line sha256))
        (EvOpenInput :: EvCreateOutput :: bootstrap_events ++ t)
    /\ dispatches t
       = expected_dispatches max_batch_lines
           (Z.of_nat (length (records (unread fin)))).
Proof using All.
  intros Hin Hrec. unfold run_with, main_with.
  rewrite (fl_argc env Hfl), Hin, (fl_output env Hfl).
  change (3 =? 3) with true.
  unfold bind, guard, ret, log, create_output. cbn [out_file trace app].
  rewrite bootstrap_ok by done. cbn [out_file trace].
  destruct (batch_loop_spec (S (length (unread fin))) fin 0
              (mkWorld (Some []) ([EvOpenInput; EvCreateOutput] ++ bootstrap_events)))
    as [t (Hloop & Hdisp)]; [|done|].
  { pose proof (records_length_le (unread fin)). lia. }
  rewrite Hloop. exists t. split; [|done]. reflexivity.
Qed.

End Pipeline.

(** ** Runs on records that fit the 32-bit length array *)

Lemma sample_env_faultless fin : faultless (sample_env fin).
Proof.
  constructor; try reflexivity.
  exists gpu_platform. split; reflexivity.
Qed.

Lemma run_small_records sha256 env max_batch_lines fin :
  faultless env ->
  0 < max_batch_lines < 2 ^ 32 ->
  input_file env = Some fin ->
  Forall (fun r => record_len r < 2 ^ 32) (records (unread fin)) ->
  exists t,
    run_with sha256 max_batch_lines env
    = mkRun 0 (Some (records (unread fin) ≫= record_line sha256))
        (EvOpenInput :: EvCreateOutput :: bootstrap_events ++ t)
    /\ dispatches t
       = expected_dispatches max_batch_lines
           (Z.of_nat (length (records (unread fin)))).
Proof.
  intros Hfl Hmax Hin Hsmall.
  destruct (run_spec sha256 env Hfl max_batch_lines Hmax (2 ^ 32)) with (fin := fin)
    as [t (Hrun & Hdisp)]; try done; try lia.
  { eapply Forall_impl; [exact Hsmall|]. simpl. intros. lia. }
  exists t. split; [|done]. rewrite Hrun. do 2 f_equal.
  apply Forall_bind_ext. eapply Forall_impl; [exact Hsmall|].
  simpl. intros r Hr. unfold digest_line, record_line. by rewrite stored_small.
Qed.

Lemma dispatches_bootstrap t :
  dispatches (EvOpenInput :: EvCreateOutput :: bootstrap_events ++ t)
  = dispatches t.
Proof. reflexivity. Qed.

(** ** Counting lines *)

Lemma count_newlines_app l1 l2 :
  count_newlines (l1 ++ l2) = (count_newlines l1 + count_newlines l2)%nat.
Proof. induction l1 as [|c l1 IH]; simpl; [done|]. rewrite IH. lia. Qed.

Lemma lowercase_hex_not_newline c : lowercase_hex c -> Ascii.eqb c newline = false.
Proof.
  unfold lowercase_hex. intros H.
  assert (Hall : Forall (fun c => Ascii.eqb c newline = false)
                   (list_ascii_of_string "0123456789abcdef")).
  { simpl. repeat constructor. }
  rewrite Forall_forall in Hall. by apply Hall.
Qed.

Lemma count_newlines_hex hex :
  Forall lowercase_hex hex -> count_newlines hex = 0%nat.
Proof.
  induction 1 as [|c hex Hc _ IH]; [done|].
  simpl. by rewrite lowercase_hex_not_newline, IH.
Qed.

Lemma count_newlines_hex_line ws : count_newlines (hex_line ws) = 1%nat.
Proof.
  destruct (hex_line_shape ws) as (hex & -> & _ & Hhex).
  rewrite count_newlines_app, count_newlines_hex by done. reflexivity.
Qed.

Lemma count_newlines_lines {A} (f : A -> list Z) (l : list A) :
  count_newlines (l ≫= (fun x => hex_line (f x))) = length l
  /\ length (l ≫= (fun x => hex_line (f x))) = (65 * length l)%nat.
Proof.
  induction l as [|x l [IH1 IH2]]; [done|].
  rewrite bind_cons, count_newlines_app, length_app, IH1, IH2,
    count_newlines_hex_line.
  destruct (hex_line_shape (f x)) as (hex & -> & Hlen & _).
  rewrite length_app, Hlen. simpl. lia.
Qed.

Lemma records_line_count data : length (records data) = line_count data.
Proof.
  unfold line_count. induction data as [|c rest IH]; [reflexivity|].
  cbn [records count_newlines].
  destruct rest as [|c' rest'].
  - simpl. destruct (Ascii.eqb c newline); reflexivity.
  - change (last (c :: c' :: rest')) with (last (c' :: rest')).
    destruct (Ascii.eqb c newline).
    + cbn [length]. rewrite IH. lia.
    + pose proof (records_nil (c' :: rest')) as Hnil.
      destruct (records (c' :: rest')) as [|r rs].
      * destruct Hnil as [Hnil _]. by specialize (Hnil eq_refl).
      * cbn [length] in *. rewrite IH. lia.
Qed.

(** ** The shape of a run, whatever the records hold *)

Section Shape.

Variable sha256 : list ascii -> list Z.
Variable env : environment.
Hypothesis Hfl : faultless env.
Variable max_batch_lines : Z.
Hypothesis Hmax : 0 < max_batch_lines < 2 ^ 32.

(** The batch loop appends one line of 64 characters and a line terminator
    for each record left on the stream, and dispatches the records in
    batches of [max_batch_lines]. *)
Lemma batch_loop_shape :
  forall fuel fin batch_index w,
    (length (records (unread fin)) < fuel)%nat ->
    Forall (fun r => record_len r <= SSIZE_MAX) (records (unread fin)) ->
    exists lines t,
      batch_loop sha256 fuel env max_batch_lines fin batch_index w
      = (Go tt,
         mkWorld ((fun out => out ++ lines) <$> out_file w) (trace w ++ t))
      /\ count_newlines lines = length (records (unread fin))
      /\ length lines = (65 * length (records (unread fin)))%nat
      /\ dispatches t
         = expected_dispatches max_batch_lines
             (Z.of_nat (length (records (unread fin)))).
Proof using All.
  induction fuel as [|fuel IH]; intros fin batch_index [o t0] Hfuel Hin; [lia|].
  cbn [batch_loop].
  destruct (accumulate_spec
              (line_copy_ok env (to_uint32 (batch_index + 1)))
              max_batch_lines fin (fl_copy env Hfl _) Hmax Hin)
    as [fin' (Hacc & Hrest & _)].
  rewrite Hacc.
  set (recs := records (unread fin)) in *.
  set (m := Nat.min (Z.to_nat max_batch_lines) (length recs)) in *.
  assert (length (take m recs) = m) as Hm by (rewrite length_take; lia).
  cbn [batch_of num_msgs]. rewrite Hm.
  destruct (Z.of_nat m =? 0) eqn:E.
  - assert (recs = []) as Hnil by (apply nil_length_inv; lia).
    rewrite Hnil. exists [], []. cbn [out_file trace length].
    rewrite fmap_app_nil, app_nil_r. repeat split; reflexivity.
  - assert (0 < m)%nat as Hpos by lia.
    unfold bind. fold (batch_of fin' (take m recs)).
    rewrite (process_batch_ok sha256 env Hfl).
    change (fin_after (batch_of fin' (take m recs))) with fin'.
    match goal with
    | |- context [batch_loop _ _ _ _ ?f ?i ?w'] =>
        destruct (IH f i w') as (lines & t & Hloop & Hcount & Hlen & Hdisp)
    end.
    { rewrite Hrest, length_drop. lia. }
    { rewrite Hrest. by apply Forall_drop. }
    rewrite Hloop. cbn [out_file trace batch_of num_msgs max_len lens_host].
    rewrite Hm. rewrite Hrest, length_drop in Hcount, Hlen, Hdisp.
    match goal with
    | |- context [emit ?d (Z.of_nat m)] => set (digests_host := d)
    end.
    destruct (count_newlines_lines (slot_words digests_host) (seq 0 m))
      as [Hc Hl]. rewrite length_seq in Hc, Hl.
    exists ((i ← seq 0 m; hex_line (slot_words digests_host i)) ++ lines),
           (batch_events (Z.of_nat m)
              (to_uint32
                 (compute_stride (Z.max 0 (Z.of_nat (max_list (length <$> take m recs)))) / 4))
            ++ t).
    split; [|split; [|split]].
    + f_equal. f_equal.
      * destruct o as [out|]; [|reflexivity]. simpl. f_equal.
        unfold emit. rewrite Nat2Z.id.
        rewrite (emit_loop_spec digests_host m 0%nat) by (simpl; lia).
        by rewrite <- app_assoc.
      * by rewrite <- app_assoc.
    + rewrite count_newlines_app, Hc, Hcount. lia.
    + rewrite length_app, Hl, Hlen. lia.
    + unfold dispatches in *. rewrite omap_app, Hdisp. simpl.
      rewrite (expected_dispatches_step max_batch_lines (Z.of_nat (length recs)))
        by lia.
      replace (Z.min max_batch_lines (Z.of_nat (length recs))) with (Z.of_nat m) by lia.
      do 3 f_equal. lia.
Qed.

(** A run that meets no failure exits with status 0, having written one
    line per record of the input and dispatched the records in batches of
    [max_batch_lines]. *)
Lemma run_shape fin :
  input_file env = Some fin ->
  Forall (fun r => record_len r <= SSIZE_MAX) (records (unread fin)) ->
  exists lines t,
    run_with sha256 max_batch_lines env
    = mkRun 0 (Some lines)
        (EvOpenInput :: EvCreateOutput :: bootstrap_events ++ t)
    /\ count_newlines lines = length (records (unread fin))
    /\ length lines = (65 * length (records (unread fin)))%nat
    /\ dispatches t
       = expected_dispatches max_batch_lines
           (Z.of_nat (length (records (unread fin)))).
Proof using All.
  intros Hin Hrec. unfold run_with, main_with.
  rewrite (fl_argc env Hfl), Hin, (fl_output env Hfl).
  change (3 =? 3) with true.
  unfold bind, guard, ret, log, create_output. cbn [out_file trace app].
  rewrite bootstrap_ok by done. cbn [out_file trace].
  destruct (batch_loop_shape (S (length (unread fin))) fin 0
              (mkWorld (Some []) ([EvOpenInput; EvCreateOutput] ++ bootstrap_events)))
    as (lines & t & Hloop & Hshape); [|done|].
  { pose proof (records_length_le (unread fin)). lia. }
  rewrite Hloop. exists lines, t. split; [|done]. reflexivity.
Qed.

End Shape.

(** ** Decoding a rendered word *)

Lemma digit_value_hex_digit d : 0 <= d < 16 -> digit_value (hex_digit d) = d.
Proof.
  intros H.
  assert (Hcases : d = 0 \/ d = 1 \/ d = 2 \/ d = 3 \/ d = 4 \/ d = 5 \/ d = 6
    \/ d = 7 \/ d = 8 \/ d = 9 \/ d = 10 \/ d = 11 \/ d = 12 \/ d = 13
    \/ d = 14 \/ d = 15) by lia.
  repeat (destruct Hcases as [-> | Hcases]; [reflexivity|]).
  subst d. reflexivity.
Qed.

(** A 32-bit word is the value of its 8 hexadecimal digits, the most
    significant first. *)
Lemma word_of_hex_of_word v : 0 <= v < 2 ^ 32 -> word_of_hex (hex_of_word v) = v.
Proof.
  intros Hv. unfold hex_of_word, word_of_hex.
  cbn [seq fmap list_fmap fold_left Z.of_nat Z.sub Z.add Z.opp Z.pos_sub
       Pos.of_succ_nat Pos.succ Z.mul].
  rewrite !digit_value_hex_digit by (apply Z.mod_pos_bound; lia).
  set (a := fun k => v / 16 ^ k).
  assert (Hstep : forall k, 0 <= k -> a k = 16 * a (k + 1) + a k mod 16).
  { intros k Hk. unfold a. rewrite Z.pow_add_r, Z.pow_1_r by lia.
    rewrite <- Z.div_div by lia. apply Z.div_mod. lia. }
  assert (H8 : a 8 = 0) by (unfold a; apply Z.div_small; lia).
  assert (Ha0 : a 0 = v) by (unfold a; apply Z.div_1_r).
  pose proof (Hstep 0 ltac:(lia)) as H0. pose proof (Hstep 1 ltac:(lia)) as H1.
  pose proof (Hstep 2 ltac:(lia)) as H2. pose proof (Hstep 3 ltac:(lia)) as H3.
  pose proof (Hstep 4 ltac:(lia)) as H4. pose proof (Hstep 5 ltac:(lia)) as H5.
  pose proof (Hstep 6 ltac:(lia)) as H6. pose proof (Hstep 7 ltac:(lia)) as H7.
  change (v / 16 ^ (7 - Z.of_nat 0)) with (a 7).
  change (v / 16 ^ (7 - Z.of_nat 1)) with (a 6).
  change (v / 16 ^ (7 - Z.of_nat 2)) with (a 5).
  change (v / 16 ^ (7 - Z.of_nat 3)) with (a 4).
  change (v / 16 ^ (7 - Z.of_nat 4)) with (a 3).
  change (v / 16 ^ (7 - Z.of_nat 5)) with (a 2).
  change (v / 16 ^ (7 - Z.of_nat 6)) with (a 1).
  change (v / 16 ^ (7 - Z.of_nat 7)) with (a 0).
  change (0 + 1) with 1 in H0. change (1 + 1) with 2 in H1.
  change (2 + 1) with 3 in H2. change (3 + 1) with 4 in H3.
  change (4 + 1) with 5 in H4. change (5 + 1) with 6 in H5.
  change (6 + 1) with 7 in H6. change (7 + 1) with 8 in H7.
  clearbody a. lia.
Qed.

Lemma default_in_range (digests_host : list Z) k :
  Forall (fun v => 0 <= v < 2 ^ 32) digests_host ->
  0 <= default 0 (digests_host !! k) < 2 ^ 32.
Proof.
  intros Hall. destruct (digests_host !! k) as [v|] eqn:Hk; simpl; [|lia].
  rewrite Forall_forall in Hall. apply Hall.
  by eapply list_elem_of_lookup_2.
Qed.

Lemma max_batch_lines_range : 0 < MAX_BATCH_LINES < 2 ^ 32.
Proof. unfold MAX_BATCH_LINES. lia. Qed.

Lemma count_newlines_snoc data :
  line_count (data ++ [newline]) = count_newlines (data ++ [newline]).
Proof. unfold line_count. rewrite last_snoc. simpl. lia. Qed.

Lemma expected_dispatches_positive maxb n :
  0 < maxb -> 0 <= n ->
  Forall (fun d => 0 < d <= maxb) (expected_dispatches maxb n).
Proof.
  intros Hm Hn. unfold expected_dispatches. apply Forall_app. split.
  - apply Forall_replicate. lia.
  - pose proof (Z.mod_pos_bound n maxb Hm).
    destruct (n mod maxb =? 0) eqn:E; constructor; [lia|constructor].
Qed.

Lemma expected_dispatches_exact maxb q :
  0 < maxb -> 0 <= q ->
  expected_dispatches maxb (q * maxb) = replicate (Z.to_nat q) maxb.
Proof.
  intros Hm Hq. unfold expected_dispatches.
  rewrite Z.div_mul, Z.mod_mul by lia. simpl. apply app_nil_r.
Qed.

(** The packed buffer of a batch whose records fit the 32-bit length
    array has [num_msgs * stride] bytes; slot [i] holds the bytes of record
    [i] followed by zeros only, and entry [i] of the length array is the
    length of the record. *)
Lemma packed_buffer_layout
    (ok : Z -> bool) (max_batch_lines : Z) (fin : FILE) (b : batch) :
  (forall k, ok k = true) ->
  0 < max_batch_lines < 2 ^ 32 ->
  Forall (fun r => record_len r < 2 ^ 32) (records (unread fin)) ->
  accumulate ok max_batch_lines fin = Go b ->
  let stride := compute_stride (max_len b) in
  let msgs_bytes := pack b stride in
  Z.of_nat (length msgs_bytes) = num_msgs b * stride
  /\ Z.of_nat (length (line_bufs b)) = num_msgs b
  /\ length (lens_host b) = length (line_bufs b)
  /\ forall i r,
       line_bufs b !! i = Some r ->
       let slot_i :=
         take (Z.to_nat stride) (drop (i * Z.to_nat stride) msgs_bytes) in
       length slot_i = Z.to_nat stride
       /\ take (length r) slot_i = r
       /\ drop (length r) slot_i = replicate (Z.to_nat stride - length r) NUL
       /\ lens_host b !! i = Some (Z.of_nat (length r)).
Proof.
  intros Hok Hmax Hsmall Hacc stride msgs_bytes.
  assert (Hsz : Forall (fun r => record_len r <= SSIZE_MAX) (records (unread fin))).
  { eapply Forall_impl; [exact Hsmall|]. simpl. unfold SSIZE_MAX. intros. lia. }
  destruct (accumulate_spec ok max_batch_lines fin Hok Hmax Hsz)
    as [fin' (Heq & _)].
  rewrite Hacc in Heq. injection Heq as ->.
  set (m := Nat.min _ _) in *. set (recs := take m _) in *.
  assert (Hlen : (length recs <= Z.to_nat max_batch_lines)%nat).
  { subst recs. rewrite length_take. lia. }
  assert (Hrecs : Forall (fun r => record_len r < 2 ^ 32) recs)
    by (by apply Forall_take).
  assert (Hin : within (2 ^ 32) recs).
  { eapply Forall_impl; [exact Hrecs|]. simpl. intros. lia. }
  destruct (max_list_bound (2 ^ 32) recs Hin) as [Hml Hall].
  rewrite (Z.max_r 0 (2 ^ 32)) in Hml by lia.
  subst stride msgs_bytes. cbn [batch_of max_len line_bufs lens_host num_msgs] in *.
  set (ml := Z.max 0 (Z.of_nat (max_list (length <$> recs)))) in *.
  destruct (compute_stride_bound ml (2 ^ 32)) as (Hs1 & Hs2 & Hs3);
    [lia | reflexivity | unfold SSIZE_MAX; lia |].
  set (stride := compute_stride ml) in *.
  assert (Hfit : Forall (fun r => Z.of_nat (length (stored r)) <= stride) recs).
  { eapply Forall_impl; [exact Hall|]. simpl. intros r Hr.
    rewrite stored_length. pose proof (to_uint32_le (record_len r)).
    unfold record_len in *. lia. }
  fold (batch_of fin' recs).
  unfold batch_of. rewrite pack_spec by (try done; nia).
  rewrite slots_length by done.
  split; [nia|]. split; [reflexivity|].
  split; [unfold lens_of; by rewrite length_fmap|].
  intros i r Hi. cbn zeta.
  rewrite drop_slots by done. rewrite (drop_S _ _ _ Hi), bind_cons.
  assert (Hslot : length (slot stride r) = Z.to_nat stride).
  { apply slot_length. rewrite Forall_forall in Hfit. apply Hfit.
    by eapply list_elem_of_lookup_2. }
  rewrite take_app_length' by done.
  assert (Hr : record_len r < 2 ^ 32).
  { rewrite Forall_forall in Hrecs. apply Hrecs. by eapply list_elem_of_lookup_2. }
  split; [done|]. unfold slot. rewrite (stored_small r Hr).
  split; [apply take_app_length|]. split; [apply drop_app_length|].
  unfold lens_of. rewrite list_lookup_fmap, Hi. simpl. f_equal.
  apply to_uint32_small. unfold record_len in *. lia.
Qed.

(** ** Records longer than the 32-bit length array can say *)

Lemma records_no_delimiter (l : list ascii) :
  l <> [] -> newline ∉ l -> records l = [l].
Proof.
  induction l as [|c l IH]; [done|]. intros _ Hnot.
  apply not_elem_of_cons in Hnot as [Hc Hl].
  cbn [records]. destruct (Ascii.eqb c newline) eqn:E.
  { apply eqb_newline in E. congruence. }
  destruct l as [|c' l']; [reflexivity|].
  rewrite IH by done. reflexivity.
Qed.

(** A record of exactly 2^32 bytes gets the length 0, an all-zero slot and
    the output line of the empty message. *)
Lemma truncated_record sha256 env (l : list ascii) e :
  faultless env ->
  input_file env = Some (mkFILE l e) ->
  newline ∉ l ->
  record_len l = 2 ^ 32 ->
  (exists b,
     accumulate (line_copy_ok env 1) MAX_BATCH_LINES (mkFILE l e) = Go b
     /\ line_bufs b = [l] /\ lens_host b = [0]
     /\ compute_stride (max_len b) = 2 ^ 32
     /\ pack b (compute_stride (max_len b)) = replicate (Z.to_nat (2 ^ 32)) NUL)
  /\ exit_code (main sha256 env) = 0
  /\ output (main sha256 env) = Some (hex_line (digest_words sha256 [])).
Proof.
  intros Hfl Hin Hnot Hlen.
  assert (Hne : l <> []).
  { intros ->. unfold record_len in Hlen. simpl in Hlen. lia. }
  assert (Hrecs : records l = [l]) by (by apply records_no_delimiter).
  assert (Hstored : stored l = []).
  { unfold stored. rewrite Hlen. change (to_uint32 (2 ^ 32)) with 0. apply take_0. }
  split.
  - destruct (accumulate_spec (line_copy_ok env 1) MAX_BATCH_LINES (mkFILE l e))
      as [fin' (Heq & _)].
    + apply (fl_copy env Hfl).
    + apply max_batch_lines_range.
    + cbn [unread]. rewrite Hrecs. constructor; [|constructor].
      rewrite Hlen. unfold SSIZE_MAX. lia.
    + cbn [unread] in Heq. rewrite Hrecs in Heq.
      assert (Nat.min (Z.to_nat MAX_BATCH_LINES) (length [l]) = 1%nat) as Hm.
      { pose proof max_batch_lines_range. cbn [length]. lia. }
      rewrite Hm in Heq. cbn [take] in Heq.
      eexists. split; [exact Heq|].
      cbn [batch_of line_bufs lens_host max_len num_msgs].
      split; [reflexivity|].
      assert (Hml : Z.max 0 (Z.of_nat (max_list (length <$> [l]))) = 2 ^ 32).
      { rewrite fmap_cons. cbn [fmap list_fmap max_list]. unfold id.
        unfold record_len in Hlen. lia. }
      rewrite Hml.
      split; [unfold lens_of; rewrite fmap_cons; cbn [compose fmap list_fmap];
              rewrite Hlen; reflexivity|].
      split; [reflexivity|].
      change (Z.of_nat (length [l])) with 1.
      change 1 with (Z.of_nat (length [l])).
      change (compute_stride (2 ^ 32)) with (2 ^ 32).
      unfold batch_of. rewrite pack_spec.
      * rewrite bind_cons. cbn [mbind list_bind]. rewrite app_nil_r.
        unfold slot. rewrite Hstored. cbn [app length].
        rewrite Nat.sub_0_r. reflexivity.
      * lia.
      * cbn [length]. lia.
      * cbn [length]. lia.
      * constructor; [|constructor]. rewrite Hstored. cbn [length]. lia.
  - unfold main.
    destruct (run_spec sha256 env Hfl MAX_BATCH_LINES max_batch_lines_range
                (2 ^ 32)) with (fin := mkFILE l e) as [t (Hrun & _)].
    + reflexivity.
    + lia.
    + unfold MAX_BATCH_LINES. lia.
    + done.
    + cbn [unread]. rewrite Hrecs. constructor; [|constructor]. lia.
    + rewrite Hrun. cbn [exit_code output unread]. split; [reflexivity|].
      rewrite Hrecs, bind_cons. cbn [mbind list_bind]. rewrite app_nil_r.
      unfold digest_line. rewrite Hstored. reflexivity.
Qed.

Lemma huge_line_length : record_len huge_line = 2 ^ 32.
Proof.
  unfold record_len, huge_line. rewrite length_replicate.
  apply Z2Nat.id. lia.
Qed.

Lemma huge_line_no_delimiter : newline ∉ huge_line.
Proof.
  unfold huge_line. intros H. apply elem_of_replicate in H as [H _].
  discriminate.
Qed.

(** ** Read errors *)

Lemma getline_with_read_error e fin :
  getline (with_read_error e fin)
  = let '(linelen, line, fin') := getline fin in
    (linelen, line, with_read_error e fin').
Proof.
  destruct fin as [data err].
  unfold getline, with_read_error. cbn [unread read_error].
  destruct data as [|c rest]; [reflexivity|].
  destruct (getdelim (c :: rest)). reflexivity.
Qed.

Lemma read_batch_with_read_error e ok maxb fuel :
  forall b,
    read_batch fuel ok maxb (batch_with_read_error e b)
    = step_map (batch_with_read_error e) (read_batch fuel ok maxb b).
Proof.
  induction fuel as [|fuel IH]; intros b; [reflexivity|].
  cbn [read_batch]. cbn [batch_with_read_error num_msgs fin_after max_len
                           line_bufs lens_host].
  destruct (maxb <=? num_msgs b); [reflexivity|].
  rewrite getline_with_read_error.
  destruct (getline (fin_after b)) as [[linelen line] fin'].
  destruct (linelen <? 0); [reflexivity|].
  destruct (negb (ok (num_msgs b))); [reflexivity|].
  rewrite <- IH. reflexivity.
Qed.

Lemma accumulate_with_read_error e ok maxb fin :
  accumulate ok maxb (with_read_error e fin)
  = step_map (batch_with_read_error e) (accumulate ok maxb fin).
Proof.
  unfold accumulate. rewrite <- read_batch_with_read_error. reflexivity.
Qed.

Section SameCalls.

Variable sha256 : list ascii -> list Z.
Variables env env' : environment.
Hypothesis Hcl : cl_status env' = cl_status env.
Hypothesis Halloc : alloc_ok env' = alloc_ok env.
Hypothesis Hcopy : line_copy_ok env' = line_copy_ok env.
Hypothesis Hplatforms : platforms env' = platforms env.
Hypothesis Hsource : kernel_source_readable env' = kernel_source_readable env.

Lemma process_batch_same e batch_index b :
  process_batch sha256 env' batch_index (batch_with_read_error e b)
  = process_batch sha256 env batch_index b.
Proof.
  unfold process_batch, set_kernel_arg, invoke. rewrite Hcl, Halloc.
  destruct b. reflexivity.
Qed.

Lemma bootstrap_same : bootstrap env' = bootstrap env.
Proof.
  unfold bootstrap, invoke. by rewrite Hcl, Halloc, Hplatforms, Hsource.
Qed.

Lemma batch_loop_same e maxb :
  forall fuel fin batch_index w,
    batch_loop sha256 fuel env' maxb (with_read_error e fin) batch_index w
    = batch_loop sha256 fuel env maxb fin batch_index w.
Proof.
  induction fuel as [|fuel IH]; intros fin batch_index w; [reflexivity|].
  cbn [batch_loop]. rewrite Hcopy, accumulate_with_read_error.
  destruct (accumulate _ maxb fin) as [b|c]; [|reflexivity].
  cbn [step_map batch_with_read_error num_msgs fin_after].
  destruct (num_msgs b =? 0); [reflexivity|].
  fold (batch_with_read_error e b). rewrite process_batch_same.
  unfold bind. destruct (process_batch _ _ _ _ w) as [[[]|c] w']; [|reflexivity].
  apply IH.
Qed.

End SameCalls.

(** A stream that ends in a read error is processed as the stream of the
    same bytes that ends at end of file. *)
Lemma run_with_read_error sha256 maxb env fin e :
  run_with sha256 maxb (with_input env (Some (with_read_error e fin)))
  = run_with sha256 maxb (with_input env (Some fin)).
Proof.
  unfold run_with, main_with.
  cbn [with_input argc input_file output_before output_creatable].
  rewrite (bootstrap_same (with_input env (Some fin))
             (with_input env (Some (with_read_error e fin)))) by reflexivity.
  unfold bind.
  destruct (guard (argc env =? 3) _) as [[[]|c] w0]; [|reflexivity].
  destruct (log EvOpenInput w0) as [[[]|c] w1]; [|reflexivity].
  destruct (guard (output_creatable env) w1) as [[[]|c] w2]; [|reflexivity].
  destruct (create_output w2) as [[[]|c] w3]; [|reflexivity].
  destruct (bootstrap _ w3) as [[[]|c] w4]; [|reflexivity].
  cbn [with_read_error unread].
  change (mkFILE (unread fin) e) with (with_read_error e fin).
  rewrite (batch_loop_same sha256 (with_input env (Some fin))
             (with_input env (Some (with_read_error e fin)))) by reflexivity.
  reflexivity.
Qed.

Lemma faultless_with_input env o : faultless env -> faultless (with_input env o).
Proof. intros [H1 H2 H3 H4 H5 H6 H7]. by constructor. Qed.

(** ** The output file and the dispatches across failures *)

Lemma quiet_ret {A} (a : A) : quiet (ret a).
Proof.
  intros [o t]. exists (Go a), []. rewrite app_nil_r.
  split; [done|]. split; [constructor|discriminate].
Qed.

Lemma quiet_exit {A} : quiet (@exit_with A 1).
Proof.
  intros [o t]. exists (Exit 1), []. rewrite app_nil_r.
  split; [done|]. split; [constructor|]. by intros c [= <-].
Qed.

Lemma quiet_log e : nonempty_dispatch e -> quiet (log e).
Proof.
  intros He w. exists (Go tt), [e].
  split; [done|]. split; [by repeat constructor|discriminate].
Qed.

Lemma quiet_guard ok : quiet (guard ok).
Proof. destruct ok; [apply quiet_ret|apply quiet_exit]. Qed.

Lemma quiet_bind {A B} (m : proc A) (k : A -> proc B) :
  quiet m -> (forall a, quiet (k a)) -> quiet (bind m k).
Proof.
  intros Hm Hk w. unfold bind.
  destruct (Hm w) as (s & t & -> & Ht & Hs). destruct s as [a|c].
  - destruct (Hk a (mkWorld (out_file w) (trace w ++ t)))
      as (s' & t' & -> & Ht' & Hs').
    exists s', (t ++ t'). cbn [out_file trace]. rewrite app_assoc.
    split; [done|]. split; [by apply Forall_app|done].
  - exists (Exit c), t. split; [done|]. split; [done|].
    intros c' [= <-]. by apply Hs.
Qed.

Lemma quiet_invoke env c i : quiet (invoke env c i).
Proof.
  apply quiet_bind; [by apply quiet_log|]. intros _. apply quiet_ret.
Qed.

Lemma quiet_CHECK_CL (err : proc Z) : quiet err -> quiet (CHECK_CL err).
Proof.
  intros Herr. apply quiet_bind; [exact Herr|]. intros status.
  destruct (status =? CL_SUCCESS); [apply quiet_ret|].
  apply quiet_bind; [exact Herr|]. intros _. apply quiet_exit.
Qed.

Lemma quiet_set_kernel_arg env i value arg :
  quiet (set_kernel_arg env i value arg).
Proof.
  apply quiet_bind; [apply quiet_invoke|]. intros status. apply quiet_ret.
Qed.

Lemma quiet_CHECK_CL_arg (err : Z -> proc (Z * Z)) arg :
  (forall a, quiet (err a)) -> quiet (CHECK_CL_arg err arg).
Proof.
  intros Herr. apply quiet_bind; [apply Herr|]. intros r.
  destruct (r.1 =? CL_SUCCESS); [apply quiet_ret|].
  apply quiet_bind; [apply Herr|]. intros _. apply quiet_exit.
Qed.

Lemma quiet_list_devices p : quiet (list_devices p).
Proof.
  apply quiet_bind; [by apply quiet_log|]. intros _. apply quiet_ret.
Qed.

Lemma quiet_choose_device ps : quiet (choose_device ps).
Proof.
  induction ps as [|p ps IH]; [apply quiet_ret|].
  cbn [choose_device]. destruct (_ || _); [exact IH|].
  apply quiet_bind; [apply quiet_CHECK_CL, quiet_list_devices|].
  intros _. apply quiet_ret.
Qed.

Ltac quiet_steps :=
  repeat first
    [ apply quiet_CHECK_CL | apply quiet_invoke
    | (apply quiet_CHECK_CL_arg; intros ?) | apply quiet_set_kernel_arg
    | apply quiet_guard
    | (apply quiet_log; first [exact I | assumption])
    | apply quiet_ret | apply quiet_choose_device
    | match goal with
      | |- quiet (if ?c then _ else _) => destruct c
      end
    | (apply quiet_bind; [|intros ?]) ].

Lemma quiet_bootstrap env : quiet (bootstrap env).
Proof. unfold bootstrap. quiet_steps. Qed.

Lemma quiet_steady {A} (m : proc A) : quiet m -> steady m.
Proof.
  intros Hm w. destruct (Hm w) as (s & t & -> & Ht & Hs).
  exists s, id, t. by rewrite option_fmap_id.
Qed.

Lemma steady_bind {A B} (m : proc A) (k : A -> proc B) :
  steady m -> (forall a, steady (k a)) -> steady (bind m k).
Proof.
  intros Hm Hk w. unfold bind.
  destruct (Hm w) as (s & f & t & -> & Ht & Hs). destruct s as [a|c].
  - destruct (Hk a (mkWorld (f <$> out_file w) (trace w ++ t)))
      as (s' & f' & t' & -> & Ht' & Hs').
    exists s', (f' ∘ f), (t ++ t'). cbn [out_file trace].
    rewrite app_assoc, option_fmap_compose.
    split; [done|]. split; [by apply Forall_app|done].
  - exists (Exit c), f, t. split; [done|]. split; [done|].
    intros c' [= <-]. by apply Hs.
Qed.

Lemma steady_write_output f : steady (write_output f).
Proof.
  intros w. exists (Go tt), f, []. rewrite app_nil_r.
  split; [done|]. split; [constructor|discriminate].
Qed.

Lemma steady_process_batch sha256 env batch_index b :
  0 < num_msgs b ->
  steady (process_batch sha256 env batch_index b).
Proof.
  intros Hpos. unfold process_batch. cbn zeta.
  repeat (apply steady_bind; [apply quiet_steady; quiet_steps | intros ?]).
  apply steady_write_output.
Qed.

(** The accumulator counts from 0 upwards and exits with status 1 only. *)
Lemma read_batch_outcome ok maxb :
  forall fuel b,
    0 <= num_msgs b ->
    match read_batch fuel ok maxb b with
    | Go b' => 0 <= num_msgs b'
    | Exit c => c = 1
    end.
Proof.
  induction fuel as [|fuel IH]; intros b Hb; [done|].
  cbn [read_batch]. destruct (maxb <=? num_msgs b); [done|].
  destruct (getline (fin_after b)) as [[linelen line] fin'].
  destruct (linelen <? 0); [done|].
  destruct (negb _); [done|]. apply IH. cbn [num_msgs].
  apply to_uint32_range.
Qed.

Lemma steady_batch_loop sha256 env maxb :
  forall fuel fin batch_index,
    steady (batch_loop sha256 fuel env maxb fin batch_index).
Proof.
  induction fuel as [|fuel IH]; intros fin batch_index;
    [apply quiet_steady, quiet_ret|].
  cbn [batch_loop].
  pose proof (read_batch_outcome
                (line_copy_ok env (to_uint32 (batch_index + 1))) maxb
                (S (length (unread fin))) (mkBatch fin 0 0 [] [])) as Hout.
  fold (accumulate (line_copy_ok env (to_uint32 (batch_index + 1))) maxb fin)
    in Hout.
  destruct (accumulate _ maxb fin) as [b|c].
  - destruct (num_msgs b =? 0) eqn:E; [apply quiet_steady, quiet_ret|].
    apply steady_bind; [|intros _; apply IH].
    apply steady_process_batch. cbn [num_msgs] in Hout. lia.
  - rewrite Hout by (cbn [num_msgs]; lia). apply quiet_steady, quiet_exit.
Qed.

Lemma dispatches_nonempty t :
  Forall nonempty_dispatch t -> Forall (fun d => 0 < d) (dispatches t).
Proof.
  induction 1 as [|e t He _ IH]; [constructor|].
  unfold dispatches in *. destruct e; simpl; try done. by constructor.
Qed.

(** Every run, whatever fails: it ends with status 0 or 1, dispatches no
    empty batch, and its calls start with the opening of the two files if
    it makes any call beyond them. *)
Lemma run_outline sha256 maxb env :
  exists c o t,
    run_with sha256 maxb env = mkRun c o t
    /\ Forall nonempty_dispatch t
    /\ (c = 0 \/ c = 1)
    /\ ((t = [] \/ t = [EvOpenInput]) /\ o = output_before env
        \/ exists t' content,
             t = EvOpenInput :: EvCreateOutput :: t' /\ o = Some content).
Proof.
  unfold run_with, main_with.
  unfold bind, guard, ret, exit_with, log, create_output.
  cbn [out_file trace app].
  destruct (argc env =? 3).
  2:{ eexists _, _, _. split; [reflexivity|]. split; [constructor|].
      split; [by right|]. left. split; [by left|done]. }
  destruct (input_file env) as [fin|].
  2:{ eexists _, _, _. split; [reflexivity|]. split; [constructor|].
      split; [by right|]. left. split; [by left|done]. }
  destruct (output_creatable env).
  2:{ eexists _, _, _. split; [reflexivity|]. split; [by repeat constructor|].
      split; [by right|]. left. split; [by right|done]. }
  destruct (quiet_bootstrap env (mkWorld (Some []) [EvOpenInput; EvCreateOutput]))
    as (s & t & Hboot & Ht & Hs).
  cbn [out_file trace app].
  rewrite Hboot. cbn [out_file trace app] in *. destruct s as [[]|c].
  - destruct (steady_batch_loop sha256 env maxb
                (S (length (unread fin))) fin 0
                (mkWorld (Some []) (EvOpenInput :: EvCreateOutput :: t)))
      as (s' & f & t' & Hloop & Ht' & Hs').
    rewrite Hloop. cbn [out_file trace app fmap option_fmap option_map] in *.
    assert (Hall : Forall nonempty_dispatch
                     (EvOpenInput :: EvCreateOutput :: t ++ t')).
    { repeat constructor. by apply Forall_app. }
    destruct s' as [[]|c].
    + eexists _, _, _. split; [reflexivity|]. split; [done|].
      split; [by left|]. right. by eexists _, _.
    + rewrite (Hs' c eq_refl).
      eexists _, _, _. split; [reflexivity|]. split; [done|].
      split; [by right|]. right. by eexists _, _.
  - rewrite (Hs c eq_refl).
    eexists _, _, _. split; [reflexivity|]. split; [by repeat constructor|].
    split; [by right|]. right. by eexists _, _.
Qed.

Lemma bind_go {A B} (m : proc A) (k : A -> proc B) w b w' :
  bind m k w = (Go b, w') ->
  exists a w1, m w = (Go a, w1) /\ k a w1 = (Go b, w').
Proof.
  unfold bind. destruct (m w) as [[a|c] w1]; [|discriminate].
  intros H. by exists a, w1.
Qed.

Lemma guard_go ok w a w' : guard ok w = (Go a, w') -> ok = true.
Proof. by destruct ok. Qed.

Lemma CHECK_CL_go (err : proc Z) w a w' :
  CHECK_CL err w = (Go a, w') ->
  exists w1, err w = (Go CL_SUCCESS, w1).
Proof.
  unfold CHECK_CL. intros H. apply bind_go in H as (status & w1 & Herr & H).
  destruct (Z.eqb_spec status CL_SUCCESS) as [->|_]; [by exists w1|].
  apply bind_go in H as (? & ? & _ & H). discriminate H.
Qed.

(** A step that went on passed its test. *)
Ltac went_on H :=
  first [ rewrite bind_CHECK_CL_invoke in H
        | rewrite bind_invoke, bind_CHECK_CL_ret in H
        | rewrite bind_guard in H ];
  match type of H with
  | (if ?c then _ else _) = _ => destruct c eqn:?; [|discriminate H]
  end.

Lemma choose_device_none ps w :
  first_usable ps = None -> choose_device ps w = (Go false, w).
Proof.
  induction ps as [|p ps IH]; [done|]. cbn [first_usable choose_device].
  unfold usable. cbn zeta.
  destruct (fst (count_devices p) =? CL_SUCCESS);
    destruct (snd (count_devices p) =? 0); simpl; auto; discriminate.
Qed.

(** When the bootstrap lets the run continue, a device was found, the
    kernel was built and the batch metadata was allocated. *)
Lemma bootstrap_go env w a w' :
  bootstrap env w = (Go a, w') ->
  first_usable (platforms env) <> None
  /\ cl_status env BuildProgram 0 = CL_SUCCESS
  /\ alloc_ok env AllocBatchMetadata 0 = true.
Proof.
  unfold bootstrap. intros H.
  do 3 went_on H.
  apply bind_go in H as (found & w2 & Hdev & H).
  rewrite bind_guard in H. destruct found; [|discriminate H].
  do 4 went_on H.
  rewrite bind_invoke in H.
  destruct (Z.eqb_spec (cl_status env BuildProgram 0) CL_SUCCESS)
    as [Hbuild|Hbuild].
  2:{ cbn [negb] in H. rewrite bind_CHECK_CL_ret in H.
      destruct (Z.eqb_spec (cl_status env BuildProgram 0) CL_SUCCESS);
        [done|discriminate H]. }
  cbn [negb] in H. unfold bind at 1, ret at 1 in H.
  went_on H. apply guard_go in H.
  split; [|split]; [|done..].
  intros Hnone. rewrite (choose_device_none _ _ Hnone) in Hdev. discriminate.
Qed.

(** ** The model at sample inputs *)

Example compute_stride_samples :
  compute_stride 0 = 64 /\ compute_stride 1 = 64 /\ compute_stride 3 = 64
  /\ compute_stride 64 = 64 /\ compute_stride 65 = 128
  /\ compute_stride 130 = 192.
Proof. repeat split; reflexivity. Qed.

Example emit_abc_digest :
  emit abc_digest 1 []
  = list_ascii_of_string
      "ba7816bf8f01cfea414140de5dae2223b00361a396177a9cb410ff61f20015ad"
    ++ [newline].
Proof. vm_compute. reflexivity. Qed.

Example records_samples :
  records sample_input
  = [list_ascii_of_string "abc"; []; list_ascii_of_string "hello"]
  /\ records (list_ascii_of_string "abc") = [list_ascii_of_string "abc"]
  /\ records [newline] = [[]]
  /\ records [] = []
  /\ line_count sample_input = 3%nat.
Proof. repeat split; reflexivity. Qed.

Example accumulate_sample :
  accumulate (fun _ => true) 2 sample_file
  = Go (mkBatch
          (mkFILE (list_ascii_of_string "hello" ++ [newline]) false)
          2 3 [list_ascii_of_string "abc"; []] [3; 0]).
Proof. vm_compute. reflexivity. Qed.

Example pack_sample :
  pack (mkBatch (mkFILE [] false) 2 3 [list_ascii_of_string "abc"; []] [3; 0])
    64
  = list_ascii_of_string "abc" ++ replicate 125 NUL.
Proof. vm_compute. reflexivity. Qed.

Example run_sample :
  run_with toy_digest 2 (sample_env sample_file)
  = mkRun 0
      (Some (record_line toy_digest (list_ascii_of_string "abc")
             ++ record_line toy_digest []
             ++ record_line toy_digest (list_ascii_of_string "hello")))
      ([EvOpenInput; EvCreateOutput] ++ bootstrap_events
       ++ batch_events 2 16 ++ batch_events 1 16).
Proof. vm_compute. reflexivity. Qed.

Example run_without_device :
  run_with toy_digest 2
    (mkEnv 3 (Some sample_file) (Some (list_ascii_of_string "old")) true []
       true (fun _ _ => CL_SUCCESS) (fun _ _ => true) (fun _ _ => true))
  = mkRun 1 (Some [])
      [EvOpenInput; EvCreateOutput; EvCL GetPlatformIDsCount].
Proof. vm_compute. reflexivity. Qed.

(** ** Facts about the sample inputs *)

Ltac all_by_computation :=
  match goal with
  | |- Forall ?P ?l =>
      let l' := eval vm_compute in l in change (Forall P l')
  end;
  repeat (apply List.Forall_cons;
          [ vm_compute;
            first [ reflexivity | discriminate
                  | split; [discriminate | reflexivity] ] | ]);
  apply List.Forall_nil.

Lemma sample_digests_range : Forall (fun v => 0 <= v < 2 ^ 32) sample_digests.
Proof. all_by_computation. Qed.

Lemma sample_records_small :
  Forall (fun r => record_len r < 2 ^ 32) (records (unread sample_file)).
Proof. all_by_computation. Qed.

Lemma sample_records_ssize :
  Forall (fun r => record_len r <= SSIZE_MAX) (records (unread sample_file)).
Proof. all_by_computation. Qed.

Lemma sample_records_within :
  within (2 ^ 32) (records (unread sample_file)).
Proof. unfold within. all_by_computation. Qed.

Lemma stride_records_small :
  Forall (fun r => record_len r < 2 ^ 32) (records (unread stride_file)).
Proof. all_by_computation. Qed.

Lemma stride_records_ssize :
  Forall (fun r => record_len r <= SSIZE_MAX) (records (unread stride_file)).
Proof. all_by_computation. Qed.

Lemma packed_buffer_layout_sample :
  ((forall k : Z, (fun _ : Z => true) k = true)
   /\ 0 < MAX_BATCH_LINES < 2 ^ 32
   /\ Forall (fun r => record_len r < 2 ^ 32) (records (unread stride_file))
   /\ accumulate (fun _ => true) MAX_BATCH_LINES stride_file = Go stride_batch)
  /\ let stride := compute_stride (max_len stride_batch) in
     let msgs_bytes := pack stride_batch stride in
     Z.of_nat (length msgs_bytes) = num_msgs stride_batch * stride
     /\ Z.of_nat (length (line_bufs stride_batch)) = num_msgs stride_batch
     /\ length (lens_host stride_batch) = length (line_bufs stride_batch)
     /\ forall i r,
          line_bufs stride_batch !! i = Some r ->
          let slot_i :=
            take (Z.to_nat stride) (drop (i * Z.to_nat stride) msgs_bytes) in
          length slot_i = Z.to_nat stride
          /\ take (length r) slot_i = r
          /\ drop (length r) slot_i = replicate (Z.to_nat stride - length r) NUL
          /\ lens_host stride_batch !! i = Some (Z.of_nat (length r)).
Proof.
  assert (H1 : forall k : Z, (fun _ : Z => true) k = true) by reflexivity.
  assert (H4 : accumulate (fun _ => true) MAX_BATCH_LINES stride_file
               = Go stride_batch) by (vm_compute; reflexivity).
  split; [split; [exact H1|split; [exact max_batch_lines_range|split;
         [exact stride_records_small|exact H4]]]|].
  exact (packed_buffer_layout (fun _ => true) MAX_BATCH_LINES stride_file
           stride_batch H1 max_batch_lines_range stride_records_small H4).
Qed.

(** ** The claims *)

(** C1. For a batch of [n] records the emitter appends, for the slots
    0, 1, ..., n-1 of the digest buffer in this order, one line each: the 64
    lowercase hexadecimal characters that render the 8 words of the slot,
    word after word and each word most significant digit first (so that
    every group of 8 characters reads back as its word), followed by one
    line terminator. In a run that meets no failure the lines of the output
    file are the lines of the records of the input in input order. *)
Theorem emitter_writes_slots_in_order
    (digests_host : list Z) (n : Z) (out : list ascii) :
  0 <= n < 2 ^ 32 ->
  Forall (fun v => 0 <= v < 2 ^ 32) digests_host ->
  emit digests_host n out
  = out ++ (i ← seq 0 (Z.to_nat n); hex_line (slot_words digests_host i))
  /\ (forall i, exists hex,
        hex_line (slot_words digests_host i) = hex ++ [newline]
        /\ length hex = 64%nat
        /\ Forall lowercase_hex hex
        /\ forall j, (j < 8)%nat ->
             word_of_hex (take 8 (drop (8 * j) hex))
             = default 0 (digests_host !! (i * 8 + j)%nat))
  /\ (forall sha256 env fin,
        faultless env -> input_file env = Some fin ->
        Forall (fun r => record_len r < 2 ^ 32) (records (unread fin)) ->
        output (main sha256 env)
        = Some (records (unread fin) ≫= record_line sha256)).
Proof.
  intros Hn Hrange. split; [|split].
  - unfold emit.
    rewrite (emit_loop_spec digests_host (Z.to_nat n) 0%nat) by (simpl; lia).
    reflexivity.
  - intros i. exists (slot_words digests_host i ≫= hex_of_word).
    split; [by apply hex_line_words|]. split; [reflexivity|]. split.
    + apply Forall_bind, Forall_forall. intros v _. apply hex_of_word_lowercase.
    + intros j Hj.
      assert (Hv := default_in_range digests_host (i * 8 + j) Hrange).
      destruct j as [|[|[|[|[|[|[|[|j]]]]]]]]; try lia;
        match goal with
        | |- _ = ?v => change (word_of_hex (hex_of_word v) = v)
        end; by apply word_of_hex_of_word.
  - intros sha256 env fin Hfl Hin Hsmall. unfold main.
    destruct (run_small_records sha256 env MAX_BATCH_LINES fin)
      as [t (Hrun & _)]; try done.
    rewrite Hrun. reflexivity.
Qed.

Lemma emitter_writes_slots_in_order_witness :
  (0 <= 2 < 2 ^ 32 /\ Forall (fun v => 0 <= v < 2 ^ 32) sample_digests)
  /\ emit sample_digests 2 []
     = [] ++ (i ← seq 0 (Z.to_nat 2); hex_line (slot_words sample_digests i))
  /\ (forall i, exists hex,
        hex_line (slot_words sample_digests i) = hex ++ [newline]
        /\ length hex = 64%nat
        /\ Forall lowercase_hex hex
        /\ forall j, (j < 8)%nat ->
             word_of_hex (take 8 (drop (8 * j) hex))
             = default 0 (sample_digests !! (i * 8 + j)%nat))
  /\ (forall sha256 env fin,
        faultless env -> input_file env = Some fin ->
        Forall (fun r => record_len r < 2 ^ 32) (records (unread fin)) ->
        output (main sha256 env)
        = Some (records (unread fin) ≫= record_line sha256)).
Proof.
  assert (H1 : 0 <= 2 < 2 ^ 32) by lia.
  split; [split; [exact H1|exact sample_digests_range]|].
  exact (emitter_writes_slots_in_order sample_digests 2 [] H1
           sample_digests_range).
Defined.

(** C2. In a run that meets no failure the number of output lines is the
    number of lines of the input: one per delimiter and one more for a
    last line without delimiter. The run exits with status 0; an empty
    input gives an empty output file; when the input ends with a
    delimiter there are exactly as many output lines as delimiters. *)
Theorem output_lines_match_input_lines
    (sha256 : list ascii -> list Z) (env : environment) (fin : FILE) :
  faultless env ->
  input_file env = Some fin ->
  Forall (fun r => record_len r <= SSIZE_MAX) (records (unread fin)) ->
  exit_code (main sha256 env) = 0
  /\ exists out,
       output (main sha256 env) = Some out
       /\ count_newlines out = line_count (unread fin)
       /\ length out = (65 * line_count (unread fin))%nat
       /\ (unread fin = [] -> out = [])
       /\ (forall data, unread fin = data ++ [newline] ->
             count_newlines out = count_newlines (unread fin)).
Proof.
  intros Hfl Hin Hsz. unfold main.
  destruct (run_shape sha256 env Hfl MAX_BATCH_LINES max_batch_lines_range
              fin Hin Hsz) as (lines & t & Hrun & Hcount & Hlen & _).
  rewrite Hrun. cbn [exit_code output]. split; [reflexivity|].
  exists lines. split; [reflexivity|].
  rewrite records_line_count in Hcount, Hlen.
  split; [done|]. split; [done|]. split.
  - intros Hnil. rewrite Hnil in Hlen. apply nil_length_inv. exact Hlen.
  - intros data Hdata. rewrite Hcount, Hdata. apply count_newlines_snoc.
Qed.

Lemma output_lines_match_input_lines_witness :
  (faultless (sample_env sample_file)
   /\ input_file (sample_env sample_file) = Some sample_file
   /\ Forall (fun r => record_len r <= SSIZE_MAX)
        (records (unread sample_file)))
  /\ exit_code (main toy_digest (sample_env sample_file)) = 0
  /\ exists out,
       output (main toy_digest (sample_env sample_file)) = Some out
       /\ count_newlines out = line_count (unread sample_file)
       /\ length out = (65 * line_count (unread sample_file))%nat
       /\ (unread sample_file = [] -> out = [])
       /\ (forall data, unread sample_file = data ++ [newline] ->
             count_newlines out = count_newlines (unread sample_file)).
Proof.
  split; [split; [apply sample_env_faultless|split; [reflexivity|]]|].
  - exact sample_records_ssize.
  - exact (output_lines_match_input_lines toy_digest (sample_env sample_file)
             sample_file (sample_env_faultless sample_file) eq_refl
             sample_records_ssize).
Defined.

(** C3. The stride of a batch is [align_up (max (max_record_length, 1), 64)]:
    a multiple of 64, at least the longest record, and no larger than any
    other positive multiple of 64 that is; it is 64 when every record is
    empty, and 192 for a batch of one record of 130 bytes and one of 3. *)
Theorem stride_of_batch
    (ok : Z -> bool) (max_batch_lines : Z) (fin : FILE) (b : batch) :
  (forall k, ok k = true) ->
  0 < max_batch_lines < 2 ^ 32 ->
  Forall (fun r => record_len r <= SSIZE_MAX) (records (unread fin)) ->
  accumulate ok max_batch_lines fin = Go b ->
  let longest := Z.of_nat (max_list (length <$> line_bufs b)) in
  let stride := compute_stride (max_len b) in
  max_len b = longest
  /\ stride = align_up (Z.max longest 1) 64
  /\ stride mod 64 = 0
  /\ longest <= stride
  /\ (forall m, 0 < m -> m mod 64 = 0 -> longest <= m -> stride <= m)
  /\ (longest = 0 -> stride = 64)
  /\ (forall r1 r2, line_bufs b = [r1; r2] ->
        length r1 = 130%nat -> length r2 = 3%nat -> stride = 192).
Proof.
  intros Hok Hmax Hsz Hacc longest stride.
  destruct (accumulate_spec ok max_batch_lines fin Hok Hmax Hsz)
    as [fin' (Heq & _)].
  rewrite Hacc in Heq. injection Heq as ->.
  set (recs := take _ _) in *.
  assert (Hrecs : within SSIZE_MAX recs) by (by apply Forall_take).
  destruct (max_list_bound SSIZE_MAX recs Hrecs) as [Hb _].
  rewrite (Z.max_r 0 SSIZE_MAX) in Hb by (unfold SSIZE_MAX; lia).
  subst longest stride. cbn [batch_of max_len line_bufs] in *.
  set (longest := Z.of_nat (max_list (length <$> recs))) in *.
  rewrite Z.max_r in * by lia.
  assert (Halign : compute_stride longest = align_up (Z.max longest 1) 64)
    by (apply compute_stride_align; lia).
  destruct (align_up_64 (Z.max longest 1)) as (H1 & H2 & H3); [lia|].
  rewrite Halign.
  split; [reflexivity|]. split; [reflexivity|]. split; [done|].
  split; [lia|]. split; [|split].
  - intros m Hm Hm64 Hle. apply H3; [done|].
    assert (m <> 0) by lia.
    pose proof (Z.div_mod m 64). lia.
  - intros ->. reflexivity.
  - intros r1 r2 Hbufs Hr1 Hr2. subst longest. rewrite Hbufs. simpl.
    rewrite Hr1, Hr2. reflexivity.
Qed.

Lemma stride_of_batch_witness :
  ((forall k : Z, (fun _ : Z => true) k = true)
   /\ 0 < MAX_BATCH_LINES < 2 ^ 32
   /\ Forall (fun r => record_len r <= SSIZE_MAX) (records (unread stride_file))
   /\ accumulate (fun _ => true) MAX_BATCH_LINES stride_file = Go stride_batch)
  /\ let longest := Z.of_nat (max_list (length <$> line_bufs stride_batch)) in
     let stride := compute_stride (max_len stride_batch) in
     max_len stride_batch = longest
     /\ stride = align_up (Z.max longest 1) 64
     /\ stride mod 64 = 0
     /\ longest <= stride
     /\ (forall m, 0 < m -> m mod 64 = 0 -> longest <= m -> stride <= m)
     /\ (longest = 0 -> stride = 64)
     /\ (forall r1 r2, line_bufs stride_batch = [r1; r2] ->
           length r1 = 130%nat -> length r2 = 3%nat -> stride = 192).
Proof.
  assert (H1 : forall k : Z, (fun _ : Z => true) k = true) by reflexivity.
  assert (H4 : accumulate (fun _ => true) MAX_BATCH_LINES stride_file
               = Go stride_batch) by (vm_compute; reflexivity).
  split; [split; [exact H1|split; [exact max_batch_lines_range|split;
         [exact stride_records_ssize|exact H4]]]|].
  exact (stride_of_batch (fun _ => true) MAX_BATCH_LINES stride_file
           stride_batch H1 max_batch_lines_range stride_records_ssize H4).
Defined.

(** C4. On an input made of one line of 2^32 bytes the packed buffer does
    not hold the record and the length array does not hold its length:
    the entry of the record is 0 and the first byte of its slot is zero,
    where the record has 2^32 bytes of which the first is ["a"]. *)
Theorem huge_record_breaks_layout :
  exists b,
    accumulate (fun _ => true) MAX_BATCH_LINES huge_file = Go b
    /\ line_bufs b !! 0%nat = Some huge_line
    /\ record_len huge_line = 2 ^ 32
    /\ huge_line !! 0%nat = Some "a"%char
    /\ lens_host b !! 0%nat = Some 0
    /\ pack b (compute_stride (max_len b)) !! 0%nat = Some NUL.
Proof.
  destruct (truncated_record toy_digest (sample_env huge_file) huge_line false)
    as [(b & Hacc & Hbufs & Hlens & _ & Hpack) _].
  - apply sample_env_faultless.
  - reflexivity.
  - apply huge_line_no_delimiter.
  - apply huge_line_length.
  - assert (0 < Z.to_nat (2 ^ 32))%nat as Hpos by lia.
    exists b. split; [exact Hacc|]. rewrite Hbufs, Hlens, Hpack.
    split; [reflexivity|]. split; [apply huge_line_length|].
    split; [by apply lookup_replicate_2|].
    split; [reflexivity|]. by apply lookup_replicate_2.
Qed.

(** Within the limits of the 32-bit kernel parameters, runs that meet no
    failure write an output that does not depend on the batch bound: with
    bound 1 and with any bound [N] the output file is the same, the line
    of each record being a function of that record alone, the rendering of
    its digest. [bound] is any multiple of 64 that no record exceeds and
    for which the stride fits the 32-bit word count of the kernel and a
    packed buffer fits [size_t]. *)
Theorem batch_size_invariance
    (sha256 : list ascii -> list Z) (env : environment) (fin : FILE)
    (N bound : Z) :
  faultless env ->
  input_file env = Some fin ->
  0 < N < 2 ^ 32 ->
  bound mod 64 = 0 -> 64 <= bound < 2 ^ 34 -> N * bound < 2 ^ 64 ->
  within bound (records (unread fin)) ->
  output (run_with sha256 1 env) = output (run_with sha256 N env)
  /\ output (run_with sha256 N env)
     = Some (records (unread fin) ≫= digest_line sha256)
  /\ exit_code (run_with sha256 1 env) = 0
  /\ exit_code (run_with sha256 N env) = 0
  /\ Forall (fun r => record_len r < 2 ^ 32 ->
                      digest_line sha256 r = record_line sha256 r)
       (records (unread fin)).
Proof.
  intros Hfl Hin HN Halign Hbound Hbuf Hrecs.
  assert (H1 : 0 < 1 < 2 ^ 32) by lia.
  assert (Hbuf1 : 1 * bound < 2 ^ 64) by lia.
  destruct (run_spec sha256 env Hfl 1 H1 bound Halign Hbound Hbuf1 fin Hin Hrecs)
    as [t1 (Hrun1 & _)].
  destruct (run_spec sha256 env Hfl N HN bound Halign Hbound Hbuf fin Hin Hrecs)
    as [tN (HrunN & _)].
  rewrite Hrun1, HrunN. cbn [output exit_code].
  repeat split; try reflexivity.
  apply Forall_forall. intros r _ Hr.
  unfold digest_line, record_line. by rewrite stored_small.
Qed.

Lemma batch_size_invariance_witness :
  (faultless (sample_env sample_file)
   /\ input_file (sample_env sample_file) = Some sample_file
   /\ 0 < 2 < 2 ^ 32
   /\ 2 ^ 32 mod 64 = 0 /\ 64 <= 2 ^ 32 < 2 ^ 34 /\ 2 * 2 ^ 32 < 2 ^ 64
   /\ within (2 ^ 32) (records (unread sample_file)))
  /\ output (run_with toy_digest 1 (sample_env sample_file))
     = output (run_with toy_digest 2 (sample_env sample_file))
  /\ output (run_with toy_digest 2 (sample_env sample_file))
     = Some (records (unread sample_file) ≫= digest_line toy_digest)
  /\ exit_code (run_with toy_digest 1 (sample_env sample_file)) = 0
  /\ exit_code (run_with toy_digest 2 (sample_env sample_file)) = 0
  /\ Forall (fun r => record_len r < 2 ^ 32 ->
                      digest_line toy_digest r = record_line toy_digest r)
       (records (unread sample_file)).
Proof.
  assert (H3 : 0 < 2 < 2 ^ 32) by lia.
  assert (H4 : 2 ^ 32 mod 64 = 0) by reflexivity.
  assert (H5 : 64 <= 2 ^ 32 < 2 ^ 34) by lia.
  assert (H6 : 2 * 2 ^ 32 < 2 ^ 64) by lia.
  split; [split; [apply sample_env_faultless|split; [reflexivity|split;
         [exact H3|split; [exact H4|split; [exact H5|split;
         [exact H6|exact sample_records_within]]]]]]|].
  exact (batch_size_invariance toy_digest (sample_env sample_file) sample_file
           2 (2 ^ 32) (sample_env_faultless sample_file) eq_refl H3 H4 H5 H6
           sample_records_within).
Defined.

(** ** A stride beyond the 32-bit word count *)

Lemma records_line (l rest : list ascii) :
  newline ∉ l -> records (l ++ newline :: rest) = l :: records rest.
Proof.
  induction l as [|c l IH]; intros Hnot.
  - cbn [app records]. by rewrite Ascii.eqb_refl.
  - apply not_elem_of_cons in Hnot as [Hc Hl].
    cbn [app records]. destruct (Ascii.eqb c newline) eqn:E.
    { apply eqb_newline in E. congruence. }
    by rewrite IH.
Qed.

Section Unrolling.

Variable sha256 : list ascii -> list Z.
Variable env : environment.
Hypothesis Hfl : faultless env.
Variable max_batch_lines : Z.
Hypothesis Hmax : 0 < max_batch_lines < 2 ^ 32.

(** One turn of the batch loop on a stream that still holds records. *)
Lemma batch_loop_turn fuel fin batch_index (w : world) :
  (length (unread fin) < fuel)%nat ->
  Forall (fun r => record_len r <= SSIZE_MAX) (records (unread fin)) ->
  records (unread fin) <> [] ->
  exists fin' t,
    records (unread fin')
    = drop (Z.to_nat max_batch_lines) (records (unread fin))
    /\ batch_loop sha256 fuel env max_batch_lines fin batch_index w
       = batch_loop sha256 (S (length (unread fin'))) env max_batch_lines fin'
           (to_uint32 (batch_index + 1))
           (mkWorld
              (dispatch_lines sha256
                 (batch_of fin'
                    (take (Z.to_nat max_batch_lines) (records (unread fin))))
                 <$> out_file w)
              (trace w ++ t)).
Proof using Hfl Hmax.
  intros Hfuel Hsz Hne. destruct fuel as [|fuel]; [lia|].
  cbn [batch_loop].
  destruct (accumulate_spec
              (line_copy_ok env (to_uint32 (batch_index + 1)))
              max_batch_lines fin (fl_copy env Hfl _) Hmax Hsz)
    as [fin' (Hacc & Hrest & _)].
  set (recs := records (unread fin)) in *.
  assert (Hm : take (Z.to_nat max_batch_lines `min` length recs) recs
               = take (Z.to_nat max_batch_lines) recs).
  { destruct (Nat.min_spec (Z.to_nat max_batch_lines) (length recs))
      as [[_ ->]|[Hle ->]]; [done|].
    by rewrite firstn_all, take_ge. }
  assert (Hd : drop (Z.to_nat max_batch_lines `min` length recs) recs
               = drop (Z.to_nat max_batch_lines) recs).
  { destruct (Nat.min_spec (Z.to_nat max_batch_lines) (length recs))
      as [[_ ->]|[Hle ->]]; [done|].
    by rewrite drop_all, drop_ge. }
  rewrite Hm in Hacc. rewrite Hd in Hrest.
  pose proof Hacc as Hcons. unfold accumulate in Hcons.
  apply read_batch_consumes in Hcons as [Hsame|Hlt].
  { exfalso. injection Hsame as _ Hn _ _ _. destruct recs; [done|].
    destruct (Z.to_nat max_batch_lines) eqn:E; [lia|]. done. }
  cbn [fin_after batch_of] in Hlt.
  rewrite Hacc. cbn [batch_of num_msgs].
  destruct (Z.eqb_spec (Z.of_nat (length (take (Z.to_nat max_batch_lines) recs))) 0)
    as [H0|_].
  { exfalso. destruct recs; [done|].
    destruct (Z.to_nat max_batch_lines) eqn:E; [lia|]. done. }
  fold (batch_of fin' (take (Z.to_nat max_batch_lines) recs)).
  unfold bind. rewrite (process_batch_ok sha256 env Hfl).
  change (fin_after (batch_of fin' (take (Z.to_nat max_batch_lines) recs)))
    with fin'.
  exists fin', (batch_events (num_msgs (batch_of fin' (take (Z.to_nat max_batch_lines) recs)))
                  (to_uint32 (compute_stride (max_len (batch_of fin' (take (Z.to_nat max_batch_lines) recs))) / 4))).
  split; [exact Hrest|].
  assert (H1 : (length (unread fin') < fuel)%nat) by lia.
  assert (H2 : (length (unread fin') < S (length (unread fin')))%nat) by lia.
  exact (batch_loop_fuel sha256 env max_batch_lines fuel
           (S (length (unread fin'))) fin' _ _ H1 H2).
Qed.

(** The last turn: nothing is left. *)
Lemma batch_loop_end fuel fin batch_index (w : world) :
  records (unread fin) = [] ->
  batch_loop sha256 fuel env max_batch_lines fin batch_index w = (Go tt, w).
Proof using Hfl Hmax.
  intros Hnil. destruct fuel as [|fuel]; [reflexivity|].
  cbn [batch_loop].
  destruct (accumulate_spec
              (line_copy_ok env (to_uint32 (batch_index + 1)))
              max_batch_lines fin (fl_copy env Hfl _) Hmax)
    as [fin' (Hacc & _)]; [by rewrite Hnil|].
  rewrite Hacc, Hnil, take_nil. reflexivity.
Qed.

End Unrolling.

Lemma long_line_length : record_len long_line = 2 ^ 34.
Proof.
  unfold record_len, long_line. rewrite length_replicate.
  apply Z2Nat.id. lia.
Qed.

Lemma long_line_no_delimiter : newline ∉ long_line.
Proof.
  unfold long_line. intros H. apply elem_of_replicate in H as [H _].
  discriminate.
Qed.

Lemma wrapped_stride : compute_stride (2 ^ 34) = 2 ^ 34.
Proof. reflexivity. Qed.

Lemma wrapped_word_stride : to_uint32 (2 ^ 34 / 4) = 0.
Proof. reflexivity. Qed.

Lemma long_then_abc_records :
  records (unread long_then_abc) = [long_line; list_ascii_of_string "abc"].
Proof.
  unfold long_then_abc. cbn [unread].
  change ([newline] ++ list_ascii_of_string "abc" ++ [newline])
    with (newline :: list_ascii_of_string "abc" ++ [newline]).
  rewrite records_line by apply long_line_no_delimiter. reflexivity.
Qed.

(** Two lanes, and the two lines written for them. *)
Lemma two_lanes sha256 (msgs : list ascii) (len0 len1 msg_stride : Z) :
  run_kernel sha256 msgs (take (Z.to_nat 2) [len0; len1]) msg_stride 2
  = digest_words sha256 (take (Z.to_nat len0) msgs)
    ++ digest_words sha256
         (take (Z.to_nat len1) (drop (Z.to_nat (msg_stride * 4)) msgs)).
Proof.
  unfold run_kernel, sha256_wrapper. change (Z.to_nat 2) with 2%nat.
  cbn [seq take mbind list_bind lookup list_lookup default from_option].
  unfold id. rewrite app_nil_r, drop_0.
  replace (Z.of_nat 1 * (msg_stride * 4)) with (msg_stride * 4) by lia.
  reflexivity.
Qed.

Lemma two_lines sha256 (msg0 msg1 out : list ascii) :
  emit (digest_words sha256 msg0 ++ digest_words sha256 msg1) 2 out
  = out ++ hex_line (digest_words sha256 msg0)
    ++ hex_line (digest_words sha256 msg1).
Proof.
  unfold emit. change (Z.to_nat 2) with 2%nat.
  rewrite (emit_loop_spec _ 2 0%nat) by (simpl; lia).
  reflexivity.
Qed.

Lemma one_lane sha256 (msgs : list ascii) (len0 msg_stride : Z) :
  run_kernel sha256 msgs (take (Z.to_nat 1) [len0]) msg_stride 1
  = digest_words sha256 (take (Z.to_nat len0) msgs).
Proof.
  unfold run_kernel, sha256_wrapper. change (Z.to_nat 1) with 1%nat.
  cbn [seq take mbind list_bind lookup list_lookup default from_option].
  unfold id. by rewrite app_nil_r, drop_0.
Qed.

Lemma one_line sha256 (msg0 out : list ascii) :
  emit (digest_words sha256 msg0) 1 out
  = out ++ hex_line (digest_words sha256 msg0).
Proof.
  unfold emit. change (Z.to_nat 1) with 1%nat.
  rewrite (emit_loop_spec _ 1 0%nat) by (simpl; lia).
  reflexivity.
Qed.

Section WrappedStride.

(** A record of 2^34 bytes. *)
Variable l : list ascii.
Hypothesis Hl : record_len l = 2 ^ 34.

Lemma wrapped_stored : stored l = [].
Proof using Hl.
  unfold stored. rewrite Hl. change (to_uint32 (2 ^ 34)) with 0. apply take_0.
Qed.

Lemma wrapped_alone fin :
  batch_of fin [l] = mkBatch fin 1 (2 ^ 34) [l] [0].
Proof using Hl.
  unfold batch_of, lens_of. cbn [length fmap list_fmap compose max_list].
  rewrite Hl. unfold id, record_len in *. f_equal. lia.
Qed.

(** The slot of the long record is all zero. *)
Lemma wrapped_slot (stride_bytes : Z) (rest : list ascii) :
  3 <= stride_bytes ->
  take 3 (slot stride_bytes l ++ rest) = [NUL; NUL; NUL].
Proof using Hl.
  intros Hs. unfold slot. rewrite wrapped_stored. cbn [app length].
  rewrite Nat.sub_0_r.
  rewrite take_app_le by (rewrite length_replicate; lia).
  rewrite take_replicate.
  replace (3 `min` Z.to_nat stride_bytes)%nat with 3%nat by lia.
  reflexivity.
Qed.

(** The long record alone in its batch: its lane is given the length 0. *)
Lemma wrapped_apart sha256 fin out :
  dispatch_lines sha256 (batch_of fin [l]) out
  = out ++ hex_line (digest_words sha256 []).
Proof using Hl.
  rewrite wrapped_alone. unfold dispatch_lines.
  cbn [max_len num_msgs lens_host].
  rewrite one_lane, one_line. change (Z.to_nat 0) with 0%nat.
  by rewrite take_0.
Qed.

(** A record of 3 bytes that follows it. *)
Variable r : list ascii.
Hypothesis Hr : record_len r = 3.

Lemma wrapped_batch fin :
  batch_of fin [l; r] = mkBatch fin 2 (2 ^ 34) [l; r] [0; 3].
Proof using Hl Hr.
  unfold batch_of, lens_of. cbn [length fmap list_fmap compose max_list].
  rewrite Hl, Hr. unfold id, record_len in *. f_equal. lia.
Qed.

Lemma wrapped_packed fin (stride_bytes : Z) :
  3 <= stride_bytes < 2 ^ 63 ->
  pack (mkBatch fin 2 (2 ^ 34) [l; r] [0; 3]) stride_bytes
  = slot stride_bytes l ++ slot stride_bytes r.
Proof using Hl Hr.
  intros Hs. rewrite <- wrapped_batch. unfold batch_of.
  rewrite (pack_spec fin _ [l; r] stride_bytes).
  - rewrite bind_cons, bind_cons. cbn [mbind list_bind].
    by rewrite app_nil_r.
  - lia.
  - cbn [length]. lia.
  - cbn [length]. lia.
  - constructor; [rewrite wrapped_stored; cbn [length]; lia|].
    constructor; [|constructor].
    rewrite stored_length, Hr. change (to_uint32 3) with 3. lia.
Qed.

(** The two records in one batch: the word stride has wrapped to 0, so
    the lane of the second record reads the slot of the first, which is
    all zero. *)
Lemma wrapped_together sha256 fin out :
  dispatch_lines sha256 (batch_of fin [l; r]) out
  = out ++ hex_line (digest_words sha256 [])
    ++ hex_line (digest_words sha256 [NUL; NUL; NUL]).
Proof using Hl Hr.
  rewrite wrapped_batch. unfold dispatch_lines.
  cbn [max_len num_msgs lens_host].
  rewrite wrapped_stride, wrapped_word_stride, two_lanes, two_lines.
  rewrite wrapped_packed by lia.
  change (Z.to_nat 0) with 0%nat. change (Z.to_nat (0 * 4)) with 0%nat.
  change (Z.to_nat 3) with 3%nat.
  rewrite take_0, drop_0, wrapped_slot by lia. reflexivity.
Qed.

End WrappedStride.

(** A record of 3 bytes alone in its batch. *)
Lemma abc_alone sha256 fin out :
  dispatch_lines sha256 (batch_of fin [list_ascii_of_string "abc"]) out
  = out ++ hex_line (digest_words sha256 (list_ascii_of_string "abc")).
Proof.
  unfold dispatch_lines, batch_of, lens_of.
  cbn [num_msgs max_len lens_host length fmap list_fmap compose].
  change (Z.of_nat 1) with 1. rewrite one_lane, one_line.
  reflexivity.
Qed.

Lemma long_then_abc_ssize :
  Forall (fun r => record_len r <= SSIZE_MAX) (records (unread long_then_abc)).
Proof.
  rewrite long_then_abc_records. constructor.
  - rewrite long_line_length. unfold SSIZE_MAX. lia.
  - constructor; [|constructor]. unfold record_len, SSIZE_MAX.
    cbn [length list_ascii_of_string]. lia.
Qed.

(** With a bound of 2 or more, the line and "abc" go into one batch. *)
Lemma long_then_abc_together sha256 (N : Z) :
  2 <= N < 2 ^ 32 ->
  exit_code (run_with sha256 N (sample_env long_then_abc)) = 0
  /\ output (run_with sha256 N (sample_env long_then_abc))
     = Some (hex_line (digest_words sha256 [])
             ++ hex_line (digest_words sha256 [NUL; NUL; NUL])).
Proof.
  intros HN. assert (Hmax : 0 < N < 2 ^ 32) by lia.
  pose proof (sample_env_faultless long_then_abc) as Hfl.
  unfold run_with, main_with.
  rewrite (fl_argc _ Hfl), (fl_output _ Hfl).
  change (input_file (sample_env long_then_abc)) with (Some long_then_abc).
  change (3 =? 3) with true.
  unfold bind, guard, ret, log, create_output. cbn [out_file trace app].
  rewrite bootstrap_ok by done. cbn [out_file trace].
  match goal with
  | |- context [batch_loop _ ?fuel _ _ ?fin ?i ?w] =>
      destruct (batch_loop_turn sha256 _ Hfl N Hmax fuel fin i w)
        as (fin1 & t1 & Hrest1 & ->)
  end.
  { lia. }
  { apply long_then_abc_ssize. }
  { by rewrite long_then_abc_records. }
  rewrite long_then_abc_records in *.
  rewrite take_ge in * by (cbn [length]; lia).
  rewrite drop_ge in Hrest1 by (cbn [length]; lia).
  rewrite (batch_loop_end sha256 _ Hfl N Hmax) by done.
  cbn [exit_code output out_file fmap option_fmap option_map].
  rewrite (wrapped_together long_line long_line_length
             (list_ascii_of_string "abc") eq_refl).
  split; reflexivity.
Qed.

(** With the bound 1 each goes into a batch of its own. *)
Lemma long_then_abc_apart sha256 :
  exit_code (run_with sha256 1 (sample_env long_then_abc)) = 0
  /\ output (run_with sha256 1 (sample_env long_then_abc))
     = Some (hex_line (digest_words sha256 [])
             ++ hex_line (digest_words sha256 (list_ascii_of_string "abc"))).
Proof.
  assert (Hmax : 0 < 1 < 2 ^ 32) by lia.
  pose proof (sample_env_faultless long_then_abc) as Hfl.
  unfold run_with, main_with.
  rewrite (fl_argc _ Hfl), (fl_output _ Hfl).
  change (input_file (sample_env long_then_abc)) with (Some long_then_abc).
  change (3 =? 3) with true.
  unfold bind, guard, ret, log, create_output. cbn [out_file trace app].
  rewrite bootstrap_ok by done. cbn [out_file trace].
  match goal with
  | |- context [batch_loop _ ?fuel _ _ ?fin ?i ?w] =>
      destruct (batch_loop_turn sha256 _ Hfl 1 Hmax fuel fin i w)
        as (fin1 & t1 & Hrest1 & ->)
  end.
  { lia. }
  { apply long_then_abc_ssize. }
  { by rewrite long_then_abc_records. }
  rewrite long_then_abc_records in *.
  change (Z.to_nat 1) with 1%nat in *. cbn [take drop] in *.
  match goal with
  | |- context [batch_loop _ ?fuel _ _ ?fin ?i ?w] =>
      destruct (batch_loop_turn sha256 _ Hfl 1 Hmax fuel fin i w)
        as (fin2 & t2 & Hrest2 & ->)
  end.
  { lia. }
  { rewrite Hrest1. constructor; [|constructor]. unfold record_len, SSIZE_MAX.
    cbn [length list_ascii_of_string]. lia. }
  { by rewrite Hrest1. }
  rewrite Hrest1 in *. change (Z.to_nat 1) with 1%nat in *.
  cbn [take drop] in *.
  rewrite (batch_loop_end sha256 _ Hfl 1 Hmax) by done.
  cbn [exit_code output out_file fmap option_fmap option_map].
  rewrite (wrapped_apart long_line long_line_length), abc_alone.
  by rewrite <- app_assoc.
Qed.

(** C5. A file that holds a line of 2^34 bytes and then the line "abc".
    The batch that holds the long line has a stride of 2^34 bytes, which
    line 341 hands to the kernel as [(uint32_t) (stride_bytes / 4)], that
    is 0. With a batch bound of 1, "abc" is alone in its batch and its
    output line is that of the digest of "abc". With a bound of 2, or with
    [MAX_BATCH_LINES], it shares the batch of the long line, its lane
    reads the slot of that line, and its output line is that of the digest
    of three zero bytes: the output depends on the batch bound and on the
    other record of the batch. For the stand-in digest the two output
    files differ. *)
Theorem wrapped_stride_breaks_invariance :
  let env := sample_env long_then_abc in
  let abc := list_ascii_of_string "abc" in
  records (unread long_then_abc) = [long_line; abc]
  /\ record_len long_line = 2 ^ 34
  /\ to_uint32 (compute_stride (record_len long_line) / 4) = 0
  /\ (forall sha256,
        output (run_with sha256 1 env)
        = Some (hex_line (digest_words sha256 [])
                ++ hex_line (digest_words sha256 abc))
        /\ output (run_with sha256 2 env)
           = Some (hex_line (digest_words sha256 [])
                   ++ hex_line (digest_words sha256 [NUL; NUL; NUL]))
        /\ output (main sha256 env) = output (run_with sha256 2 env)
        /\ exit_code (run_with sha256 1 env) = 0
        /\ exit_code (run_with sha256 2 env) = 0
        /\ output (main sha256 (sample_env (mkFILE (abc ++ [newline]) false)))
           = Some (hex_line (digest_words sha256 abc)))
  /\ output (run_with toy_digest 1 env) <> output (run_with toy_digest 2 env).
Proof.
  intros env abc. subst env abc.
  split; [apply long_then_abc_records|].
  split; [apply long_line_length|].
  split; [by rewrite long_line_length|].
  split.
  - intros sha256.
    destruct (long_then_abc_apart sha256) as [Hc1 Ho1].
    destruct (long_then_abc_together sha256 2) as [Hc2 Ho2]; [lia|].
    destruct (long_then_abc_together sha256 MAX_BATCH_LINES) as [_ HoM];
      [unfold MAX_BATCH_LINES; lia|].
    split; [exact Ho1|]. split; [exact Ho2|].
    split; [unfold main; rewrite HoM, Ho2; reflexivity|].
    split; [exact Hc1|]. split; [exact Hc2|].
    clear Hc1 Ho1 Hc2 Ho2 HoM.
    set (alone := mkFILE (list_ascii_of_string "abc" ++ [newline]) false).
    assert (Hrecs : records (unread alone) = [list_ascii_of_string "abc"])
      by reflexivity.
    destruct (run_small_records sha256 (sample_env alone) MAX_BATCH_LINES alone)
      as [t (Hrun & _)].
    + apply sample_env_faultless.
    + apply max_batch_lines_range.
    + reflexivity.
    + rewrite Hrecs. repeat constructor.
    + unfold main. rewrite Hrun, Hrecs. cbn [output mbind list_bind].
      rewrite app_nil_r. reflexivity.
  - destruct (long_then_abc_apart toy_digest) as [_ ->].
    destruct (long_then_abc_together toy_digest 2) as [_ ->]; [lia|].
    intros H. vm_compute in H. discriminate H.
Qed.

(** C6. The accumulator returns the next records of the stream and closes
    the batch exactly when it holds [max_batch_lines] records or nothing is
    left to read; the batch is empty exactly when the stream was already
    exhausted. In a run that meets no failure all dispatches but a last
    remainder are full, and an input of [q * max_batch_lines] records is
    dispatched as exactly [q] full batches. No run, failing or not,
    dispatches an empty batch. *)
Theorem batch_closure
    (sha256 : list ascii -> list Z) (env : environment)
    (max_batch_lines : Z) (fin : FILE) :
  faultless env ->
  input_file env = Some fin ->
  0 < max_batch_lines < 2 ^ 32 ->
  Forall (fun r => record_len r <= SSIZE_MAX) (records (unread fin)) ->
  let n := Z.of_nat (length (records (unread fin))) in
  (forall i, exists b,
      accumulate (line_copy_ok env i) max_batch_lines fin = Go b
      /\ num_msgs b = Z.min max_batch_lines n
      /\ line_bufs b = take (Z.to_nat (num_msgs b)) (records (unread fin))
      /\ records (unread (fin_after b))
         = drop (Z.to_nat (num_msgs b)) (records (unread fin))
      /\ (num_msgs b = max_batch_lines \/ unread (fin_after b) = [])
      /\ (num_msgs b = 0 <-> unread fin = []))
  /\ exit_code (run_with sha256 max_batch_lines env) = 0
  /\ dispatches (calls (run_with sha256 max_batch_lines env))
     = expected_dispatches max_batch_lines n
  /\ Forall (fun d => 0 < d <= max_batch_lines)
       (dispatches (calls (run_with sha256 max_batch_lines env)))
  /\ (forall q, 0 <= q -> n = q * max_batch_lines ->
        dispatches (calls (run_with sha256 max_batch_lines env))
        = replicate (Z.to_nat q) max_batch_lines)
  /\ (forall env',
        Forall (fun d => 0 < d)
          (dispatches (calls (run_with sha256 max_batch_lines env')))).
Proof.
  intros Hfl Hin Hmax Hsz n.
  split.
  - intros i.
    destruct (accumulate_spec (line_copy_ok env i) max_batch_lines fin
                (fl_copy env Hfl i) Hmax Hsz) as [fin' (Heq & Hrest & _)].
    set (recs := records (unread fin)) in *.
    set (m := Nat.min (Z.to_nat max_batch_lines) (length recs)) in *.
    assert (Hm : length (take m recs) = m) by (rewrite length_take; lia).
    eexists. split; [exact Heq|].
    cbn [batch_of num_msgs line_bufs fin_after]. rewrite Hm, Nat2Z.id.
    split; [subst n; lia|]. split; [reflexivity|]. split; [done|]. split.
    + destruct (decide (Z.to_nat max_batch_lines <= length recs)%nat).
      * left. lia.
      * right. apply records_nil. rewrite Hrest. apply drop_ge. lia.
    + rewrite <- records_nil. fold recs. split.
      * intros H0. apply nil_length_inv. lia.
      * intros Hnil. subst m. rewrite Hnil. simpl. lia.
  - destruct (run_shape sha256 env Hfl max_batch_lines Hmax fin Hin Hsz)
      as (lines & t & Hrun & _ & _ & Hdisp).
    rewrite Hrun. cbn [exit_code calls].
    rewrite dispatches_bootstrap, Hdisp. fold n.
    split; [reflexivity|]. split; [reflexivity|]. split; [|split].
    + apply expected_dispatches_positive; lia.
    + intros q Hq Hn. rewrite Hn. apply expected_dispatches_exact; lia.
    + intros env'.
      destruct (run_outline sha256 max_batch_lines env')
        as (c & o & t' & -> & Ht' & _).
      by apply dispatches_nonempty.
Qed.

Lemma batch_closure_witness :
  (faultless (sample_env sample_file)
   /\ input_file (sample_env sample_file) = Some sample_file
   /\ 0 < 2 < 2 ^ 32
   /\ Forall (fun r => record_len r <= SSIZE_MAX)
        (records (unread sample_file)))
  /\ let n := Z.of_nat (length (records (unread sample_file))) in
     (forall i, exists b,
         accumulate (line_copy_ok (sample_env sample_file) i) 2 sample_file
         = Go b
         /\ num_msgs b = Z.min 2 n
         /\ line_bufs b
            = take (Z.to_nat (num_msgs b)) (records (unread sample_file))
         /\ records (unread (fin_after b))
            = drop (Z.to_nat (num_msgs b)) (records (unread sample_file))
         /\ (num_msgs b = 2 \/ unread (fin_after b) = [])
         /\ (num_msgs b = 0 <-> unread sample_file = []))
     /\ exit_code (run_with toy_digest 2 (sample_env sample_file)) = 0
     /\ dispatches (calls (run_with toy_digest 2 (sample_env sample_file)))
        = expected_dispatches 2 n
     /\ Forall (fun d => 0 < d <= 2)
          (dispatches (calls (run_with toy_digest 2 (sample_env sample_file))))
     /\ (forall q, 0 <= q -> n = q * 2 ->
           dispatches (calls (run_with toy_digest 2 (sample_env sample_file)))
           = replicate (Z.to_nat q) 2)
     /\ (forall env',
           Forall (fun d => 0 < d)
             (dispatches (calls (run_with toy_digest 2 env')))).
Proof.
  assert (H3 : 0 < 2 < 2 ^ 32) by lia.
  split; [split; [apply sample_env_faultless|split; [reflexivity|split;
         [exact H3|exact sample_records_ssize]]]|].
  exact (batch_closure toy_digest (sample_env sample_file) 2 sample_file
           (sample_env_faultless sample_file) eq_refl H3 sample_records_ssize).
Defined.

(** C7. From the line that [getline] returns the reader drops one
    trailing delimiter when the line ends with one and nothing otherwise,
    which only happens for a last line that no delimiter ends; the record
    holds no delimiter, and it is empty for a line made of a delimiter
    only. *)
Theorem reader_strips_one_delimiter
    (fin fin' : FILE) (linelen : Z) (line : list ascii) :
  Z.of_nat (length (unread fin)) <= SSIZE_MAX ->
  getline fin = (linelen, line, fin') ->
  0 <= linelen ->
  let len := strip_len line linelen in
  let record := copy_line line len in
  linelen = Z.of_nat (length line)
  /\ line ++ unread fin' = unread fin
  /\ (forall body, line = body ++ [newline] -> record = body)
  /\ (last line <> Some newline -> record = line /\ unread fin' = [])
  /\ len = Z.of_nat (length record)
  /\ (newline ∉ record)
  /\ (line = [newline] -> record = []).
Proof.
  intros Hsz Hget Hpos len record. unfold getline in Hget.
  destruct (unread fin) as [|c rest] eqn:Edata.
  { injection Hget as <- _ _. lia. }
  pose proof (getdelim_app (c :: rest)) as Happ.
  pose proof (getdelim_nonempty c rest) as Hne.
  pose proof (getdelim_shape (c :: rest)) as Hshape.
  destruct (getdelim (c :: rest)) as [l r]. cbn [fst snd] in *.
  injection Hget as <- <- <-. cbn [unread].
  assert (Z.of_nat (length l) < 2 ^ 64) as Hlen.
  { apply (f_equal length) in Happ. rewrite length_app in Happ.
    unfold SSIZE_MAX in Hsz. lia. }
  destruct (strip_len_chomp l Hne Hlen) as [Hs Hc].
  subst record len. rewrite Hc, Hs.
  split; [reflexivity|]. split; [done|]. split; [|split; [|split; [|split]]].
  - intros body ->. apply chomp_snoc.
  - intros Hlast. split; [by apply chomp_no_delimiter|].
    destruct Hshape as [[body [-> _]] | [_ ->]]; [|done].
    rewrite last_snoc in Hlast. done.
  - reflexivity.
  - destruct Hshape as [[body [-> Hb]] | [Hl _]].
    + by rewrite chomp_snoc.
    + rewrite chomp_no_delimiter; [done|]. by apply last_not_elem.
  - intros ->. reflexivity.
Qed.

Lemma reader_strips_one_delimiter_witness :
  (Z.of_nat (length (unread sample_file)) <= SSIZE_MAX
   /\ getline sample_file
      = (4, list_ascii_of_string "abc" ++ [newline],
         mkFILE (newline :: list_ascii_of_string "hello" ++ [newline]) false)
   /\ 0 <= 4)
  /\ let line := list_ascii_of_string "abc" ++ [newline] in
     let fin' :=
       mkFILE (newline :: list_ascii_of_string "hello" ++ [newline]) false in
     let len := strip_len line 4 in
     let record := copy_line line len in
     4 = Z.of_nat (length line)
     /\ line ++ unread fin' = unread sample_file
     /\ (forall body, line = body ++ [newline] -> record = body)
     /\ (last line <> Some newline -> record = line /\ unread fin' = [])
     /\ len = Z.of_nat (length record)
     /\ (newline ∉ record)
     /\ (line = [newline] -> record = []).
Proof.
  assert (H1 : Z.of_nat (length (unread sample_file)) <= SSIZE_MAX)
    by (vm_compute; discriminate).
  assert (H2 : getline sample_file
               = (4, list_ascii_of_string "abc" ++ [newline],
                  mkFILE (newline :: list_ascii_of_string "hello" ++ [newline])
                    false)) by reflexivity.
  assert (H3 : 0 <= 4) by lia.
  split; [split; [exact H1|split; [exact H2|exact H3]]|].
  exact (reader_strips_one_delimiter sample_file _ 4 _ H1 H2 H3).
Defined.

(** C8. The stored length of a record is its length reduced modulo 2^32:
    on an input made of one line of 2^32 bytes the length array holds 0
    for the record, no byte of it is packed, and the line written is the
    one of the empty message. *)
Theorem huge_record_length_truncated (sha256 : list ascii -> list Z) :
  record_len huge_line = 2 ^ 32
  /\ (exists b,
        accumulate (line_copy_ok (sample_env huge_file) 1) MAX_BATCH_LINES
          huge_file = Go b
        /\ line_bufs b = [huge_line] /\ lens_host b = [0]
        /\ compute_stride (max_len b) = 2 ^ 32
        /\ pack b (compute_stride (max_len b))
           = replicate (Z.to_nat (2 ^ 32)) NUL)
  /\ exit_code (main sha256 (sample_env huge_file)) = 0
  /\ output (main sha256 (sample_env huge_file))
     = Some (hex_line (digest_words sha256 [])).
Proof.
  split; [apply huge_line_length|].
  apply (truncated_record sha256 (sample_env huge_file) huge_line false).
  - apply sample_env_faultless.
  - reflexivity.
  - apply huge_line_no_delimiter.
  - apply huge_line_length.
Qed.

(** C9, as the claim states it, fails: the first read of the stream fails
    and the run ends with status 0 and an empty output file. *)
Lemma read_failure_exits_zero :
  fst (fst (getline unreadable_file)) = -1
  /\ ferror unreadable_file = true
  /\ exit_code (main toy_digest (sample_env unreadable_file)) = 0
  /\ output (main toy_digest (sample_env unreadable_file)) = Some [].
Proof. repeat split; vm_compute; reflexivity. Qed.

(** C9, amended. An input file that cannot be opened ends the run with
    status 1, the output path untouched. A read failure once the file is
    open is not told from the end of the stream: the run is the run on the
    stream of the same bytes that ends there, and it exits with status 0
    when nothing else fails. *)
Theorem read_failure_is_end_of_stream
    (sha256 : list ascii -> list Z) (max_batch_lines : Z) (env : environment) :
  (argc env = 3 ->
   exit_code (run_with sha256 max_batch_lines (with_input env None)) = 1
   /\ output (run_with sha256 max_batch_lines (with_input env None))
      = output_before env
   /\ calls (run_with sha256 max_batch_lines (with_input env None)) = [])
  /\ (forall fin,
        run_with sha256 max_batch_lines
          (with_input env (Some (with_read_error true fin)))
        = run_with sha256 max_batch_lines
            (with_input env (Some (with_read_error false fin))))
  /\ (forall fin,
        faultless env ->
        0 < max_batch_lines < 2 ^ 32 ->
        Forall (fun r => record_len r < 2 ^ 32) (records (unread fin)) ->
        exit_code (run_with sha256 max_batch_lines
                        (with_input env (Some (with_read_error true fin)))) = 0
        /\ output (run_with sha256 max_batch_lines
                     (with_input env (Some (with_read_error true fin))))
           = Some (records (unread fin) ≫= record_line sha256)).
Proof.
  split; [|split].
  - intros Hargc. unfold run_with, main_with.
    cbn [with_input argc input_file output_before]. rewrite Hargc.
    repeat split; reflexivity.
  - intros fin. by rewrite !run_with_read_error.
  - intros fin Hfl Hmax Hsmall.
    destruct (run_small_records sha256
                (with_input env (Some (with_read_error true fin)))
                max_batch_lines (with_read_error true fin))
      as [t (Hrun & _)]; try done.
    { by apply faultless_with_input. }
    rewrite Hrun. repeat split; reflexivity.
Qed.

Lemma read_failure_is_end_of_stream_witness :
  (faultless (sample_env sample_file)
   /\ 0 < 2 < 2 ^ 32
   /\ Forall (fun r => record_len r < 2 ^ 32) (records (unread sample_file)))
  /\ exit_code (run_with toy_digest 2
                  (with_input (sample_env sample_file)
                     (Some (with_read_error true sample_file)))) = 0
  /\ output (run_with toy_digest 2
               (with_input (sample_env sample_file)
                  (Some (with_read_error true sample_file))))
     = Some (records (unread sample_file) ≫= record_line toy_digest).
Proof.
  assert (H2 : 0 < 2 < 2 ^ 32) by lia.
  split; [split; [apply sample_env_faultless|split;
         [exact H2|exact sample_records_small]]|].
  exact (proj2 (proj2 (read_failure_is_end_of_stream toy_digest 2
                         (sample_env sample_file)))
           sample_file (sample_env_faultless sample_file) H2
           sample_records_small).
Defined.

(** C10. Once both files are open, the output file exists however the run
    ends: it is created, empty, before the first OpenCL call (every OpenCL
    call of the trace comes after the creation), and later steps only
    append to it. The run ends with status 0 or 1; when no
    device is found, when the kernel does not build or when the batch
    metadata cannot be allocated it ends with status 1 and leaves the
    output file empty. *)
Theorem output_file_created_first
    (sha256 : list ascii -> list Z) (max_batch_lines : Z)
    (env : environment) (fin : FILE) :
  argc env = 3 ->
  input_file env = Some fin ->
  output_creatable env = true ->
  (exists content, output (run_with sha256 max_batch_lines env) = Some content)
  /\ (exists t, calls (run_with sha256 max_batch_lines env)
                = EvOpenInput :: EvCreateOutput :: t)
  /\ (exit_code (run_with sha256 max_batch_lines env) = 0
      \/ exit_code (run_with sha256 max_batch_lines env) = 1)
  /\ (forall pre e post,
        calls (run_with sha256 max_batch_lines env) = pre ++ e :: post ->
        accelerator_event e = true -> EvCreateOutput ∈ pre)
  /\ (first_usable (platforms env) = None
      \/ cl_status env BuildProgram 0 <> CL_SUCCESS
      \/ alloc_ok env AllocBatchMetadata 0 = false ->
      exit_code (run_with sha256 max_batch_lines env) = 1
      /\ output (run_with sha256 max_batch_lines env) = Some []).
Proof.
  assert (Horder : forall (t : list event) pre e post,
            EvOpenInput :: EvCreateOutput :: t = pre ++ e :: post ->
            accelerator_event e = true -> EvCreateOutput ∈ pre).
  { intros t [|a [|b pre]] e post Heq He.
    - injection Heq as <- _. discriminate.
    - injection Heq as _ <- _. discriminate.
    - injection Heq as _ <- _. apply list_elem_of_further, list_elem_of_here. }
  intros Hargc Hin Hout. unfold run_with, main_with.
  rewrite Hargc, Hin, Hout. change (3 =? 3) with true.
  unfold bind, guard, ret, log, create_output. cbn [out_file trace app].
  destruct (quiet_bootstrap env (mkWorld (Some []) [EvOpenInput; EvCreateOutput]))
    as (s & t & Hboot & _ & Hs).
  rewrite Hboot. cbn [out_file trace app] in *. destruct s as [[]|c].
  - destruct (steady_batch_loop sha256 env max_batch_lines
                (S (length (unread fin))) fin 0
                (mkWorld (Some []) (EvOpenInput :: EvCreateOutput :: t)))
      as (s' & f & t' & Hloop & _ & Hs').
    rewrite Hloop.
    cbn [out_file trace app fmap option_fmap option_map] in *.
    apply bootstrap_go in Hboot as (Hdev & Hbuild & Hmeta).
    destruct s' as [[]|c]; cbn [exit_code output calls].
    + split; [by eexists|]. split; [by eexists|]. split; [by left|].
      split; [apply Horder|].
      intros [H|[H|H]]; [done|done|congruence].
    + rewrite (Hs' c eq_refl).
      split; [by eexists|]. split; [by eexists|]. split; [by right|].
      split; [apply Horder|].
      intros [H|[H|H]]; [done|done|congruence].
  - rewrite (Hs c eq_refl). cbn [exit_code output calls].
    split; [by eexists|]. split; [by eexists|]. split; [by right|].
    split; [apply Horder|]. intros _. done.
Qed.

Lemma output_file_created_first_witness :
  (argc (sample_env sample_file) = 3
   /\ input_file (sample_env sample_file) = Some sample_file
   /\ output_creatable (sample_env sample_file) = true)
  /\ (exists content,
        output (run_with toy_digest 2 (sample_env sample_file)) = Some content)
  /\ (exists t, calls (run_with toy_digest 2 (sample_env sample_file))
                = EvOpenInput :: EvCreateOutput :: t)
  /\ (exit_code (run_with toy_digest 2 (sample_env sample_file)) = 0
      \/ exit_code (run_with toy_digest 2 (sample_env sample_file)) = 1)
  /\ (forall pre e post,
        calls (run_with toy_digest 2 (sample_env sample_file))
        = pre ++ e :: post ->
        accelerator_event e = true -> EvCreateOutput ∈ pre)
  /\ (first_usable (platforms (sample_env sample_file)) = None
      \/ cl_status (sample_env sample_file) BuildProgram 0 <> CL_SUCCESS
      \/ alloc_ok (sample_env sample_file) AllocBatchMetadata 0 = false ->
      exit_code (run_with toy_digest 2 (sample_env sample_file)) = 1
      /\ output (run_with toy_digest 2 (sample_env sample_file)) = Some []).
Proof.
  split; [split; [reflexivity|split; reflexivity]|].
  exact (output_file_created_first toy_digest 2 (sample_env sample_file)
           sample_file eq_refl eq_refl eq_refl).
Defined.

(** * Further properties of the two drivers *)

(** ** Memory blocks *)

Lemma c_string_written (s : list ascii) (rest : block) :
  c_string ((Some <$> s) ++ Some NUL :: rest) = Some (until_nul s).
Proof.
  induction s as [|c s IH]; [reflexivity|].
  cbn [fmap list_fmap app c_string until_nul].
  change (c_string (list_fmap _ _ Some s ++ Some NUL :: rest))
    with (c_string ((Some <$> s) ++ Some NUL :: rest)).
  rewrite IH. by destruct (Ascii.eqb c NUL).
Qed.

Lemma store_after (s : list ascii) (rest : block) (c : ascii) :
  rest <> [] ->
  store ((Some <$> s) ++ rest) (Z.of_nat (length s)) c
  = Some ((Some <$> s) ++ Some c :: drop 1 rest).
Proof.
  intros Hrest. unfold store.
  rewrite length_app, length_fmap, Nat2Z.id.
  destruct rest as [|x rest]; [done|]. cbn [length].
  destruct (Z.leb_spec 0 (Z.of_nat (length s))); [|lia].
  destruct (Z.ltb_spec (Z.of_nat (length s))
              (Z.of_nat (length s + S (length rest)))); [|lia].
  cbn [andb]. f_equal.
  rewrite insert_app_r_alt by (rewrite length_fmap; lia).
  rewrite length_fmap, Nat.sub_diag. reflexivity.
Qed.

(** ** [read_text_file] *)

Lemma read_text_file_spec (f : whole_file) :
  tell f <= LONG_MAX ->
  (readable f = false -> read_text_file f = Some (Exit 1))
  /\ (readable f = true ->
      let nread := Z.min (tell f) (Z.of_nat (length (delivered f))) in
      let text := take (Z.to_nat nread) (delivered f) in
      exists buf,
        read_text_file f = Some (Go (buf, nread))
        /\ Z.of_nat (length buf) = tell f + 1
        /\ take (Z.to_nat nread) buf = Some <$> text
        /\ buf !! Z.to_nat nread = Some (Some NUL)
        /\ c_string buf = Some (until_nul text)).
Proof.
  intros Hlong. unfold LONG_MAX in Hlong. split.
  - intros Hr. unfold readable, read_text_file in *.
    destruct (opens f); [|reflexivity].
    destruct (seek_ok f); [|reflexivity].
    destruct (tell f <? 0); [reflexivity|].
    destruct (malloc_ok f); [discriminate|reflexivity].
  - intros Hr nread text. unfold readable, read_text_file in *.
    destruct (opens f); [|discriminate].
    destruct (seek_ok f); [|discriminate].
    destruct (Z.ltb_spec (tell f) 0); [discriminate|].
    destruct (malloc_ok f); [|discriminate].
    cbn [negb]. cbv zeta.
    assert (Hlen : 0 <= tell f < 2 ^ 63) by lia.
    rewrite (to_size_t_small (tell f)) by lia.
    rewrite (to_size_t_small (tell f + 1)) by lia.
    unfold fread, malloc. rewrite length_replicate, length_take.
    assert (Hn : Z.of_nat (Z.to_nat (tell f) `min` length (delivered f)) = nread)
      by (subst nread; lia).
    rewrite Hn.
    destruct (Z.leb_spec nread (Z.of_nat (Z.to_nat (tell f + 1)))); [|lia].
    cbn [mbind option_bind].
    rewrite drop_replicate.
    assert (Htext : take (Z.to_nat (tell f)) (delivered f) = text).
    { subst text nread.
      destruct (Z.le_gt_cases (tell f) (Z.of_nat (length (delivered f)))).
      - by rewrite Z.min_l by lia.
      - rewrite Z.min_r, Nat2Z.id by lia.
        rewrite !take_ge by lia. reflexivity. }
    rewrite Htext.
    assert (Hlt : length text = Z.to_nat nread).
    { subst text. rewrite length_take. lia. }
    match goal with
    | |- context [store (_ ++ ?r) nread NUL] =>
        assert (Hst : store ((Some <$> text) ++ r) nread NUL
                      = Some ((Some <$> text) ++ Some NUL :: drop 1 r))
    end.
    { replace nread with (Z.of_nat (length text)) by lia.
      apply store_after. intros Hnil. apply (f_equal length) in Hnil.
      rewrite length_replicate in Hnil. simpl in Hnil. lia. }
    rewrite Hst. cbn [mbind option_bind].
    eexists. split; [reflexivity|].
    split; [|split; [|split]].
    + rewrite length_app, length_fmap. cbn [length].
      rewrite length_drop, length_replicate. lia.
    + rewrite <- Hlt. rewrite take_app_length'; [done|by rewrite length_fmap].
    + rewrite <- Hlt. rewrite lookup_app_r by (rewrite length_fmap; lia).
      rewrite length_fmap, Nat.sub_diag. reflexivity.
    + apply c_string_written.
Qed.

(** X1. [read_text_file] ends the process with status 1 exactly when the
    file cannot be opened, the seek fails, [ftell] reports a negative
    position or [malloc] fails. Otherwise it returns a block of [len + 1]
    bytes and the number [nread] of bytes read, the smaller of [len] and of
    what the stream delivers: the block starts with the bytes read, holds a
    NUL right after them, inside the block, and is a proper C string. A
    short read is not an error. *)
Theorem read_text_file_terminated (f : whole_file) :
  tell f <= LONG_MAX ->
  (readable f = false -> read_text_file f = Some (Exit 1))
  /\ (readable f = true ->
      let nread := Z.min (tell f) (Z.of_nat (length (delivered f))) in
      let text := take (Z.to_nat nread) (delivered f) in
      exists buf,
        read_text_file f = Some (Go (buf, nread))
        /\ Z.of_nat (length buf) = tell f + 1
        /\ take (Z.to_nat nread) buf = Some <$> text
        /\ buf !! Z.to_nat nread = Some (Some NUL)
        /\ c_string buf = Some (until_nul text)).
Proof. exact (read_text_file_spec f). Qed.

Lemma read_text_file_terminated_witness :
  tell sample_source <= LONG_MAX
  /\ (readable sample_source = false ->
      read_text_file sample_source = Some (Exit 1))
  /\ (readable sample_source = true ->
      let nread := Z.min (tell sample_source)
                     (Z.of_nat (length (delivered sample_source))) in
      let text := take (Z.to_nat nread) (delivered sample_source) in
      exists buf,
        read_text_file sample_source = Some (Go (buf, nread))
        /\ Z.of_nat (length buf) = tell sample_source + 1
        /\ take (Z.to_nat nread) buf = Some <$> text
        /\ buf !! Z.to_nat nread = Some (Some NUL)
        /\ c_string buf = Some (until_nul text)).
Proof.
  assert (H : tell sample_source <= LONG_MAX) by (vm_compute; discriminate).
  split; [exact H|]. exact (read_text_file_terminated sample_source H).
Defined.

(** ** [print_platform_device_info] *)

Lemma print_info_spec (label : string) (r : info_reply) (buf : block) sz err :
  length buf = 256%nat -> well_formed r ->
  exists buf' sz',
    print_info (list_ascii_of_string label) r (buf, sz, err)
    = Some (buf', sz', err ++ info_line label r)
    /\ length buf' = 256%nat.
Proof.
  intros Hbuf Hwf. unfold print_info, get_info, info_line, well_formed in *.
  destruct (reply_status r =? CL_SUCCESS) eqn:Est.
  - rewrite Est. destruct Hwf as [Hsz Hle]; [by apply Z.eqb_eq|].
    set (value := reply_value r) in *.
    assert (Hn : (length value <= 256)%nat) by lia.
    rewrite Hbuf, (take_ge value) by lia.
    rewrite to_size_t_small by lia. rewrite Hsz.
    destruct (Z.leb_spec 256 (Z.of_nat (length value))) as [Hfull|Hroom].
    + assert (Hlen : length value = 256%nat) by lia.
      rewrite drop_ge, app_nil_r by lia.
      assert (Hval : value = take 255 value ++ drop 255 value)
        by (by rewrite take_drop).
      destruct (drop 255 value) as [|c rest] eqn:Edrop.
      { apply (f_equal length) in Edrop. rewrite length_drop in Edrop.
        simpl in Edrop. lia. }
      assert (Hpre : length (take 255 value) = 255%nat)
        by (rewrite length_take; lia).
      set (pre := take 255 value) in *.
      assert (Hst : store (Some <$> value) (256 - 1) NUL
                    = Some ((Some <$> pre)
                            ++ Some NUL :: drop 1 (Some <$> c :: rest))).
      { change (256 - 1) with (Z.of_nat 255). rewrite <- Hpre.
        transitivity
          (store ((Some <$> pre) ++ (Some <$> c :: rest))
             (Z.of_nat (length pre)) NUL).
        - by rewrite <- fmap_app, <- Hval.
        - by apply store_after. }
      rewrite Hst.
      cbn [mbind option_bind]. rewrite c_string_written.
      cbn [mbind option_bind]. eexists _, _. split; [reflexivity|].
      rewrite length_app, length_fmap, Hpre. cbn [length].
      rewrite length_drop. cbn [fmap list_fmap length].
      apply (f_equal length) in Hval. rewrite length_app, Hpre in Hval.
      cbn [length] in Hval. rewrite length_fmap. lia.
    + rewrite store_after.
      2:{ intros Hnil. apply (f_equal length) in Hnil.
          rewrite length_drop in Hnil. simpl in Hnil. lia. }
      cbn [mbind option_bind]. rewrite c_string_written.
      cbn [mbind option_bind]. rewrite (take_ge value) by lia.
      eexists _, _. split; [reflexivity|].
      rewrite length_app, length_fmap. cbn [length].
      rewrite !length_drop. lia.
  - rewrite Est. eexists _, _. rewrite app_nil_r. split; [reflexivity|].
    unfold malloc. rewrite length_replicate. lia.
Qed.

(** X2. For replies as the OpenCL interface gives them (on success the
    size reported is that of the value, 256 bytes at most),
    [print_platform_device_info] writes one line for each of the two
    queries that succeeds and nothing for one that fails. The name printed
    is the value up to its first NUL, cut to 255 bytes when the value
    fills the buffer without one: the terminator the function stores falls
    inside the 256 bytes of [buf], and no byte not written is read. *)
Theorem device_report_truncated (platform_reply device_reply : info_reply) :
  well_formed platform_reply -> well_formed device_reply ->
  print_platform_device_info platform_reply device_reply
  = Some (info_line "[OpenCL] Platform: " platform_reply
          ++ info_line "[OpenCL] Device  : " device_reply).
Proof.
  intros Hp Hd. unfold print_platform_device_info.
  destruct (print_info_spec "[OpenCL] Platform: " platform_reply (malloc 256) 0 [])
    as (buf1 & sz1 & -> & Hlen1); [reflexivity|done|].
  cbn [mbind option_bind].
  destruct (print_info_spec "[OpenCL] Device  : " device_reply buf1 sz1
              ([] ++ info_line "[OpenCL] Platform: " platform_reply))
    as (buf2 & sz2 & -> & _); [done|done|].
  reflexivity.
Qed.

Lemma device_report_truncated_witness :
  (well_formed sample_platform_reply /\ well_formed sample_device_reply)
  /\ print_platform_device_info sample_platform_reply sample_device_reply
     = Some (info_line "[OpenCL] Platform: " sample_platform_reply
             ++ info_line "[OpenCL] Device  : " sample_device_reply).
Proof.
  assert (H1 : well_formed sample_platform_reply).
  { intros _. split; [reflexivity|vm_compute; discriminate]. }
  assert (H2 : well_formed sample_device_reply).
  { intros H. vm_compute in H. discriminate H. }
  split; [split; [exact H1|exact H2]|].
  exact (device_report_truncated sample_platform_reply sample_device_reply
           H1 H2).
Defined.

(** ** The choice of the device *)

Lemma choose_device_cases (ps : list platform) (w : world) :
  match first_usable ps with
  | None => choose_device ps w = (Go false, w)
  | Some p =>
      choose_device ps w
      = if list_status p =? CL_SUCCESS
        then (Go true,
              mkWorld (out_file w) (trace w ++ [EvCL GetDeviceIDsList]))
        else (Exit 1,
              mkWorld (out_file w)
                (trace w ++ [EvCL GetDeviceIDsList; EvCL GetDeviceIDsList]))
  end.
Proof.
  induction ps as [|q ps IH]; [reflexivity|].
  cbn [first_usable choose_device]. unfold usable. cbn zeta.
  destruct (fst (count_devices q) =? CL_SUCCESS);
    destruct (snd (count_devices q) =? 0); cbn [negb orb andb]; try exact IH.
  apply bind_CHECK_CL_list.
Qed.

Lemma first_usable_split (ps : list platform) (p : platform) :
  first_usable ps = Some p ->
  exists skipped rest,
    ps = skipped ++ p :: rest
    /\ Forall (fun q => usable q = false) skipped
    /\ usable p = true.
Proof.
  induction ps as [|q ps IH]; [discriminate|].
  cbn [first_usable]. destruct (usable q) eqn:Eq.
  - intros [= ->]. exists [], ps. by repeat split.
  - intros Hp. destruct (IH Hp) as (skipped & rest & -> & Hsk & Hus).
    exists (q :: skipped), rest. repeat split; [|done]. by constructor.
Qed.

Lemma no_device_spec (q : Z * Z) :
  if no_device q then fst q = CL_DEVICE_NOT_FOUND \/ snd q = 0
  else fst q <> CL_DEVICE_NOT_FOUND /\ snd q <> 0.
Proof.
  unfold no_device.
  destruct (Z.eqb_spec (fst q) CL_DEVICE_NOT_FOUND), (Z.eqb_spec (snd q) 0);
    cbn [orb]; auto.
Qed.

(** X3. The device search takes the first platform of the list that has a
    device: the platforms before it are passed over without a call that is
    checked, those after it are not looked at. The devices of that platform
    are listed once if the listing succeeds. If it fails, the macro makes
    the listing call a second time for its message and the process ends
    with status 1; no further platform is tried. With no such platform the
    search reports that none was found. A platform has a device when the
    GPU query finds one and succeeds; or, the GPU query finding none, the
    CPU query does; or, both finding none, the query for any device
    does. *)
Theorem device_selection (ps : list platform) (w : world) :
  (first_usable ps = None ->
   Forall (fun q => usable q = false) ps
   /\ choose_device ps w = (Go false, w))
  /\ (forall p, first_usable ps = Some p ->
        exists skipped rest,
          ps = skipped ++ p :: rest
          /\ Forall (fun q => usable q = false) skipped
          /\ usable p = true
          /\ choose_device ps w
             = if list_status p =? CL_SUCCESS
               then (Go true,
                     mkWorld (out_file w)
                       (trace w ++ [EvCL GetDeviceIDsList]))
               else (Exit 1,
                     mkWorld (out_file w)
                       (trace w ++ [EvCL GetDeviceIDsList;
                                    EvCL GetDeviceIDsList])))
  /\ (forall p,
        usable p = true <->
        (snd (query_gpu p) <> 0 /\ fst (query_gpu p) = CL_SUCCESS)
        \/ (no_device (query_gpu p) = true
            /\ snd (query_cpu p) <> 0 /\ fst (query_cpu p) = CL_SUCCESS)
        \/ (no_device (query_gpu p) = true /\ no_device (query_cpu p) = true
            /\ snd (query_all p) <> 0 /\ fst (query_all p) = CL_SUCCESS)).
Proof.
  split; [|split].
  - intros Hnone. split.
    + induction ps as [|q ps IH]; [constructor|].
      cbn [first_usable] in Hnone. destruct (usable q) eqn:Eq; [discriminate|].
      constructor; [done|by apply IH].
    + pose proof (choose_device_cases ps w) as H. by rewrite Hnone in H.
  - intros p Hp. destruct (first_usable_split ps p Hp) as (sk & rest & ? & ? & ?).
    exists sk, rest. repeat split; try done.
    pose proof (choose_device_cases ps w) as Hc. by rewrite Hp in Hc.
  - intros p. unfold usable, count_devices. cbn zeta.
    pose proof (no_device_spec (query_gpu p)) as G.
    pose proof (no_device_spec (query_cpu p)) as C.
    destruct (no_device (query_gpu p)) eqn:EG;
      [destruct (no_device (query_cpu p)) eqn:EC|]; rewrite ?EG, ?EC;
      rewrite Bool.andb_true_iff, Bool.negb_true_iff, Z.eqb_eq, Z.eqb_neq;
      unfold CL_SUCCESS, CL_DEVICE_NOT_FOUND in *;
      intuition (try discriminate; try lia).
Qed.

(** ** The accumulator, whatever the stream and the allocator do *)

Lemma read_batch_capacity ok maxb :
  0 <= maxb < 2 ^ 32 ->
  forall fuel b b',
    0 <= num_msgs b <= maxb ->
    Z.of_nat (length (line_bufs b)) = num_msgs b ->
    length (lens_host b) = length (line_bufs b) ->
    read_batch fuel ok maxb b = Go b' ->
    0 <= num_msgs b' <= maxb
    /\ Z.of_nat (length (line_bufs b')) = num_msgs b'
    /\ length (lens_host b') = length (line_bufs b')
    /\ line_bufs b `prefix_of` line_bufs b'.
Proof.
  intros Hmax. induction fuel as [|fuel IH]; intros b b' Hn Hbufs Hlens Hread.
  { injection Hread as <-. repeat split; try done; lia. }
  cbn [read_batch] in Hread.
  destruct (Z.leb_spec maxb (num_msgs b));
    [injection Hread as <-; repeat split; try done; lia|].
  destruct (getline (fin_after b)) as [[linelen line] fin'].
  destruct (linelen <? 0);
    [injection Hread as <-; repeat split; try done; lia|].
  destruct (ok (num_msgs b)); [|discriminate]. cbn [negb] in Hread.
  apply IH in Hread; cbn [num_msgs line_bufs lens_host] in *.
  - destruct Hread as (? & ? & ? & [k Hk]).
    split; [done|]. split; [done|]. split; [done|].
    exists (copy_line line (strip_len line linelen) :: k).
    by rewrite Hk, <- app_assoc.
  - rewrite to_uint32_small; lia.
  - rewrite to_uint32_small, length_app by lia. simpl. lia.
  - rewrite !length_app. simpl. lia.
Qed.

(** X4. Whatever the stream holds and whichever allocation fails, a batch
    the accumulator returns has at most [max_batch_lines] records, and both
    metadata arrays hold exactly one entry for each: no index at or above
    [max_batch_lines] is ever written. *)
Theorem batch_fits_metadata_arrays
    (ok : Z -> bool) (max_batch_lines : Z) (fin : FILE) (b : batch) :
  0 <= max_batch_lines < 2 ^ 32 ->
  accumulate ok max_batch_lines fin = Go b ->
  0 <= num_msgs b <= max_batch_lines
  /\ Z.of_nat (length (line_bufs b)) = num_msgs b
  /\ length (lens_host b) = length (line_bufs b).
Proof.
  intros Hmax Hacc. unfold accumulate in Hacc.
  destruct (read_batch_capacity ok max_batch_lines Hmax
              (S (length (unread fin))) (mkBatch fin 0 0 [] []) b)
    as (? & ? & ? & _); cbn [num_msgs line_bufs lens_host]; try done. lia.
Qed.

Lemma batch_fits_metadata_arrays_witness :
  (0 <= 2 < 2 ^ 32
   /\ accumulate (fun _ => true) 2 sample_file = Go sample_batch)
  /\ 0 <= num_msgs sample_batch <= 2
  /\ Z.of_nat (length (line_bufs sample_batch)) = num_msgs sample_batch
  /\ length (lens_host sample_batch) = length (line_bufs sample_batch).
Proof.
  assert (H1 : 0 <= 2 < 2 ^ 32) by lia.
  assert (H2 : accumulate (fun _ => true) 2 sample_file = Go sample_batch)
    by (vm_compute; reflexivity).
  split; [split; [exact H1|exact H2]|].
  exact (batch_fits_metadata_arrays (fun _ => true) 2 sample_file sample_batch
           H1 H2).
Defined.

Lemma terminated_snoc recs r :
  terminated (recs ++ [r]) = terminated recs ++ r ++ [newline].
Proof. unfold terminated. rewrite bind_app. simpl. by rewrite app_nil_r. Qed.

Lemma read_batch_at_end ok maxb fuel b :
  unread (fin_after b) = [] -> read_batch fuel ok maxb b = Go b.
Proof.
  intros Hend. destruct fuel as [|fuel]; [done|]. cbn [read_batch].
  destruct (maxb <=? num_msgs b); [done|].
  unfold getline. by rewrite Hend.
Qed.

Lemma read_batch_keeps_bytes ok maxb :
  forall fuel b b',
    Z.of_nat (length (unread (fin_after b))) <= SSIZE_MAX ->
    read_batch fuel ok maxb b = Go b' ->
    terminated (line_bufs b') ++ unread (fin_after b')
    = terminated (line_bufs b) ++ unread (fin_after b)
    \/ (unread (fin_after b') = []
        /\ (exists c, last (unread (fin_after b)) = Some c /\ c <> newline)
        /\ terminated (line_bufs b')
           = terminated (line_bufs b) ++ unread (fin_after b) ++ [newline]).
Proof.
  induction fuel as [|fuel IH]; intros b b' Hsz Hread.
  { injection Hread as <-. by left. }
  cbn [read_batch] in Hread.
  destruct (maxb <=? num_msgs b); [injection Hread as <-; by left|].
  unfold getline in Hread.
  destruct (unread (fin_after b)) as [|c rest] eqn:Edata;
    [injection Hread as <-; rewrite Edata; by left|].
  pose proof (getdelim_app (c :: rest)) as Happ.
  pose proof (getdelim_nonempty c rest) as Hne.
  pose proof (getdelim_shape (c :: rest)) as Hshape.
  destruct (getdelim (c :: rest)) as [l r]. cbn [fst snd] in *.
  destruct (Z.ltb_spec (Z.of_nat (length l)) 0); [lia|].
  assert (Hlen : Z.of_nat (length l) < 2 ^ 64).
  { apply (f_equal length) in Happ. rewrite length_app in Happ.
    unfold SSIZE_MAX in Hsz. lia. }
  destruct (strip_len_chomp l Hne Hlen) as [_ Hcopy].
  rewrite Hcopy in Hread.
  destruct (ok (num_msgs b)); [|discriminate]. cbn [negb] in Hread.
  destruct Hshape as [[body [-> Hbody]] | [Hl ->]].
  - rewrite chomp_snoc in Hread.
    apply IH in Hread; cbn [fin_after line_bufs unread] in *.
    2:{ apply (f_equal length) in Happ. rewrite !length_app in Happ. lia. }
    rewrite terminated_snoc in Hread. rewrite <- Happ.
    destruct Hread as [Hread|(Hend & (c1 & Hlast & Hc1) & Hread)].
    + left. rewrite Hread, <- !app_assoc. reflexivity.
    + right. split; [done|]. split.
      * exists c1. split; [|done]. rewrite last_app, Hlast. done.
      * rewrite Hread, <- !app_assoc. reflexivity.
  - rewrite app_nil_r in Happ. subst l.
    rewrite chomp_no_delimiter in Hread by (by apply last_not_elem).
    rewrite read_batch_at_end in Hread by done.
    injection Hread as <-. cbn [fin_after line_bufs unread].
    right. split; [done|]. split; [|apply terminated_snoc].
    destruct (last (c :: rest)) as [c1|] eqn:El.
    + exists c1. split; [done|]. intros ->.
      by apply (last_not_elem (c :: rest) newline).
    + by apply last_None in El.
Qed.

(** X5. The accumulator loses no byte of the stream and adds none but one
    delimiter: the records of a batch, each followed by a delimiter, and
    then the bytes still unread, are the bytes of the stream, with one
    delimiter more when the batch reached the end of a stream that no
    delimiter ends. For a stream that ends with a delimiter they are the
    stream itself. *)
Theorem reader_loses_no_byte
    (ok : Z -> bool) (max_batch_lines : Z) (fin : FILE) (b : batch) :
  Z.of_nat (length (unread fin)) <= SSIZE_MAX ->
  accumulate ok max_batch_lines fin = Go b ->
  (terminated (line_bufs b) ++ unread (fin_after b) = unread fin
   \/ (unread (fin_after b) = []
       /\ terminated (line_bufs b) = unread fin ++ [newline]))
  /\ (forall data, unread fin = data ++ [newline] ->
        terminated (line_bufs b) ++ unread (fin_after b) = unread fin).
Proof.
  intros Hsz Hacc. unfold accumulate in Hacc.
  pose proof (read_batch_keeps_bytes ok max_batch_lines _
                (mkBatch fin 0 0 [] []) b Hsz Hacc) as H.
  cbn [line_bufs fin_after] in H.
  change (terminated []) with (@nil ascii) in H. cbn [app] in H.
  split.
  - destruct H as [H|(Hend & _ & H)]; [by left|by right].
  - intros data Hdata.
    destruct H as [H|(_ & (c & Hlast & Hc) & _)]; [done|].
    rewrite Hdata, last_snoc in Hlast. congruence.
Qed.

Lemma reader_loses_no_byte_witness :
  (Z.of_nat (length (unread sample_file)) <= SSIZE_MAX
   /\ accumulate (fun _ => true) 2 sample_file = Go sample_batch)
  /\ (terminated (line_bufs sample_batch) ++ unread (fin_after sample_batch)
      = unread sample_file
      \/ (unread (fin_after sample_batch) = []
          /\ terminated (line_bufs sample_batch)
             = unread sample_file ++ [newline]))
  /\ (forall data, unread sample_file = data ++ [newline] ->
        terminated (line_bufs sample_batch) ++ unread (fin_after sample_batch)
        = unread sample_file).
Proof.
  assert (H1 : Z.of_nat (length (unread sample_file)) <= SSIZE_MAX)
    by (vm_compute; discriminate).
  assert (H2 : accumulate (fun _ => true) 2 sample_file = Go sample_batch)
    by (vm_compute; reflexivity).
  split; [split; [exact H1|exact H2]|].
  exact (reader_loses_no_byte (fun _ => true) 2 sample_file sample_batch H1 H2).
Defined.

Lemma read_batch_any_ok ok maxb :
  forall fuel b,
    read_batch fuel ok maxb b = read_batch fuel (fun _ => true) maxb b
    \/ (read_batch fuel ok maxb b = Exit 1 /\ unread (fin_after b) <> []).
Proof.
  induction fuel as [|fuel IH]; intros b; [by left|].
  cbn [read_batch].
  destruct (maxb <=? num_msgs b); [by left|].
  unfold getline.
  destruct (unread (fin_after b)) as [|c rest] eqn:Edata; [by left|].
  destruct (getdelim (c :: rest)) as [l r].
  destruct (Z.of_nat (length l) <? 0); [by left|].
  cbn [negb].
  destruct (ok (num_msgs b)); cbn [negb].
  - match goal with
    | |- context [read_batch fuel ok maxb ?b'] => destruct (IH b') as [->|[-> _]]
    end; [by left|by right].
  - by right.
Qed.

Lemma accumulate_any_ok ok maxb fin :
  accumulate ok maxb fin = accumulate (fun _ => true) maxb fin
  \/ (accumulate ok maxb fin = Exit 1 /\ unread fin <> []).
Proof. apply read_batch_any_ok. Qed.

Lemma accumulate_outcome ok maxb fin :
  match accumulate ok maxb fin with
  | Go b => 0 <= num_msgs b
  | Exit c => c = 1
  end.
Proof. unfold accumulate. by apply read_batch_outcome. Qed.

(** ** The memory accesses of the packer *)

Lemma memcpy_length (dst : list ascii) off (src : list ascii) n :
  0 <= off -> 0 <= n ->
  n <= Z.of_nat (length src) -> off + n <= Z.of_nat (length dst) ->
  length (memcpy dst off src n) = length dst.
Proof.
  intros Hoff Hn Hsrc Hdst. unfold memcpy.
  rewrite !length_app, !length_take, length_drop. lia.
Qed.

Lemma pack_loop_checked_ok stride_bytes (bufs : list (list ascii))
    (lens : list Z) :
  forall todo k (msgs_bytes : list ascii),
    Z.of_nat (k + todo) < 2 ^ 32 ->
    (forall i, (k <= i < k + todo)%nat ->
       exists len src,
         lens !! i = Some len /\ bufs !! i = Some src
         /\ 0 <= len <= Z.of_nat (length src)
         /\ 0 <= to_size_t (Z.of_nat i * stride_bytes)
         /\ to_size_t (Z.of_nat i * stride_bytes) + len
            <= Z.of_nat (length msgs_bytes)) ->
    pack_loop_checked todo (Z.of_nat k) stride_bytes bufs lens msgs_bytes
    = Some (pack_loop todo (Z.of_nat k) stride_bytes bufs lens msgs_bytes).
Proof.
  induction todo as [|todo IH]; intros k msgs_bytes Hk Hin; [reflexivity|].
  cbn [pack_loop_checked pack_loop]. rewrite Nat2Z.id.
  destruct (Hin k) as (len & src & Hlen & Hsrc & Hle & Hoff & Hfit); [lia|].
  rewrite Hlen, Hsrc. cbn [mbind option_bind default from_option]. unfold id.
  replace (to_uint32 (Z.of_nat k + 1)) with (Z.of_nat (S k))
    by (rewrite to_uint32_small; lia).
  destruct (0 <? len) eqn:Epos; cbn [mbind option_bind].
  - unfold memcpy_checked.
    destruct (Z.leb_spec len (Z.of_nat (length src))); [|lia].
    destruct (Z.leb_spec (to_size_t (Z.of_nat k * stride_bytes) + len)
                (Z.of_nat (length msgs_bytes))); [|lia].
    cbn [andb mbind option_bind]. apply IH; [lia|].
    intros i Hi. rewrite memcpy_length by lia. apply Hin. lia.
  - apply IH; [lia|]. intros i Hi. apply Hin. lia.
Qed.

(** X6. While the size of the packed buffer fits [size_t], the packer
    stays inside its objects for records of any length: every read of
    [lens_host] and [line_bufs] is at an index of the batch, no [memcpy]
    reads past the copy of a line or writes past the end of the buffer,
    and the buffer has [num_msgs * stride_bytes] bytes when the loop is
    done. *)
Theorem packer_stays_in_bounds
    (ok : Z -> bool) (max_batch_lines : Z) (fin : FILE) (b : batch) :
  0 < max_batch_lines < 2 ^ 32 ->
  Forall (fun r => record_len r <= SSIZE_MAX) (records (unread fin)) ->
  accumulate ok max_batch_lines fin = Go b ->
  num_msgs b * compute_stride (max_len b) < 2 ^ 64 ->
  pack_checked b (compute_stride (max_len b))
  = Some (pack b (compute_stride (max_len b)))
  /\ Z.of_nat (length (pack b (compute_stride (max_len b))))
     = num_msgs b * compute_stride (max_len b).
Proof.
  intros Hmax Hsz Hacc Htot.
  assert (Hacc' : accumulate (fun _ => true) max_batch_lines fin = Go b).
  { destruct (accumulate_any_ok ok max_batch_lines fin) as [<-|[He _]];
      [done|congruence]. }
  destruct (accumulate_spec (fun _ => true) max_batch_lines fin)
    as [fin' (Heq & _)]; [done|done|done|].
  rewrite Hacc' in Heq. injection Heq as ->.
  set (recs := take _ _) in *.
  assert (Hrecs : within SSIZE_MAX recs) by (by apply Forall_take).
  destruct (max_list_bound SSIZE_MAX recs Hrecs) as [Hml Hall].
  rewrite (Z.max_r 0 SSIZE_MAX) in Hml by (unfold SSIZE_MAX; lia).
  cbn [batch_of max_len num_msgs] in *.
  set (ml := Z.max 0 (Z.of_nat (max_list (length <$> recs)))) in *.
  assert (Hstride : ml <= compute_stride ml /\ 0 < compute_stride ml).
  { rewrite compute_stride_align by lia.
    destruct (align_up_64 (Z.max ml 1)) as (_ & ? & _); lia. }
  set (stride := compute_stride ml) in *.
  assert (Hcnt : Z.of_nat (length recs) < 2 ^ 32).
  { subst recs. rewrite length_take. lia. }
  assert (Hfit : Forall (fun r => Z.of_nat (length (stored r)) <= stride) recs).
  { eapply Forall_impl; [exact Hall|]. simpl. intros r Hr.
    rewrite stored_length. pose proof (to_uint32_le (record_len r)).
    unfold record_len in *. lia. }
  assert (Hpack : pack (batch_of fin' recs) stride = recs ≫= slot stride).
  { apply pack_spec; try done; lia. }
  split.
  - unfold pack_checked, pack. cbn [batch_of num_msgs line_bufs lens_host].
    rewrite Nat2Z.id.
    apply (pack_loop_checked_ok stride recs (lens_of recs) (length recs) 0%nat);
      [simpl; lia|].
    intros i Hi. rewrite length_replicate.
    destruct (lookup_lt_is_Some_2 recs i) as [r Hr]; [lia|].
    exists (to_uint32 (record_len r)), r.
    unfold lens_of. rewrite list_lookup_fmap, Hr. cbn [fmap option_fmap option_map compose].
    pose proof (to_uint32_range (record_len r)).
    pose proof (to_uint32_le (record_len r)).
    rewrite Forall_lookup in Hall. specialize (Hall i r Hr). cbn beta in Hall.
    unfold record_len in *.
    rewrite (to_size_t_small (Z.of_nat i * stride)) by nia.
    rewrite (to_size_t_small (Z.of_nat (length recs) * stride)) by nia.
    repeat split; try done; try lia; nia.
  - rewrite Hpack, slots_length by done. lia.
Qed.

Lemma packer_stays_in_bounds_witness :
  (0 < MAX_BATCH_LINES < 2 ^ 32
   /\ Forall (fun r => record_len r <= SSIZE_MAX) (records (unread stride_file))
   /\ accumulate (fun _ => true) MAX_BATCH_LINES stride_file = Go stride_batch
   /\ num_msgs stride_batch * compute_stride (max_len stride_batch) < 2 ^ 64)
  /\ pack_checked stride_batch (compute_stride (max_len stride_batch))
     = Some (pack stride_batch (compute_stride (max_len stride_batch)))
  /\ Z.of_nat (length (pack stride_batch
                          (compute_stride (max_len stride_batch))))
     = num_msgs stride_batch * compute_stride (max_len stride_batch).
Proof.
  assert (H3 : accumulate (fun _ => true) MAX_BATCH_LINES stride_file
               = Go stride_batch) by (vm_compute; reflexivity).
  assert (H4 : num_msgs stride_batch * compute_stride (max_len stride_batch)
               < 2 ^ 64) by (vm_compute; reflexivity).
  split; [split; [exact max_batch_lines_range|split;
         [exact stride_records_ssize|split; [exact H3|exact H4]]]|].
  exact (packer_stays_in_bounds (fun _ => true) MAX_BATCH_LINES stride_file
           stride_batch max_batch_lines_range stride_records_ssize H3 H4).
Defined.

(** ** The word stride handed to the kernel *)

(** X7. The stride handed to the kernel, counted in 32-bit words, is a
    multiple of 16. Four times that count is the stride in bytes exactly
    when the longest record has at most [2^34 - 64] bytes; for a longer
    record the count has wrapped and falls short by [2^34] bytes or more. *)
Theorem word_stride_exact_iff (max_len : Z) :
  0 <= max_len <= SSIZE_MAX ->
  let stride_bytes := compute_stride max_len in
  let msg_stride := to_uint32 (stride_bytes / 4) in
  (msg_stride * 4 = stride_bytes <-> max_len <= 2 ^ 34 - 64)
  /\ msg_stride mod 16 = 0
  /\ (2 ^ 34 - 64 < max_len -> msg_stride * 4 + 2 ^ 34 <= stride_bytes).
Proof.
  intros Hml stride_bytes msg_stride. subst stride_bytes msg_stride.
  rewrite compute_stride_align by done.
  destruct (align_up_64 (Z.max max_len 1)) as (Hmod & Hle & _); [lia|].
  set (s := align_up (Z.max max_len 1) 64) in *.
  unfold to_uint32, SSIZE_MAX in *. clearbody s.
  assert (Hq : s = 64 * (s / 64)) by (apply Z.div_exact; lia).
  set (q := s / 64) in *. clearbody q. subst s.
  replace (64 * q / 4) with (16 * q) by (apply Z.div_unique_exact; lia).
  pose proof (Z.div_mod (16 * q) (2 ^ 32)) as Hdm.
  pose proof (Z.mod_pos_bound (16 * q) (2 ^ 32)) as Hb.
  set (k := 16 * q / 2 ^ 32) in *. set (m := (16 * q) mod 2 ^ 32) in *.
  clearbody k m.
  assert (Hm16 : m mod 16 = 0).
  { replace m with (16 * (q - 2 ^ 28 * k)) by lia.
    rewrite Z.mul_comm. apply Z.mod_mul. lia. }
  repeat split; try lia.
Qed.

Lemma word_stride_exact_iff_witness :
  0 <= 130 <= SSIZE_MAX
  /\ let stride_bytes := compute_stride 130 in
     let msg_stride := to_uint32 (stride_bytes / 4) in
     (msg_stride * 4 = stride_bytes <-> 130 <= 2 ^ 34 - 64)
     /\ msg_stride mod 16 = 0
     /\ (2 ^ 34 - 64 < 130 -> msg_stride * 4 + 2 ^ 34 <= stride_bytes).
Proof.
  assert (H : 0 <= 130 <= SSIZE_MAX) by (unfold SSIZE_MAX; lia).
  split; [exact H|]. exact (word_stride_exact_iff 130 H).
Defined.

(** ** Runs in which calls fail *)

Lemma cut_short_nil {E} (again : E -> list E) (all : list E) :
  cut_short again all [].
Proof. left. by eexists. Qed.

Lemma cut_short_all {E} (again : E -> list E) (all : list E) :
  cut_short again all all.
Proof. by left. Qed.

Lemma cut_short_cons {E} (again : E -> list E) (e : E) (all t : list E) :
  cut_short again all t -> cut_short again (e :: all) (e :: t).
Proof.
  intros [[k ->]|(before & e' & [k ->] & ->)].
  - left. by exists k.
  - right. exists (e :: before), e'. split; [by exists k|done].
Qed.

Lemma cut_short_again {E} (again : E -> list E) (e : E) (all r : list E) :
  r = again e -> cut_short again (e :: all) (e :: r).
Proof. intros ->. right. exists [], e. split; [by exists all|done]. Qed.

Ltac cut_short_steps :=
  first [ apply cut_short_nil
        | (apply cut_short_again; reflexivity)
        | (apply cut_short_cons; cut_short_steps) ].

(** One test of the program: it lets the run go on, or ends it. *)
Ltac next_check :=
  first [ rewrite bind_CHECK_CL_invoke
        | rewrite bind_invoke, bind_CHECK_CL_ret
        | rewrite bind_CHECK_CL_arg
        | rewrite bind_guard ];
  match goal with
  | |- context [if ?c then _ else (Exit 1, _)] => destruct c
  end; cbn [out_file trace].

Ltac stopped :=
  split; [reflexivity|]; eexists; split;
  [ rewrite <- ?app_assoc; reflexivity | cbn [app]; cut_short_steps ].

Lemma process_batch_cases sha256 env batch_index (b : batch) (w : world) :
  let n := num_msgs b in
  let msg_stride := to_uint32 (compute_stride (max_len b) / 4) in
  match process_batch sha256 env batch_index b w with
  | (Go _, w') =>
      w' = mkWorld
             (emit (run_kernel sha256 (pack b (compute_stride (max_len b)))
                      (take (Z.to_nat n) (lens_host b)) msg_stride n) n
                <$> out_file w)
             (trace w ++ batch_events n msg_stride)
  | (Exit c, w') =>
      c = 1
      /\ exists t, w' = mkWorld (out_file w) (trace w ++ t)
                   /\ cut_short called_again (batch_events n msg_stride) t
  end.
Proof.
  intros n msg_stride. subst n msg_stride. destruct w as [o t0].
  unfold process_batch. cbn zeta.
  next_check;
    [|split; [reflexivity|]; exists []; split;
      [by rewrite app_nil_r|apply cut_short_nil]].
  do 8 (next_check; [|stopped]).
  rewrite bind_log. cbn [out_file trace].
  do 4 (next_check; [|stopped]).
  next_check; [|stopped].
  next_check; [|stopped].
  unfold write_output. cbn [out_file trace].
  rewrite <- !app_assoc. reflexivity.
Qed.

Lemma bootstrap_cases env (w : world) :
  match bootstrap env w with
  | (Go _, w') => w' = mkWorld (out_file w) (trace w ++ bootstrap_events)
  | (Exit c, w') =>
      c = 1
      /\ exists t, w' = mkWorld (out_file w) (trace w ++ t)
                   /\ cut_short called_again bootstrap_events t
  end.
Proof.
  destruct w as [o t0]. unfold bootstrap.
  next_check; [|stopped].
  next_check; [|stopped].
  next_check; [|stopped].
  unfold bind at 1.
  pose proof (choose_device_cases (platforms env)
                (mkWorld o ((t0 ++ [EvCL GetPlatformIDsCount])
                            ++ [EvCL GetPlatformIDsList]))) as Hdev.
  destruct (first_usable (platforms env)) as [p|]; rewrite Hdev;
    cbn [out_file trace].
  - destruct (list_status p =? CL_SUCCESS); cbn [out_file trace]; [|stopped].
    rewrite bind_guard. cbn [out_file trace].
    do 2 (next_check; [|stopped]).
    next_check; [|stopped].
    next_check; [|stopped].
    rewrite bind_invoke. cbn [out_file trace].
    destruct (cl_status env BuildProgram 0 =? CL_SUCCESS) eqn:Hbuild;
      cbn [negb].
    2:{ rewrite bind_CHECK_CL_ret, Hbuild. stopped. }
    unfold bind at 1, ret at 1.
    next_check; [|stopped].
    unfold guard.
    destruct (alloc_ok env AllocBatchMetadata 0); [|stopped].
    cbn [out_file trace]. rewrite <- !app_assoc. reflexivity.
  - rewrite bind_guard. cbn [out_file trace]. stopped.
Qed.

Lemma batch_loop_calls sha256 env maxb :
  forall fuel fin batch_index (w : world),
    exists s f ds last,
      batch_loop sha256 fuel env maxb fin batch_index w
      = (s, mkWorld (f <$> out_file w)
              (trace w ++ (ds ≫= batch_calls) ++ last))
      /\ (exists n msg_stride, cut_short called_again (batch_events n msg_stride) last)
      /\ match s with
         | Go _ => last = []
         | Exit c => c = 1
         end.
Proof.
  assert (Hnil : exists n msg_stride : Z,
            cut_short called_again (batch_events n msg_stride) [])
    by (exists 0, 0; apply cut_short_nil).
  induction fuel as [|fuel IH]; intros fin batch_index [o t0].
  { exists (Go tt), (fun x => x), [], []. cbn [batch_loop ret out_file trace].
    split; [|done]. rewrite app_nil_r. by destruct o. }
  cbn [batch_loop].
  pose proof (accumulate_outcome
                (line_copy_ok env (to_uint32 (batch_index + 1))) maxb fin) as Hacc.
  destruct (accumulate _ maxb fin) as [b|c].
  2:{ subst c. exists (Exit 1), (fun x => x), [], [].
      cbn [exit_with out_file trace]. split; [|done].
      rewrite app_nil_r. by destruct o. }
  destruct (num_msgs b =? 0).
  { exists (Go tt), (fun x => x), [], []. cbn [ret out_file trace].
    split; [|done]. rewrite app_nil_r. by destruct o. }
  unfold bind.
  pose proof (process_batch_cases sha256 env (to_uint32 (batch_index + 1)) b
                (mkWorld o t0)) as Hbatch.
  cbv zeta in Hbatch.
  destruct (process_batch sha256 env _ b _) as [[[]|c] w1].
  - subst w1. cbn [out_file trace].
    match goal with
    | |- context [batch_loop _ _ _ _ ?f ?i ?w'] =>
        destruct (IH f i w') as (s & f' & ds & last & -> & Hlast & Hs)
    end.
    cbn [out_file trace].
    exists s, (fun out => f' (emit
       (run_kernel sha256 (pack b (compute_stride (max_len b)))
          (take (Z.to_nat (num_msgs b)) (lens_host b))
          (to_uint32 (compute_stride (max_len b) / 4)) (num_msgs b))
       (num_msgs b) out)),
      ((num_msgs b, to_uint32 (compute_stride (max_len b) / 4)) :: ds), last.
    split; [|done]. f_equal. f_equal.
    + by destruct o.
    + rewrite bind_cons. unfold batch_calls at 2. cbn [fst snd].
      by rewrite <- !app_assoc.
  - destruct Hbatch as (-> & t & -> & Ht).
    exists (Exit 1), (fun x => x), [], t. cbn [out_file trace].
    split; [|split; [by eexists _, _|done]].
    by destruct o.
Qed.

Lemma run_opened sha256 maxb env fin :
  argc env = 3 -> input_file env = Some fin -> output_creatable env = true ->
  run_with sha256 maxb env
  = match bootstrap env (mkWorld (Some []) [EvOpenInput; EvCreateOutput]) with
    | (Go _, w1) =>
        match batch_loop sha256 (S (length (unread fin))) env maxb fin 0 w1 with
        | (Go _, w2) => mkRun 0 (out_file w2) (trace w2)
        | (Exit c, w2) => mkRun c (out_file w2) (trace w2)
        end
    | (Exit c, w1) => mkRun c (out_file w1) (trace w1)
    end.
Proof.
  intros Hargc Hin Hout. unfold run_with, main_with.
  rewrite Hargc, Hin, Hout. change (3 =? 3) with true.
  unfold bind, guard, ret, log, create_output. cbn [out_file trace app].
  destruct (bootstrap env _) as [[[]|c] w1]; [|reflexivity].
  destruct (batch_loop sha256 _ env maxb fin 0 w1) as [[[]|c] w2]; reflexivity.
Qed.

Lemma run_not_opened sha256 maxb env :
  argc env <> 3 \/ input_file env = None \/ output_creatable env = false ->
  exit_code (run_with sha256 maxb env) = 1
  /\ output (run_with sha256 maxb env) = output_before env
  /\ (calls (run_with sha256 maxb env) = []
      \/ calls (run_with sha256 maxb env) = [EvOpenInput]).
Proof.
  intros H. unfold run_with, main_with.
  destruct (Z.eqb_spec (argc env) 3) as [Hargc|Hargc].
  2:{ unfold bind, guard, exit_with. cbn. auto. }
  destruct (input_file env) as [fin|].
  2:{ unfold bind, guard, ret, exit_with. cbn. auto. }
  destruct (output_creatable env).
  { destruct H as [?|[?|?]]; done. }
  unfold bind, guard, ret, log, exit_with. cbn. auto.
Qed.

Lemma run_calls sha256 maxb env fin :
  argc env = 3 -> input_file env = Some fin -> output_creatable env = true ->
  exists t ds last,
    calls (run_with sha256 maxb env)
    = EvOpenInput :: EvCreateOutput :: t ++ (ds ≫= batch_calls) ++ last
    /\ cut_short called_again bootstrap_events t
    /\ (exists n msg_stride, cut_short called_again (batch_events n msg_stride) last)
    /\ (t <> bootstrap_events -> ds = [] /\ last = [])
    /\ (exit_code (run_with sha256 maxb env) = 0
        /\ t = bootstrap_events /\ last = []
        \/ exit_code (run_with sha256 maxb env) = 1).
Proof.
  intros Hargc Hin Hout. rewrite (run_opened sha256 maxb env fin) by done.
  assert (Hnil : exists n msg_stride : Z,
            cut_short called_again (batch_events n msg_stride) [])
    by (exists 0, 0; apply cut_short_nil).
  pose proof (bootstrap_cases env
                (mkWorld (Some []) [EvOpenInput; EvCreateOutput])) as Hboot.
  destruct (bootstrap env _) as [[[]|c] w1].
  - subst w1. cbn [out_file trace].
    match goal with
    | |- context [batch_loop _ _ _ _ ?f ?i ?w'] =>
        destruct (batch_loop_calls sha256 env maxb (S (length (unread fin))) f i w')
          as (s & f' & ds & last & -> & Hlast & Hs)
    end.
    cbn [out_file trace].
    exists bootstrap_events, ds, last.
    pose proof (cut_short_all called_again bootstrap_events).
    destruct s as [[]|c]; cbn [calls exit_code].
    + subst last. repeat split; try done. by left.
    + subst c. repeat split; try done. by right.
  - destruct Hboot as (-> & t & -> & Ht). cbn [out_file trace calls exit_code].
    exists t, [], []. rewrite app_nil_r. repeat split; try done. by right.
Qed.

(** X8. The input is opened exactly when the program is given two
    arguments and the input path can be opened; the output path is created
    or truncated exactly when, besides, it can be opened for writing. In
    every other run the process ends with status 1, leaves the output path
    as it was and makes no OpenCL call. *)
Theorem output_path_touched_iff sha256 (max_batch_lines : Z) (env : environment) :
  let r := run_with sha256 max_batch_lines env in
  (EvOpenInput ∈ calls r <-> argc env = 3 /\ is_Some (input_file env))
  /\ (EvCreateOutput ∈ calls r <->
      argc env = 3 /\ is_Some (input_file env) /\ output_creatable env = true)
  /\ (EvCreateOutput ∉ calls r ->
      exit_code r = 1 /\ output r = output_before env
      /\ Forall (fun e => accelerator_event e = false) (calls r)).
Proof.
  intros r. subst r.
  destruct (decide (argc env = 3)) as [Hargc|Hargc].
  2:{ destruct (run_not_opened sha256 max_batch_lines env) as (Hc & Ho & Ht);
        [by left|].
      assert (Hcalls : calls (run_with sha256 max_batch_lines env) = []).
      { unfold run_with, main_with.
        destruct (Z.eqb_spec (argc env) 3); [done|]. reflexivity. }
      rewrite Hcalls, Hc, Ho.
      split; [|split].
      - split; [by intros ?%elem_of_nil|by intros [? _]].
      - split; [by intros ?%elem_of_nil|by intros [? _]].
      - intros _. by repeat split. }
  destruct (input_file env) as [fin|] eqn:Hin.
  2:{ destruct (run_not_opened sha256 max_batch_lines env) as (Hc & Ho & Ht);
        [right; by left|].
      assert (Hcalls : calls (run_with sha256 max_batch_lines env) = []).
      { unfold run_with, main_with. rewrite Hargc, Hin. reflexivity. }
      rewrite Hcalls, Hc, Ho.
      split; [|split].
      - split; [by intros ?%elem_of_nil|by intros [_ []%is_Some_None]].
      - split; [by intros ?%elem_of_nil|by intros (_ & []%is_Some_None & _)].
      - intros _. by repeat split. }
  destruct (output_creatable env) eqn:Hout.
  2:{ destruct (run_not_opened sha256 max_batch_lines env) as (Hc & Ho & Ht);
        [right; by right|].
      assert (Hcalls : calls (run_with sha256 max_batch_lines env) = [EvOpenInput]).
      { unfold run_with, main_with. rewrite Hargc, Hin, Hout. reflexivity. }
      rewrite Hcalls, Hc, Ho.
      split; [|split].
      - split; [by intros _|intros _; apply list_elem_of_here].
      - split; [|by intros (_ & _ & ?)].
        intros [?|?%elem_of_nil]%elem_of_cons; done.
      - intros _. repeat split. by repeat constructor. }
  destruct (run_calls sha256 max_batch_lines env fin Hargc Hin Hout)
    as (t & ds & last & -> & _).
  split; [|split].
  - split; [by intros _|intros _; apply list_elem_of_here].
  - split; [by intros _|].
    intros _. apply list_elem_of_further, list_elem_of_here.
  - intros Hno. exfalso. apply Hno.
    apply list_elem_of_further, list_elem_of_here.
Qed.


Lemma fmap_fmap_app (o : option (list ascii)) (f : list ascii -> list ascii)
    (l1 l2 : list ascii) :
  (forall out, f out = out ++ l1) ->
  (fun out => out ++ l2) <$> (f <$> o) = (fun out => out ++ l1 ++ l2) <$> o.
Proof.
  intros Hf. destruct o as [out|]; [|reflexivity].
  simpl. by rewrite Hf, <- app_assoc.
Qed.

Section Prefix.

Variable sha256 : list ascii -> list Z.
Variables env env' : environment.
Hypothesis Hfl' : faultless env'.
Variable max_batch_lines : Z.
Hypothesis Hmax : 0 < max_batch_lines < 2 ^ 32.

Lemma batch_loop_prefix :
  forall fuel fin batch_index batch_index' o t t',
    (length (records (unread fin)) < fuel)%nat ->
    Forall (fun r => record_len r <= SSIZE_MAX) (records (unread fin)) ->
    exists s (q : nat) lines lines' te te',
      batch_loop sha256 fuel env max_batch_lines fin batch_index (mkWorld o t)
      = (s, mkWorld ((fun out => out ++ lines) <$> o) (t ++ te))
      /\ batch_loop sha256 fuel env' max_batch_lines fin batch_index'
           (mkWorld o t')
         = (Go tt, mkWorld ((fun out => out ++ lines') <$> o) (t' ++ te'))
      /\ lines `prefix_of` lines'
      /\ length lines
         = (65 * Nat.min (q * Z.to_nat max_batch_lines)
                   (length (records (unread fin))))%nat
      /\ match s with
         | Go _ => lines = lines'
         | Exit c =>
             c = 1
             /\ (q * Z.to_nat max_batch_lines
                 < length (records (unread fin)))%nat
         end.
Proof using All.
  induction fuel as [|fuel IH];
    intros fin batch_index batch_index' o t t' Hfuel Hsz; [lia|].
  destruct (batch_loop_shape sha256 env' Hfl' max_batch_lines Hmax (S fuel) fin
              batch_index' (mkWorld o t') Hfuel Hsz)
    as (all & tall & Hall & _ & Hlen_all & _).
  cbn [out_file trace] in Hall.
  destruct (accumulate_spec
              (line_copy_ok env' (to_uint32 (batch_index' + 1)))
              max_batch_lines fin (fl_copy env' Hfl' _) Hmax Hsz)
    as [fin' (Hacc' & Hrest & _)].
  assert (Htrue : accumulate (fun _ => true) max_batch_lines fin
                  = accumulate (line_copy_ok env' (to_uint32 (batch_index' + 1)))
                      max_batch_lines fin).
  { destruct (accumulate_any_ok
                (line_copy_ok env' (to_uint32 (batch_index' + 1)))
                max_batch_lines fin) as [->|[He _]]; [done|congruence]. }
  set (recs := records (unread fin)) in *.
  set (N := Z.to_nat max_batch_lines) in *.
  set (m := Nat.min N (length recs)) in *.
  assert (length (take m recs) = m) as Hm by (rewrite length_take; lia).
  (* the run that fails before it appends anything more *)
  assert (Hfail : forall te, recs <> [] ->
    batch_loop sha256 (S fuel) env max_batch_lines fin batch_index (mkWorld o t)
    = (Exit 1, mkWorld o (t ++ te)) ->
    exists s (q : nat) lines lines' te te',
      batch_loop sha256 (S fuel) env max_batch_lines fin batch_index
        (mkWorld o t)
      = (s, mkWorld ((fun out => out ++ lines) <$> o) (t ++ te))
      /\ batch_loop sha256 (S fuel) env' max_batch_lines fin batch_index'
           (mkWorld o t')
         = (Go tt, mkWorld ((fun out => out ++ lines') <$> o) (t' ++ te'))
      /\ lines `prefix_of` lines'
      /\ length lines = (65 * Nat.min (q * N) (length recs))%nat
      /\ match s with
         | Go _ => lines = lines'
         | Exit c => c = 1 /\ (q * N < length recs)%nat
         end).
  { intros te Hne ->. exists (Exit 1), 0%nat, [], all, te, tall.
    split; [by destruct o; simpl; rewrite ?app_nil_r|].
    split; [done|]. split; [by exists all|]. split; [simpl; lia|].
    split; [done|]. destruct recs; [done|simpl; lia]. }
  destruct (accumulate_any_ok
              (line_copy_ok env (to_uint32 (batch_index + 1)))
              max_batch_lines fin) as [Hacc|[Hacc Hne]].
  2:{ apply (Hfail []).
      - subst recs. by rewrite records_nil.
      - cbn [batch_loop]. rewrite Hacc. by rewrite app_nil_r. }
  rewrite Htrue, Hacc' in Hacc.
  destruct (Z.of_nat m =? 0) eqn:E.
  - assert (recs = []) as Hnil by (apply nil_length_inv; lia).
    assert (all = []) as -> by (apply nil_length_inv; rewrite Hnil in Hlen_all;
                                simpl in Hlen_all; lia).
    exists (Go tt), 0%nat, [], [], [], tall.
    split; [|split; [done|split; [done|split; [simpl; lia|done]]]].
    cbn [batch_loop]. rewrite Hacc. cbn [batch_of num_msgs]. rewrite Hm, E.
    unfold ret. by rewrite fmap_app_nil, app_nil_r.
  - assert (0 < m)%nat as Hpos by lia.
    assert (Hne : recs <> []).
    { intros Hnil. apply (f_equal length) in Hnil. simpl in Hnil. lia. }
    set (b := batch_of fin' (take m recs)) in *.
    set (dh := run_kernel sha256 (pack b (compute_stride (max_len b)))
                 (take (Z.to_nat (num_msgs b)) (lens_host b))
                 (to_uint32 (compute_stride (max_len b) / 4)) (num_msgs b)).
    set (Lb := i ← seq 0 m; hex_line (slot_words dh i)).
    assert (Hemit : forall out, emit dh (num_msgs b) out = out ++ Lb).
    { intros out. unfold emit. subst b. cbn [batch_of num_msgs].
      rewrite Hm, Nat2Z.id.
      apply (emit_loop_spec dh m 0%nat). simpl. lia. }
    assert (HLb : length Lb = (65 * m)%nat).
    { destruct (count_newlines_lines (slot_words dh) (seq 0 m)) as [_ Hl].
      by rewrite length_seq in Hl. }
    (* one step of the run without failure *)
    assert (Hstep' : forall r,
      batch_loop sha256 fuel env' max_batch_lines fin'
        (to_uint32 (batch_index' + 1))
        (mkWorld (emit dh (num_msgs b) <$> o)
           (t' ++ batch_events (num_msgs b)
                    (to_uint32 (compute_stride (max_len b) / 4)))) = r ->
      batch_loop sha256 (S fuel) env' max_batch_lines fin batch_index'
        (mkWorld o t') = r).
    { intros r <-. cbn [batch_loop]. rewrite Hacc'. fold b.
      assert (Hnum : (num_msgs b =? 0) = false)
        by (subst b; cbn [batch_of num_msgs]; by rewrite Hm).
      rewrite Hnum. unfold bind. rewrite (process_batch_ok sha256 env' Hfl').
      reflexivity. }
    pose proof (process_batch_cases sha256 env (to_uint32 (batch_index + 1)) b
                  (mkWorld o t)) as Hbatch.
    cbv zeta in Hbatch. fold dh in Hbatch. cbn [out_file trace] in Hbatch.
    destruct (process_batch sha256 env (to_uint32 (batch_index + 1)) b
                (mkWorld o t)) as [[[]|c] w1] eqn:Eb.
    + subst w1.
      destruct (IH fin' (to_uint32 (batch_index + 1))
                  (to_uint32 (batch_index' + 1))
                  (emit dh (num_msgs b) <$> o)
                  (t ++ batch_events (num_msgs b)
                          (to_uint32 (compute_stride (max_len b) / 4)))
                  (t' ++ batch_events (num_msgs b)
                           (to_uint32 (compute_stride (max_len b) / 4))))
        as (s & q & lines & lines' & te & te' & Hrun & Hrun' & Hpre & Hlen & Hs).
      { rewrite Hrest, length_drop. lia. }
      { rewrite Hrest. by apply Forall_drop. }
      rewrite Hrest, length_drop in Hlen, Hs.
      exists s, (S q), (Lb ++ lines), (Lb ++ lines').
      eexists _, _. split; [|split; [|split; [|split]]].
      * cbn [batch_loop]. rewrite Hacc. fold b.
        assert (Hnum : (num_msgs b =? 0) = false)
          by (subst b; cbn [batch_of num_msgs]; by rewrite Hm).
        rewrite Hnum. unfold bind. rewrite Eb.
        change (fin_after b) with fin'. rewrite Hrun.
        rewrite (fmap_fmap_app o _ Lb lines Hemit), <- app_assoc. reflexivity.
      * apply Hstep'. rewrite Hrun'.
        rewrite (fmap_fmap_app o _ Lb lines' Hemit), <- app_assoc. reflexivity.
      * by apply prefix_app.
      * rewrite length_app, HLb, Hlen. fold N. lia.
      * destruct s as [[]|c]; [by rewrite Hs|].
        destruct Hs as [-> Hs]. split; [done|]. fold N in Hs |- *. lia.
    + destruct Hbatch as (-> & te & -> & _).
      apply (Hfail te Hne).
      cbn [batch_loop]. rewrite Hacc. fold b.
      assert (Hnum : (num_msgs b =? 0) = false)
        by (subst b; cbn [batch_of num_msgs]; by rewrite Hm).
      rewrite Hnum. unfold bind. by rewrite Eb.
Qed.

End Prefix.

(** X10. Once both files are open, what a run leaves in the output file,
    whatever fails later, is a beginning of what the run that meets no
    failure writes for the same input: the lines of a whole number of
    batches, 65 bytes each, never part of a batch. A run that ends with
    status 0 has written all of it. *)
Theorem failed_run_output_is_prefix
    sha256 (env env' : environment) (max_batch_lines : Z) (fin : FILE) :
  argc env = 3 ->
  input_file env = Some fin ->
  output_creatable env = true ->
  faultless env' ->
  input_file env' = Some fin ->
  0 < max_batch_lines < 2 ^ 32 ->
  Forall (fun r => record_len r <= SSIZE_MAX) (records (unread fin)) ->
  let r := run_with sha256 max_batch_lines env in
  let r' := run_with sha256 max_batch_lines env' in
  exists out out' (q : nat),
    output r = Some out
    /\ output r' = Some out'
    /\ exit_code r' = 0
    /\ out `prefix_of` out'
    /\ length out
       = (65 * Nat.min (q * Z.to_nat max_batch_lines)
                 (length (records (unread fin))))%nat
    /\ (exit_code r = 0 /\ out = out' \/ exit_code r = 1).
Proof.
  intros Hargc Hin Hout Hfl' Hin' Hmax Hsz r r'. subst r r'.
  rewrite (run_opened sha256 max_batch_lines env fin) by done.
  rewrite (run_opened sha256 max_batch_lines env' fin
             (fl_argc env' Hfl') Hin' (fl_output env' Hfl')).
  rewrite (bootstrap_ok env') by done. cbn [out_file trace].
  assert (Hfuel : (length (records (unread fin)) < S (length (unread fin)))%nat).
  { pose proof (records_length_le (unread fin)). lia. }
  pose proof (bootstrap_cases env
                (mkWorld (Some []) [EvOpenInput; EvCreateOutput])) as Hboot.
  destruct (bootstrap env _) as [[[]|c] w1].
  - subst w1. cbn [out_file trace].
    destruct (batch_loop_prefix sha256 env env' Hfl' max_batch_lines Hmax
                (S (length (unread fin))) fin 0 0 (Some [])
                ([EvOpenInput; EvCreateOutput] ++ bootstrap_events)
                ([EvOpenInput; EvCreateOutput] ++ bootstrap_events) Hfuel Hsz)
      as (s & q & lines & lines' & te & te' & -> & -> & Hpre & Hlen & Hs).
    exists lines, lines', q.
    destruct s as [[]|c]; cbn [output exit_code out_file fmap option_fmap
                                option_map app].
    + repeat split; try done. by left.
    + destruct Hs as [-> Hs]. repeat split; try done. by right.
  - destruct Hboot as (-> & t & -> & _). cbn [out_file trace].
    destruct (batch_loop_shape sha256 env' Hfl' max_batch_lines Hmax
                (S (length (unread fin))) fin 0
                (mkWorld (Some []) ([EvOpenInput; EvCreateOutput]
                                    ++ bootstrap_events)) Hfuel Hsz)
      as (all & tall & -> & _).
    exists [], all, 0%nat.
    cbn [output exit_code out_file fmap option_fmap option_map app].
    repeat split; try done; [by exists all|by right].
Qed.

Lemma failed_run_output_is_prefix_witness :
  (argc (second_batch_fails sample_file) = 3
   /\ input_file (second_batch_fails sample_file) = Some sample_file
   /\ output_creatable (second_batch_fails sample_file) = true
   /\ faultless (sample_env sample_file)
   /\ input_file (sample_env sample_file) = Some sample_file
   /\ 0 < 2 < 2 ^ 32
   /\ Forall (fun r => record_len r <= SSIZE_MAX)
        (records (unread sample_file)))
  /\ let r := run_with toy_digest 2 (second_batch_fails sample_file) in
     let r' := run_with toy_digest 2 (sample_env sample_file) in
     exists out out' (q : nat),
       output r = Some out
       /\ output r' = Some out'
       /\ exit_code r' = 0
       /\ out `prefix_of` out'
       /\ length out
          = (65 * Nat.min (q * Z.to_nat 2)
                    (length (records (unread sample_file))))%nat
       /\ (exit_code r = 0 /\ out = out' \/ exit_code r = 1).
Proof.
  assert (H6 : 0 < 2 < 2 ^ 32) by lia.
  split; [split; [reflexivity|split; [reflexivity|split; [reflexivity|split;
         [apply sample_env_faultless|split; [reflexivity|split;
         [exact H6|exact sample_records_ssize]]]]]]|].
  exact (failed_run_output_is_prefix toy_digest (second_batch_fails sample_file)
           (sample_env sample_file) 2 sample_file eq_refl eq_refl eq_refl
           (sample_env_faultless sample_file) eq_refl H6 sample_records_ssize).
Defined.

(** ** The single-shot driver: packing the file in words *)

Lemma single_shot_word_count_facts (file_size : Z) :
  0 <= file_size <= 2 ^ 32 - 4 ->
  SingleShot.len_bytes_of file_size = file_size
  /\ SingleShot.msg_stride_of (SingleShot.len_bytes_of file_size)
     = (file_size + 3) / 4
  /\ file_size <= 4 * ((file_size + 3) / 4) < file_size + 4.
Proof.
  intros Hsize. unfold SingleShot.len_bytes_of, SingleShot.msg_stride_of.
  rewrite (to_uint32_small file_size), to_uint32_small by lia.
  pose proof (Z.div_mod (file_size + 3) 4).
  pose proof (Z.mod_pos_bound (file_size + 3) 4).
  repeat split; lia.
Qed.

(** X11. The single-shot driver keeps the length of the file modulo
    [2^32], which is the length itself only below [2^32]. The number of
    words it packs is that length divided by 4 and rounded up, enough for
    the length it declares, exactly when that length is at most
    [2^32 - 4]; for the three larger values the 32-bit sum wraps and no
    word at all is packed. *)
Theorem single_shot_word_count (file_size : Z) :
  let len_bytes := SingleShot.len_bytes_of file_size in
  let msg_stride := SingleShot.msg_stride_of len_bytes in
  (len_bytes = file_size <-> 0 <= file_size < 2 ^ 32)
  /\ (len_bytes <= 4 * msg_stride <-> len_bytes <= 2 ^ 32 - 4)
  /\ (len_bytes <= 2 ^ 32 - 4 ->
      msg_stride = (len_bytes + 3) / 4 /\ 4 * msg_stride < len_bytes + 4)
  /\ (2 ^ 32 - 4 < len_bytes -> msg_stride = 0).
Proof.
  intros len_bytes msg_stride. subst len_bytes msg_stride.
  unfold SingleShot.len_bytes_of, SingleShot.msg_stride_of, to_uint32.
  pose proof (Z.mod_pos_bound file_size (2 ^ 32)) as Hb.
  pose proof (Z.div_mod file_size (2 ^ 32)) as Hdm.
  set (l := file_size mod 2 ^ 32) in *.
  assert (Hsame : l = file_size <-> 0 <= file_size < 2 ^ 32).
  { split; [lia|]. intros. subst l. apply Z.mod_small. lia. }
  clearbody l. split; [done|].
  destruct (Z.le_gt_cases l (2 ^ 32 - 4)) as [Hle|Hgt].
  - rewrite (Z.mod_small (l + 3)) by lia.
    pose proof (Z.div_mod (l + 3) 4). pose proof (Z.mod_pos_bound (l + 3) 4).
    repeat split; try lia.
  - assert (Hwrap : (l + 3) mod 2 ^ 32 = l + 3 - 2 ^ 32).
    { symmetry. apply (Z.mod_unique _ _ 1); lia. }
    rewrite Hwrap.
    assert (Hz : (l + 3 - 2 ^ 32) / 4 = 0) by (apply Z.div_small; lia).
    rewrite Hz. repeat split; try lia.
Qed.

Lemma lor_disjoint (a lo s : Z) :
  0 <= s -> 0 <= a -> a mod 2 ^ s = 0 -> 0 <= lo < 2 ^ s ->
  Z.lor a lo = a + lo.
Proof.
  intros Hs Ha Hmod Hlo.
  assert (Hland : Z.land a lo = 0).
  { apply Z.bits_inj'. intros n Hn. rewrite Z.land_spec, Z.bits_0.
    destruct (Z.lt_ge_cases n s) as [Hlt|Hge].
    - replace (Z.testbit a n) with (Z.testbit (a mod 2 ^ s) n)
        by (by rewrite Z.mod_pow2_bits_low by lia).
      rewrite Hmod, Z.bits_0. reflexivity.
    - replace (Z.testbit lo n) with (Z.testbit (lo mod 2 ^ s) n)
        by (by rewrite Z.mod_small by lia).
      rewrite Z.mod_pow2_bits_high by lia. apply Bool.andb_false_r. }
  rewrite <- Z.lxor_lor by done. symmetry. by apply Z.add_nocarry_lxor.
Qed.

Lemma byte_at_range (file_data : list ascii) (i : Z) :
  0 <= SingleShot.byte_at file_data i < 256.
Proof.
  unfold SingleShot.byte_at.
  pose proof (nat_ascii_bounded (default NUL (file_data !! Z.to_nat i))). lia.
Qed.

(** The word made of four bytes, and its bytes. *)
Lemma word_of_bytes (b0 b1 b2 b3 : Z) :
  0 <= b0 < 256 -> 0 <= b1 < 256 -> 0 <= b2 < 256 -> 0 <= b3 < 256 ->
  let v := Z.lor (Z.lor (Z.lor (Z.lor 0 (to_uint32 (Z.shiftl b0 24)))
                           (to_uint32 (Z.shiftl b1 16)))
                    (to_uint32 (Z.shiftl b2 8)))
             (to_uint32 (Z.shiftl b3 0)) in
  v = b0 * 2 ^ 24 + b1 * 2 ^ 16 + b2 * 2 ^ 8 + b3
  /\ word_bytes v = [b0; b1; b2; b3].
Proof.
  intros H0 H1 H2 H3 v. subst v.
  rewrite !Z.shiftl_mul_pow2 by lia.
  rewrite !to_uint32_small by lia.
  rewrite Z.lor_0_l, Z.pow_0_r, Z.mul_1_r.
  rewrite (lor_disjoint (b0 * 2 ^ 24) (b1 * 2 ^ 16) 24); try lia.
  2:{ apply Z.mod_mul. lia. }
  rewrite (lor_disjoint _ (b2 * 2 ^ 8) 16); try lia.
  2:{ replace (b0 * 2 ^ 24 + b1 * 2 ^ 16) with ((b0 * 2 ^ 8 + b1) * 2 ^ 16) by lia.
      apply Z.mod_mul. lia. }
  rewrite (lor_disjoint _ b3 8); try lia.
  2:{ replace (b0 * 2 ^ 24 + b1 * 2 ^ 16 + b2 * 2 ^ 8)
        with ((b0 * 2 ^ 16 + b1 * 2 ^ 8 + b2) * 2 ^ 8) by lia.
      apply Z.mod_mul. lia. }
  split; [reflexivity|].
  unfold word_bytes. change 255 with (Z.ones 8).
  rewrite !Z.land_ones, !Z.shiftr_div_pow2 by lia.
  set (v := b0 * 2 ^ 24 + b1 * 2 ^ 16 + b2 * 2 ^ 8 + b3).
  assert (E0 : (v / 2 ^ 24) mod 2 ^ 8 = b0).
  { replace (v / 2 ^ 24) with b0; [apply Z.mod_small; lia|].
    apply (Z.div_unique _ _ _ (b1 * 2 ^ 16 + b2 * 2 ^ 8 + b3)); subst v; lia. }
  assert (E1 : (v / 2 ^ 16) mod 2 ^ 8 = b1).
  { replace (v / 2 ^ 16) with (b0 * 2 ^ 8 + b1).
    - symmetry. apply (Z.mod_unique _ _ b0); lia.
    - apply (Z.div_unique _ _ _ (b2 * 2 ^ 8 + b3)); subst v; lia. }
  assert (E2 : (v / 2 ^ 8) mod 2 ^ 8 = b2).
  { replace (v / 2 ^ 8) with (b0 * 2 ^ 16 + b1 * 2 ^ 8 + b2).
    - symmetry. apply (Z.mod_unique _ _ (b0 * 2 ^ 8 + b1)); lia.
    - apply (Z.div_unique _ _ _ b3); subst v; lia. }
  assert (E3 : v mod 2 ^ 8 = b3).
  { symmetry. apply (Z.mod_unique _ _ (b0 * 2 ^ 16 + b1 * 2 ^ 8 + b2));
      subst v; lia. }
  by rewrite E0, E1, E2, E3.
Qed.

Lemma byte_at_beyond (file_data : list ascii) (i : Z) :
  Z.of_nat (length file_data) <= i -> SingleShot.byte_at file_data i = 0.
Proof.
  intros Hi. unfold SingleShot.byte_at.
  rewrite lookup_ge_None_2 by lia. reflexivity.
Qed.

Lemma lor_if (c : bool) (v x : Z) :
  (if c then Z.lor v x else v) = Z.lor v (if c then x else 0).
Proof. destruct c; [done|by rewrite Z.lor_0_r]. Qed.

Lemma pack_word_bytes (file_data : list ascii) (i : nat) :
  Z.of_nat i < 2 ^ 32 ->
  let v := SingleShot.pack_word file_data (Z.of_nat (length file_data))
             (Z.of_nat i) in
  0 <= v < 2 ^ 32
  /\ word_bytes v
     = (fun j => SingleShot.byte_at file_data (Z.of_nat (4 * i + j)))
         <$> seq 0 4.
Proof.
  intros Hi v. subst v. unfold SingleShot.pack_word. cbv zeta.
  rewrite (to_size_t_small (Z.of_nat i * 4)) by lia.
  rewrite !to_size_t_small by lia.
  rewrite !lor_if.
  assert (Hsel : forall (p s : Z),
    (if p <? Z.of_nat (length file_data)
     then to_uint32 (Z.shiftl (SingleShot.byte_at file_data p) s) else 0)
    = to_uint32 (Z.shiftl (SingleShot.byte_at file_data p) s)).
  { intros p s. destruct (Z.ltb_spec p (Z.of_nat (length file_data))); [done|].
    rewrite byte_at_beyond by done. rewrite Z.shiftl_0_l. reflexivity. }
  rewrite !Hsel.
  destruct (word_of_bytes
              (SingleShot.byte_at file_data (Z.of_nat i * 4 + 0))
              (SingleShot.byte_at file_data (Z.of_nat i * 4 + 1))
              (SingleShot.byte_at file_data (Z.of_nat i * 4 + 2))
              (SingleShot.byte_at file_data (Z.of_nat i * 4 + 3)))
    as [Hv Hbytes]; try apply byte_at_range.
  cbv zeta in Hv, Hbytes. rewrite Hbytes. split.
  - rewrite Hv.
    pose proof (byte_at_range file_data (Z.of_nat i * 4 + 0)).
    pose proof (byte_at_range file_data (Z.of_nat i * 4 + 1)).
    pose proof (byte_at_range file_data (Z.of_nat i * 4 + 2)).
    pose proof (byte_at_range file_data (Z.of_nat i * 4 + 3)). lia.
  - cbn [seq fmap list_fmap].
    repeat (apply (f_equal2 cons); [f_equal; lia|]). reflexivity.
Qed.

(** A list cut in groups of four. *)
Lemma groups_of_four (l : list Z) :
  forall n, length l = (4 * n)%nat ->
    (i ← seq 0 n;
     (fun j => default 0 (l !! (4 * i + j)%nat)) <$> seq 0 4) = l.
Proof.
  intros n. revert l. induction n as [|n IH]; intros l Hl.
  { by destruct l. }
  destruct l as [|a [|b [|c [|d l]]]]; simpl in Hl; try lia.
  change (seq 0 (S n)) with (0%nat :: seq 1 n). rewrite bind_cons.
  change ((fun j => default 0 ((a :: b :: c :: d :: l) !! (4 * 0 + j)%nat))
            <$> seq 0 4) with [a; b; c; d].
  cbn [app]. do 4 f_equal.
  etransitivity; [|apply IH; lia].
  rewrite <- fmap_S_seq, list_fmap_bind. apply list_bind_ext; [|done].
  intros i. cbn [compose]. apply list_fmap_ext. intros _ j _.
  replace (4 * S i + j)%nat with (S (S (S (S (4 * i + j))))) by lia.
  reflexivity.
Qed.

(** X12. For a file of at most [2^32 - 4] bytes the words the single-shot
    driver packs hold the file: read back byte by byte, the most
    significant byte of each word first, they are the bytes of the file
    followed by fewer than four zero bytes. Each word fits 32 bits and
    there are [(file_size + 3) / 4] of them. *)
Theorem single_shot_words_hold_the_file (file_data : list ascii) :
  Z.of_nat (length file_data) <= 2 ^ 32 - 4 ->
  let file_size := Z.of_nat (length file_data) in
  let msg_stride := SingleShot.msg_stride_of (SingleShot.len_bytes_of file_size) in
  let msgs_host := SingleShot.pack_words file_data file_size msg_stride in
  msg_stride = (file_size + 3) / 4
  /\ Z.of_nat (length msgs_host) = msg_stride
  /\ Forall (fun v => 0 <= v < 2 ^ 32) msgs_host
  /\ msgs_host ≫= word_bytes
     = (byte_value <$> file_data)
       ++ replicate (Z.to_nat (4 * msg_stride - file_size)) 0.
Proof.
  intros Hsize file_size msg_stride msgs_host.
  destruct (single_shot_word_count_facts file_size) as (Hlen & Hms & Hceil);
    [subst file_size; lia|].
  change (msg_stride = (file_size + 3) / 4) in Hms. rewrite <- Hms in Hceil.
  assert (Hpos : 0 <= msg_stride) by (subst file_size; lia).
  subst msgs_host. unfold SingleShot.pack_words.
  split; [done|]. split; [rewrite length_fmap, length_seq; lia|]. split.
  - apply Forall_fmap, Forall_forall. intros i Hi%elem_of_seq. cbn [compose].
    apply (pack_word_bytes file_data i). lia.
  - rewrite list_fmap_bind. subst file_size.
    set (padded := (byte_value <$> file_data) ++ replicate _ 0).
    assert (Hpad : length padded = (4 * Z.to_nat msg_stride)%nat).
    { subst padded. rewrite length_app, length_fmap, length_replicate. lia. }
    rewrite <- (groups_of_four padded (Z.to_nat msg_stride) Hpad).
    apply Forall_bind_ext, Forall_forall. intros i Hi%elem_of_seq.
    cbn [compose].
    destruct (pack_word_bytes file_data i) as [_ ->]; [lia|].
    apply list_fmap_ext. intros _ j _.
    unfold SingleShot.byte_at, padded. rewrite Nat2Z.id.
    destruct (file_data !! (4 * i + j)%nat) as [c|] eqn:Ec.
    + rewrite lookup_app_l by (rewrite length_fmap; by eapply lookup_lt_Some).
      by rewrite list_lookup_fmap, Ec.
    + apply lookup_ge_None in Ec.
      rewrite lookup_app_r by (rewrite length_fmap; lia).
      destruct (replicate _ 0 !! _) as [z|] eqn:Ez; [|done].
      apply lookup_replicate in Ez as [-> _]. done.
Qed.

Lemma single_shot_words_hold_the_file_witness :
  Z.of_nat (length (list_ascii_of_string "abcde")) <= 2 ^ 32 - 4
  /\ let file_data := list_ascii_of_string "abcde" in
     let file_size := Z.of_nat (length file_data) in
     let msg_stride :=
       SingleShot.msg_stride_of (SingleShot.len_bytes_of file_size) in
     let msgs_host := SingleShot.pack_words file_data file_size msg_stride in
     msg_stride = (file_size + 3) / 4
     /\ Z.of_nat (length msgs_host) = msg_stride
     /\ Forall (fun v => 0 <= v < 2 ^ 32) msgs_host
     /\ msgs_host ≫= word_bytes
        = (byte_value <$> file_data)
          ++ replicate (Z.to_nat (4 * msg_stride - file_size)) 0.
Proof.
  assert (H : Z.of_nat (length (list_ascii_of_string "abcde")) <= 2 ^ 32 - 4)
    by (vm_compute; discriminate).
  split; [exact H|].
  exact (single_shot_words_hold_the_file (list_ascii_of_string "abcde") H).
Defined.

(** ** The single-shot driver: the hexadecimal string *)

Lemma printf_02x_byte (b : Z) :
  0 <= b < 256 -> SingleShot.printf_02x b = byte_hex b.
Proof.
  intros Hb. unfold SingleShot.printf_02x, byte_hex.
  rewrite Z.shiftr_div_pow2 by lia. change 15 with (Z.ones 4).
  rewrite Z.land_ones by lia. change (2 ^ 4) with 16.
  pose proof (Z.div_mod b 16). pose proof (Z.mod_pos_bound b 16).
  cbn [SingleShot.hex_digits].
  destruct (Z.eqb_spec (b / 16) 0) as [Hz|Hnz].
  - rewrite Hz. reflexivity.
  - assert (Hhi : b / 16 / 16 = 0) by (apply Z.div_small; lia).
    rewrite Hhi. cbn [Z.eqb app length Nat.sub replicate].
    by rewrite (Z.mod_small (b / 16)) by lia.
Qed.

Lemma sprintf_spec (done : list ascii) (rest : block) (s : list ascii) :
  (length s < length rest)%nat ->
  SingleShot.sprintf ((Some <$> done) ++ rest) (Z.of_nat (length done)) s
  = Some ((Some <$> done ++ s) ++ Some NUL :: drop (length s + 1) rest).
Proof.
  intros Hfit. unfold SingleShot.sprintf.
  rewrite length_app, length_fmap, Nat2Z.id.
  destruct (Z.leb_spec 0 (Z.of_nat (length done))); [|lia].
  destruct (Z.leb_spec (Z.of_nat (length done) + Z.of_nat (length s) + 1)
              (Z.of_nat (length done + length rest))); [|lia].
  cbn [andb]. f_equal.
  rewrite take_app_length' by (by rewrite length_fmap).
  rewrite !fmap_app, <- !app_assoc. do 2 f_equal. cbn [fmap list_fmap app].
  f_equal. rewrite <- Nat.add_assoc, drop_app_add' by (by rewrite length_fmap).
  reflexivity.
Qed.

Lemma land_255_range (x : Z) : 0 <= Z.land x 255 < 256.
Proof.
  change 255 with (Z.ones 8). rewrite Z.land_ones by lia.
  apply Z.mod_pos_bound. lia.
Qed.

Lemma word_chunk_hex (v : Z) : word_chunk v = hex_of_word v.
Proof.
  unfold word_chunk. rewrite !printf_02x_byte by apply land_255_range.
  rewrite <- word_bytes_hex. unfold word_bytes.
  cbn [mbind list_bind app]. by rewrite app_nil_r.
Qed.

Lemma hex_loop_spec (digests_host : list Z) :
  forall todo (i : nat) (done : list ascii) (rest : block),
    length done = (8 * i)%nat ->
    length rest = (8 * todo + 1)%nat ->
    exists last,
      SingleShot.hex_loop todo (Z.of_nat i) digests_host
        ((Some <$> done) ++ rest) (Z.of_nat (8 * i))
      = Some ((Some <$> done
                 ++ (j ← seq i todo;
                     hex_of_word (default 0 (digests_host !! j))))
              ++ [last]).
Proof.
  induction todo as [|todo IH]; intros i done rest Hdone Hrest.
  { destruct rest as [|x [|y rest]]; try (simpl in Hrest; lia).
    exists x. cbn [SingleShot.hex_loop seq mbind list_bind].
    by rewrite app_nil_r. }
  cbn [SingleShot.hex_loop]. rewrite Nat2Z.id.
  fold (word_chunk (default 0 (digests_host !! i))).
  rewrite word_chunk_hex.
  set (chunk := hex_of_word (default 0 (digests_host !! i))).
  assert (Hchunk : length chunk = 8%nat) by reflexivity.
  rewrite <- Hdone. rewrite sprintf_spec by lia.
  cbn [mbind option_bind].
  replace (Z.of_nat (length done) + 8) with (Z.of_nat (8 * S i)) by lia.
  replace (Z.of_nat i + 1) with (Z.of_nat (S i)) by lia.
  destruct (IH (S i) (done ++ chunk) (Some NUL :: drop (length chunk + 1) rest))
    as [last Hlast].
  { rewrite length_app. lia. }
  { cbn [length]. rewrite length_drop. lia. }
  rewrite Hlast. exists last. do 3 f_equal.
  cbn [seq]. rewrite bind_cons, <- app_assoc. reflexivity.
Qed.

Lemma until_nul_all (l : list ascii) :
  Forall (fun c => c <> NUL) l -> until_nul l = l.
Proof.
  induction 1 as [|c l Hc _ IH]; [reflexivity|].
  cbn [until_nul]. destruct (Ascii.eqb_spec c NUL); [done|by rewrite IH].
Qed.

Lemma lowercase_hex_not_nul (c : ascii) : lowercase_hex c -> c <> NUL.
Proof.
  unfold lowercase_hex. intros H ->.
  assert (Hall : Forall (fun c => c <> NUL)
                   (list_ascii_of_string "0123456789abcdef")).
  { simpl. repeat constructor; discriminate. }
  rewrite Forall_forall in Hall. by apply (Hall NUL).
Qed.

Lemma hex_string_spec (digests_host : list Z) :
  exists hex,
    SingleShot.hex_string digests_host = Some hex
    /\ hex ++ [newline] = emit digests_host 1 []
    /\ hex = (j ← seq 0 8; hex_of_word (default 0 (digests_host !! j)))
    /\ length hex = 64%nat
    /\ Forall lowercase_hex hex.
Proof.
  set (hex := j ← seq 0 8; hex_of_word (default 0 (digests_host !! j))).
  assert (Hlen : length hex = 64%nat) by reflexivity.
  assert (Hlow : Forall lowercase_hex hex).
  { apply Forall_bind, Forall_forall. intros j _. apply hex_of_word_lowercase. }
  exists hex. split; [|split; [|done]].
  - unfold SingleShot.hex_string.
    destruct (hex_loop_spec digests_host 8 0 [] (malloc 65))
      as [last Hloop]; [reflexivity|reflexivity|].
    change (SingleShot.hex_loop 8 0 digests_host (malloc (64 + 1)) 0
            = Some ((Some <$> hex) ++ [last])) in Hloop.
    rewrite Hloop. cbn [mbind option_bind].
    change 64 with (Z.of_nat 64). rewrite <- Hlen.
    rewrite store_after by done. cbn [mbind option_bind drop].
    rewrite c_string_written. f_equal. apply until_nul_all.
    eapply Forall_impl; [exact Hlow|]. apply lowercase_hex_not_nul.
  - change (emit digests_host 1 [])
      with (digest_to_hex (digest_bytes digests_host 0) ++ [newline]).
    rewrite (emit_line digests_host 0). reflexivity.
Qed.

(** X13. The string the single-shot driver builds with [sprintf] is well
    formed for any eight words: every [%02x] yields two characters, the
    eight calls fill the 64 bytes of [hex] without a gap and stay inside
    it, and the string is the 64 lowercase hexadecimal characters of the
    words. It is, character for character, the line the batch driver
    writes for the same words. *)
Theorem single_shot_hex_is_emitter_line (digests_host : list Z) :
  exists hex,
    SingleShot.hex_string digests_host = Some hex
    /\ hex ++ [newline] = emit digests_host 1 []
    /\ hex = (j ← seq 0 8; hex_of_word (default 0 (digests_host !! j)))
    /\ length hex = 64%nat
    /\ Forall lowercase_hex hex.
Proof. exact (hex_string_spec digests_host). Qed.

(** ** The single-shot driver: [main] *)

Lemma read_binary_file_spec (f : whole_file) :
  tell f <= LONG_MAX ->
  if readable f
  then exists buf,
         let nread := Z.min (tell f) (Z.of_nat (length (delivered f))) in
         SingleShot.read_binary_file f = Some (Go (buf, nread))
         /\ Z.of_nat (length buf) = tell f
         /\ SingleShot.block_bytes buf nread
            = take (Z.to_nat nread) (delivered f)
  else SingleShot.read_binary_file f = Some (Exit 1).
Proof.
  intros Hlong. unfold LONG_MAX in Hlong.
  unfold readable, SingleShot.read_binary_file.
  destruct (opens f); [|reflexivity].
  destruct (seek_ok f); [|reflexivity].
  destruct (Z.ltb_spec (tell f) 0); [reflexivity|].
  destruct (malloc_ok f); [|reflexivity].
  cbn [negb andb]. cbv zeta.
  rewrite (to_size_t_small (tell f)) by lia.
  unfold fread, malloc. rewrite length_replicate, length_take.
  set (nread := Z.min (tell f) (Z.of_nat (length (delivered f)))).
  assert (Hn : Z.of_nat (Z.to_nat (tell f) `min` length (delivered f)) = nread)
    by (subst nread; lia).
  rewrite Hn.
  destruct (Z.leb_spec nread (Z.of_nat (Z.to_nat (tell f)))); [|lia].
  cbn [mbind option_bind].
  assert (Htext : take (Z.to_nat (tell f)) (delivered f)
                  = take (Z.to_nat nread) (delivered f)).
  { subst nread.
    destruct (Z.le_gt_cases (tell f) (Z.of_nat (length (delivered f)))).
    - by rewrite Z.min_l by lia.
    - rewrite Z.min_r, Nat2Z.id by lia.
      rewrite !take_ge by lia. reflexivity. }
  rewrite Htext. set (text := take (Z.to_nat nread) (delivered f)).
  assert (Hlt : length text = Z.to_nat nread).
  { subst text. rewrite length_take. lia. }
  eexists. split; [reflexivity|]. split.
  - rewrite length_app, length_fmap, length_drop, length_replicate. lia.
  - unfold SingleShot.block_bytes. rewrite <- Hlt.
    rewrite take_app_length' by (by rewrite length_fmap).
    clear. induction text as [|c text IH]; [done|].
    cbn [fmap list_fmap omap list_omap]. cbn. f_equal. exact IH.
Qed.

Lemma ss_guard_cases (ok : bool) (s : SingleShot.state) :
  SingleShot.guard ok s = Some (if ok then Go tt else Exit 1, s).
Proof. by destruct ok. Qed.










Lemma readable_tell (f : whole_file) : readable f = true -> 0 <= tell f.
Proof.
  unfold readable. destruct (Z.ltb_spec (tell f) 0); [|done].
  rewrite Bool.andb_false_r. discriminate.
Qed.

(** X14. The single-shot driver ends with status 1 when it is not given
    two arguments, when the input cannot be read, and when no byte of the
    input is read: the file is empty, or the stream delivers nothing. It
    has then made no OpenCL call, printed nothing on [stdout] and left the
    output path as it was. *)
Theorem single_shot_rejects_empty_input (env : SingleShot.environment) :
  tell (SingleShot.input env) <= LONG_MAX ->
  SingleShot.argc env <> 3
  \/ readable (SingleShot.input env) = false
  \/ tell (SingleShot.input env) = 0
  \/ delivered (SingleShot.input env) = [] ->
  SingleShot.run_main env
  = Some (SingleShot.mkRun 1 (SingleShot.output_before env) [] []).
Proof.
  intros Hin Hbad. unfold SingleShot.run_main, SingleShot.main.
  unfold SingleShot.bind at 1. rewrite ss_guard_cases.
  destruct (Z.eqb_spec (SingleShot.argc env) 3) as [Hargc|Hargc];
    [|reflexivity].
  unfold SingleShot.bind at 1, SingleShot.call_fn at 1.
  pose proof (read_binary_file_spec (SingleShot.input env) Hin) as Hread.
  pose proof (readable_tell (SingleShot.input env)) as Htell.
  destruct (readable (SingleShot.input env)).
  2:{ by rewrite Hread. }
  specialize (Htell eq_refl).
  destruct Hread as (buf & -> & _). cbn [fst snd].
  unfold SingleShot.bind at 1. rewrite ss_guard_cases.
  assert (Hzero : Z.min (tell (SingleShot.input env))
                    (Z.of_nat (length (delivered (SingleShot.input env)))) = 0).
  { destruct Hbad as [?|[?|[Hz|Hz]]]; try done.
    - rewrite Hz. lia.
    - rewrite Hz. cbn [length]. lia. }
  rewrite Hzero. reflexivity.
Qed.

Lemma single_shot_rejects_empty_input_witness :
  (tell (SingleShot.input (single_shot_env [])) <= LONG_MAX
   /\ (SingleShot.argc (single_shot_env []) <> 3
       \/ readable (SingleShot.input (single_shot_env [])) = false
       \/ tell (SingleShot.input (single_shot_env [])) = 0
       \/ delivered (SingleShot.input (single_shot_env [])) = []))
  /\ SingleShot.run_main (single_shot_env [])
     = Some (SingleShot.mkRun 1
               (SingleShot.output_before (single_shot_env [])) [] []).
Proof.
  assert (H1 : tell (SingleShot.input (single_shot_env [])) <= LONG_MAX)
    by (vm_compute; discriminate).
  assert (H2 : SingleShot.argc (single_shot_env []) <> 3
               \/ readable (SingleShot.input (single_shot_env [])) = false
               \/ tell (SingleShot.input (single_shot_env [])) = 0
               \/ delivered (SingleShot.input (single_shot_env [])) = [])
    by (right; right; right; reflexivity).
  split; [split; [exact H1|exact H2]|].
  exact (single_shot_rejects_empty_input (single_shot_env []) H1 H2).
Defined.



(** ** Failing calls at sample inputs *)

(** A read-back that fails is requested twice; the output file stays
    empty. *)
Example failing_read_back_is_made_twice :
  run_with toy_digest 2 (read_back_fails sample_file)
  = mkRun 1 (Some [])
      ([EvOpenInput; EvCreateOutput] ++ bootstrap_events
       ++ batch_events 2 16 ++ [EvCL EnqueueReadBuffer]).
Proof. vm_compute. reflexivity. Qed.

(** The call made again after [clSetKernelArg (kernel, arg++, ...)] failed
    has the index 1 and the value of the first parameter. *)
Example failing_argument_is_bound_again :
  run_with toy_digest 2 (first_argument_fails sample_file)
  = mkRun 1 (Some [])
      ([EvOpenInput; EvCreateOutput] ++ bootstrap_events
       ++ [EvCL CreateBufferMsgs; EvCL CreateBufferLens; EvCL CreateBufferOut;
           EvCL (SetKernelArg 0 ArgMsgs); EvCL (SetKernelArg 1 ArgMsgs)]).
Proof. vm_compute. reflexivity. Qed.

Example failing_listing_is_made_twice :
  run_with toy_digest 2 (listing_fails sample_file)
  = mkRun 1 (Some [])
      [EvOpenInput; EvCreateOutput; EvCL GetPlatformIDsCount;
       EvCL GetPlatformIDsList; EvCL GetDeviceIDsList; EvCL GetDeviceIDsList].
Proof. vm_compute. reflexivity. Qed.

Example failing_finish_is_made_twice :
  SingleShot.run_main (finish_fails (list_ascii_of_string "abc"))
  = Some (SingleShot.mkRun 1 None []
            (take 18 single_shot_calls ++ [SingleShot.Finish])).
Proof. vm_compute. reflexivity. Qed.
